(** * A shallow embedding of [advanced-vector/vector.h]

    The header defines two class templates: [RawMemory<T>], which owns a block
    of raw storage, and [Vector<T>], a dynamic array built on it.  The model
    below keeps the structure of the header:

    - the free store is a finite map from block addresses to arrays of slots,
      a slot being either raw storage ([None]) or a live object ([Some v]);
    - running code is a function from states to outcomes: normal completion,
      a propagating exception, or undefined behaviour;
    - allocation failures and throwing element operations are decided by an
      oracle carried in the state, so that every failure pattern is an input;
    - [Vector] objects live in an object store and are named by their address
      ([this]), so that [this == &rhs] is a comparison of addresses.

    Values of type [size_t] are kept as natural numbers, because they index
    arrays; the arithmetic the code does on them is that of 64-bit unsigned
    integers and wraps around. *)

From stdpp Require Import base numbers option list gmap fin_maps.

(** ** Outcomes, and the monad of state and exceptions *)

Inductive outcome (S A : Type) : Type :=
| Done (a : A) (s : S)
| Thrown (s : S)
| Undefined.
Arguments Done {S A} a s.
Arguments Thrown {S A} s.
Arguments Undefined {S A}.

Definition prog (S A : Type) : Type := S → outcome S A.

#[global] Instance prog_ret {S} : MRet (prog S) := λ A a s, Done a s.
#[global] Instance prog_bind {S} : MBind (prog S) := λ A B f m s,
  match m s with
  | Done a s' => f a s'
  | Thrown s' => Thrown s'
  | Undefined => Undefined
  end.

Definition undefined {S A} : prog S A := λ _, Undefined.

(** [assert(e)] of <cassert>: a violated assertion is not a completion. *)
Definition assert_ {S} (b : bool) : prog S () :=
  if b then mret () else undefined.

(** Stack unwinding: when [body] throws, [cleanup] (the destructors of the
    objects in scope, or a catch-and-rethrow block) runs on the state at the
    throw and the exception propagates.  Cleanup code is [noexcept]. *)
Definition unwind {S A} (body : prog S A) (cleanup : prog S ()) : prog S A :=
  λ s, match body s with
       | Thrown s' =>
           match cleanup s' with
           | Done _ s'' => Thrown s''
           | _ => Undefined
           end
       | r => r
       end.

(** ** Pointers *)

(** A [T*] is a block (or null) and an element offset in it. *)
Record ptr := Ptr { base : option nat; index : nat }.

#[global] Instance ptr_eq_dec : EqDecision ptr.
Proof. solve_decision. Defined.

Definition nullptr : ptr := Ptr None 0.

Definition ptr_add (p : ptr) (k : nat) : ptr := Ptr (base p) (index p + k).
Infix "+ₚ" := ptr_add (at level 50, left associativity).

(** [p - k]; stepping below the start of the block is undefined. *)
Definition ptr_sub {S} (p : ptr) (k : nat) : prog S ptr :=
  if decide (k ≤ index p) then mret (Ptr (base p) (index p - k)) else undefined.

(** [a <= b] on pointers into one array. *)
Definition ptr_le (a b : ptr) : bool :=
  bool_decide (base a = base b) && bool_decide (index a ≤ index b).
Definition ptr_lt (a b : ptr) : bool :=
  bool_decide (base a = base b) && bool_decide (index a < index b).

(** [std::distance(first, last)] for pointers: both must point into the same
    array, with [first] not after [last]. *)
Definition std_distance {S} (first last : ptr) : prog S nat :=
  if ptr_le first last then mret (index last - index first) else undefined.

(** ** [size_t] *)

(** The number of values of [size_t], [SIZE_MAX + 1]. *)
Definition SIZE_RANGE : Z := 2 ^ 64.

Definition is_size_t (n : nat) : Prop := (Z.of_nat n < SIZE_RANGE)%Z.

(** Conversion to [size_t]: reduction modulo [SIZE_RANGE]. *)
Definition to_size_t (z : Z) : nat := Z.to_nat (z mod SIZE_RANGE).

(** [a + b], [a - b] and [a * b] on [size_t].  Where the code subtracts
    under a test that excludes a borrow, the subtraction of natural numbers
    is used. *)
Definition size_add (a b : nat) : nat := to_size_t (Z.of_nat a + Z.of_nat b).
Definition size_sub (a b : nat) : nat := to_size_t (Z.of_nat a - Z.of_nat b).
Definition size_mul (a b : nat) : nat := to_size_t (Z.of_nat a * Z.of_nat b).
Arguments is_size_t : simpl never.
Arguments size_add : simpl never.
Arguments size_sub : simpl never.
Arguments size_mul : simpl never.

(** ** The element type and the library *)

(** What the container needs to know about [T]: the value a value-initialised
    object has, the state a moved-from object is left in, the three type
    traits the header and its comments consult, and [sizeof(T)], which is
    positive and a [size_t]. *)
Class Element (T : Type) := {
  dflt : T;
  residue : T → T;
  nothrow_move_constructible : bool;
  nothrow_move_assignable : bool;
  copy_constructible : bool;
  sizeof_T : nat;
  sizeof_T_pos : 0 < sizeof_T;
  sizeof_T_size_t : is_size_t sizeof_T;
}.

(** [std::copy], [std::move] and [std::move_backward] require [first, last) to
    be a valid range.  The standard leaves a call with [last] before [first]
    undefined; an implementation whose loop counts [last - first] downwards
    does nothing there.  Both readings are covered: [lenient_ranges] selects
    the second. *)
Class Library := { lenient_ranges : bool }.

(** ** Memory *)

Record Mem (T : Type) := MkMem {
  heap : gmap nat (list (option T));
  oracle : list bool;
}.
Arguments MkMem {T} heap oracle.
Arguments heap {T} m.
Arguments oracle {T} m.

Section Memory.
Context {T : Type} `{Element T} `{Library}.

(** A point at which an exception may be thrown.  The oracle lists, in order,
    whether each such point succeeds; when it is used up everything succeeds. *)
Definition tick : prog (Mem T) () := λ m,
  match oracle m with
  | [] => Done () m
  | true :: o => Done () (MkMem (heap m) o)
  | false :: o => Thrown (MkMem (heap m) o)
  end.

(** A block of [n] slots of raw storage that no live allocation occupies. *)
Definition fresh_block (n : nat) : prog (Mem T) nat := λ m,
  let a := fresh (dom (heap m)) in
  Done a (MkMem (<[a := replicate n None]> (heap m)) (oracle m)).

(** [operator new(bytes)]: throws [std::bad_alloc] or returns fresh storage
    of [bytes] bytes, which has room for [bytes / sizeof(T)] objects. *)
Definition operator_new (bytes : nat) : prog (Mem T) nat :=
  tick;; fresh_block (bytes / sizeof_T).

(** [operator delete]: nothing for a null pointer; releasing a block that is
    not a live allocation is undefined.  Objects that are still alive in the
    block go with it: their destructors are not run, and no record of them is
    kept.  What is said below of the free store after a release is said of
    its blocks only. *)
Definition operator_delete (buf : option nat) : prog (Mem T) () := λ m,
  match buf with
  | None => Done () m
  | Some a =>
      match heap m !! a with
      | Some _ => Done () (MkMem (delete a (heap m)) (oracle m))
      | None => Undefined
      end
  end.

(** Reading the live object [*p]. *)
Definition load (p : ptr) : prog (Mem T) T := λ m,
  match base p with
  | None => Undefined
  | Some a =>
      match heap m !! a with
      | Some blk =>
          match blk !! index p with
          | Some (Some v) => Done v m
          | _ => Undefined
          end
      | None => Undefined
      end
  end.

(** Overwriting the slot at [p], which must lie inside its block. *)
Definition store (p : ptr) (c : option T) : prog (Mem T) () := λ m,
  match base p with
  | None => Undefined
  | Some a =>
      match heap m !! a with
      | Some blk =>
          if decide (index p < length blk)
          then Done () (MkMem (<[a := <[index p := c]> blk]> (heap m)) (oracle m))
          else Undefined
      | None => Undefined
      end
  end.

(** *** Operations of the element type *)

(** [new (p) T(args...)], [args] evaluating to [x]: may throw. *)
Definition construct_at (p : ptr) (x : T) : prog (Mem T) () :=
  tick;; store p (Some x).

(** [new (p) T()] *)
Definition value_construct_at (p : ptr) : prog (Mem T) () :=
  construct_at p dflt.

(** Copy construction at [p] from the object at [src]. *)
Definition copy_construct_at (p src : ptr) : prog (Mem T) () :=
  v ← load src; construct_at p v.

(** [new (p) T(std::move(x))] for a caller's object [x]. *)
Definition move_construct_from (p : ptr) (x : T) : prog (Mem T) () :=
  (if nothrow_move_constructible then mret () else tick);;
  store p (Some x).

(** Move construction at [p] from the object at [src], which is left
    moved-from. *)
Definition move_construct_at (p src : ptr) : prog (Mem T) () :=
  v ← load src;
  move_construct_from p v;;
  store src (Some (residue v)).

(** Copy assignment to the object at [p] from the one at [src]. *)
Definition copy_assign_at (p src : ptr) : prog (Mem T) () :=
  v ← load src;
  _ ← load p;
  tick;;
  store p (Some v).

(** Move assignment to the object at [p] from the one at [src]. *)
Definition move_assign_at (p src : ptr) : prog (Mem T) () :=
  v ← load src;
  _ ← load p;
  (if nothrow_move_assignable then mret () else tick);;
  store p (Some v);;
  store src (Some (residue v)).

(** [p->~T()] *)
Definition destroy_at (p : ptr) : prog (Mem T) () :=
  _ ← load p; store p None.

(** *** The algorithms of <memory> and <algorithm> the header calls *)

Fixpoint destroy_n (first : ptr) (n : nat) : prog (Mem T) () :=
  match n with
  | 0 => mret ()
  | S n' => destroy_at first;; destroy_n (first +ₚ 1) n'
  end.

(** The uninitialized algorithms destroy what they constructed when an
    element constructor throws, then rethrow. *)
Fixpoint uninitialized_value_construct_n (first : ptr) (n : nat)
  : prog (Mem T) () :=
  match n with
  | 0 => mret ()
  | S n' =>
      value_construct_at first;;
      unwind (uninitialized_value_construct_n (first +ₚ 1) n')
             (destroy_at first)
  end.

Fixpoint uninitialized_copy_n (first : ptr) (n : nat) (d_first : ptr)
  : prog (Mem T) () :=
  match n with
  | 0 => mret ()
  | S n' =>
      copy_construct_at d_first first;;
      unwind (uninitialized_copy_n (first +ₚ 1) n' (d_first +ₚ 1))
             (destroy_at d_first)
  end.

Fixpoint uninitialized_move_n (first : ptr) (n : nat) (d_first : ptr)
  : prog (Mem T) () :=
  match n with
  | 0 => mret ()
  | S n' =>
      move_construct_at d_first first;;
      unwind (uninitialized_move_n (first +ₚ 1) n' (d_first +ₚ 1))
             (destroy_at d_first)
  end.

(** The number of elements of [first, last). *)
Definition range_length (first last : ptr) : prog (Mem T) nat :=
  if ptr_le first last then mret (index last - index first)
  else if lenient_ranges then mret 0
  else undefined.

Fixpoint copy_n_assign (first : ptr) (n : nat) (d_first : ptr)
  : prog (Mem T) () :=
  match n with
  | 0 => mret ()
  | S n' =>
      copy_assign_at d_first first;;
      copy_n_assign (first +ₚ 1) n' (d_first +ₚ 1)
  end.

(** [std::copy(first, last, d_first)] *)
Definition std_copy (first last d_first : ptr) : prog (Mem T) () :=
  n ← range_length first last; copy_n_assign first n d_first.

Fixpoint move_n_assign (first : ptr) (n : nat) (d_first : ptr)
  : prog (Mem T) () :=
  match n with
  | 0 => mret ()
  | S n' =>
      move_assign_at d_first first;;
      move_n_assign (first +ₚ 1) n' (d_first +ₚ 1)
  end.

(** [std::move(first, last, d_first)], front to back. *)
Definition std_move (first last d_first : ptr) : prog (Mem T) () :=
  n ← range_length first last; move_n_assign first n d_first.

(** The [n] elements from [first] on are moved to those from [d_first] on,
    the last one first. *)
Fixpoint move_n_assign_backward (first : ptr) (n : nat) (d_first : ptr)
  : prog (Mem T) () :=
  match n with
  | 0 => mret ()
  | S n' =>
      move_assign_at (d_first +ₚ n') (first +ₚ n');;
      move_n_assign_backward first n' d_first
  end.

(** [std::move_backward(first, last, d_last)] *)
Definition std_move_backward (first last d_last : ptr) : prog (Mem T) () :=
  n ← range_length first last;
  d_first ← ptr_sub d_last n;
  move_n_assign_backward first n d_first.

(** The expression [new T(args...)]: storage for one object from
    [operator new], released again when the constructor throws. *)
Definition new_T (x : T) : prog (Mem T) ptr :=
  a ← operator_new sizeof_T;
  unwind (construct_at (Ptr (Some a) 0) x) (operator_delete (Some a));;
  mret (Ptr (Some a) 0).

End Memory.

(** ** [RawMemory<T>] *)

Record RawMemory := MkRawMemory { buffer_ : option nat; capacity_ : nat }.

Section RawMemory.
Context {T : Type} `{Element T} `{Library}.

(** [n != 0 ? static_cast<T*>(operator new(n * sizeof(T))) : nullptr] *)
Definition Allocate (n : nat) : prog (Mem T) (option nat) :=
  if decide (n ≠ 0) then a ← operator_new (size_mul n sizeof_T); mret (Some a)
  else mret None.

Definition Deallocate (buf : option nat) : prog (Mem T) () :=
  operator_delete buf.

(** [RawMemory() = default] *)
Definition RawMemory_default : RawMemory := MkRawMemory None 0.

(** [explicit RawMemory(size_t capacity)] *)
Definition RawMemory_ctor (capacity : nat) : prog (Mem T) RawMemory :=
  b ← Allocate capacity; mret (MkRawMemory b capacity).

(** [RawMemory(RawMemory&& other)]: the new object, and [other] afterwards. *)
Definition RawMemory_move_ctor (other : RawMemory) : RawMemory * RawMemory :=
  (MkRawMemory (buffer_ other) (capacity_ other), MkRawMemory None 0).

(** [Swap(other)]: [*this] and [other] afterwards. *)
Definition RawMemory_Swap (this other : RawMemory) : RawMemory * RawMemory :=
  (MkRawMemory (buffer_ other) (capacity_ other),
   MkRawMemory (buffer_ this) (capacity_ this)).

(** [operator=(RawMemory&& rhs)].  [rhs = None] stands for [&rhs == this]. *)
Definition RawMemory_move_assign (this : RawMemory) (rhs : option RawMemory)
  : RawMemory * option RawMemory :=
  match rhs with
  | None => (this, None)
  | Some r => let '(t, r') := RawMemory_Swap this r in (t, Some r')
  end.

(** [~RawMemory()] *)
Definition RawMemory_dtor (this : RawMemory) : prog (Mem T) () :=
  Deallocate (buffer_ this).

(** [operator+(size_t offset)] *)
Definition RawMemory_plus {S} (this : RawMemory) (offset : nat) : prog S ptr :=
  assert_ (bool_decide (offset ≤ capacity_ this));;
  mret (Ptr (buffer_ this) offset).

(** [operator[](size_t index)]; the reference is the slot's address. *)
Definition RawMemory_index {S} (this : RawMemory) (i : nat) : prog S ptr :=
  assert_ (bool_decide (i < capacity_ this));;
  mret (Ptr (buffer_ this) i).

Definition GetAddress (this : RawMemory) : ptr := Ptr (buffer_ this) 0.

End RawMemory.

(** ** [Vector<T>] *)

Record Vector := MkVector { data_ : RawMemory; size_ : nat }.

(** The machine: memory, and the [Vector] objects by address. *)
Record Machine (T : Type) := MkMachine {
  mem : Mem T;
  vectors : gmap nat Vector;
}.
Arguments MkMachine {T} mem vectors.
Arguments mem {T} m.
Arguments vectors {T} m.

Section Vector.
Context {T : Type} `{Element T} `{Library}.

(** Code that works on memory alone, run on the machine. *)
Definition lift {A} (c : prog (Mem T) A) : prog (Machine T) A := λ s,
  match c (mem s) with
  | Done a m => Done a (MkMachine m (vectors s))
  | Thrown m => Thrown (MkMachine m (vectors s))
  | Undefined => Undefined
  end.

Definition get_vec (this : nat) : prog (Machine T) Vector := λ s,
  match vectors s !! this with
  | Some v => Done v s
  | None => Undefined
  end.

Definition put_vec (this : nat) (v : Vector) : prog (Machine T) () := λ s,
  Done () (MkMachine (mem s) (<[this := v]> (vectors s))).

Definition del_vec (this : nat) : prog (Machine T) () := λ s,
  Done () (MkMachine (mem s) (delete this (vectors s))).

(** Storage for a local [Vector]. *)
Definition fresh_vec : prog (Machine T) nat := λ s,
  Done (fresh (dom (vectors s))) s.

(** [Vector() = default] *)
Definition Vector_default_ctor (this : nat) : prog (Machine T) () :=
  put_vec this (MkVector RawMemory_default 0).

(** [explicit Vector(size_t size)].  The object exists once the constructor
    has returned; when its body throws, the member [data_] is destroyed. *)
Definition Vector_sized_ctor (this size : nat) : prog (Machine T) () :=
  data ← lift (RawMemory_ctor size);
  unwind (lift (uninitialized_value_construct_n (GetAddress data) size))
         (lift (RawMemory_dtor data));;
  put_vec this (MkVector data size).

(** [Vector(const Vector& other)] *)
Definition Vector_copy_ctor (this other : nat) : prog (Machine T) () :=
  o ← get_vec other;
  data ← lift (RawMemory_ctor (size_ o));
  unwind (lift (uninitialized_copy_n (GetAddress (data_ o)) (size_ o)
                                     (GetAddress data)))
         (lift (RawMemory_dtor data));;
  put_vec this (MkVector data (size_ o)).

(** [Vector(Vector&& other) noexcept] *)
Definition Vector_move_ctor (this other : nat) : prog (Machine T) () :=
  o ← get_vec other;
  let '(d, od) := RawMemory_move_ctor (data_ o) in
  put_vec other (MkVector od (size_ o));;
  put_vec this (MkVector d (size_ o));;
  o' ← get_vec other;
  put_vec other (MkVector (data_ o') 0).

(** [~Vector()], followed by the destructor of the member [data_]. *)
Definition Vector_dtor (this : nat) : prog (Machine T) () :=
  v ← get_vec this;
  lift (destroy_n (GetAddress (data_ v)) (size_ v));;
  lift (RawMemory_dtor (data_ v));;
  del_vec this.

Definition Size (this : nat) : prog (Machine T) nat :=
  v ← get_vec this; mret (size_ v).

Definition Capacity (this : nat) : prog (Machine T) nat :=
  v ← get_vec this; mret (capacity_ (data_ v)).

Definition begin_ (this : nat) : prog (Machine T) ptr :=
  v ← get_vec this; mret (GetAddress (data_ v)).

Definition end_ (this : nat) : prog (Machine T) ptr :=
  v ← get_vec this; RawMemory_plus (data_ v) (size_ v).

(** [Swap(Vector& other) noexcept] *)
Definition Swap (this other : nat) : prog (Machine T) () :=
  a ← get_vec this;
  b ← get_vec other;
  let '(da, db) := RawMemory_Swap (data_ a) (data_ b) in
  put_vec this (MkVector da (size_ a));;
  put_vec other (MkVector db (size_ b));;
  a ← get_vec this;
  b ← get_vec other;
  put_vec this (MkVector (data_ a) (size_ b));;
  put_vec other (MkVector (data_ b) (size_ a)).

Definition CopyOrMove (from : ptr) (num : nat) (to : ptr) : prog (Mem T) () :=
  if nothrow_move_constructible || negb copy_constructible
  then uninitialized_move_n from num to
  else uninitialized_copy_n from num to.

(** [CopySwap(RawMemory<T>& new_data)], returning [new_data] afterwards. *)
Definition CopySwap (this : nat) (new_data : RawMemory)
  : prog (Machine T) RawMemory :=
  v ← get_vec this;
  lift (CopyOrMove (GetAddress (data_ v)) (size_ v) (GetAddress new_data));;
  lift (destroy_n (GetAddress (data_ v)) (size_ v));;
  let '(nd, d) := RawMemory_Swap new_data (data_ v) in
  put_vec this (MkVector d (size_ v));;
  mret nd.

Definition Reserve (this new_capacity : nat) : prog (Machine T) () :=
  cap ← Capacity this;
  if decide (cap < new_capacity) then
    new_data ← lift (RawMemory_ctor new_capacity);
    new_data' ← unwind (CopySwap this new_data)
                       (lift (RawMemory_dtor new_data));
    lift (RawMemory_dtor new_data')
  else mret ().

Definition OpAssignRhsSizeLessCap (this rhs : nat) : prog (Machine T) () :=
  v ← get_vec this;
  r ← get_vec rhs;
  last ← RawMemory_plus (data_ r) (size_ r `min` size_ v);
  lift (std_copy (GetAddress (data_ r)) last (GetAddress (data_ v)));;
  (if decide (size_ r < size_ v) then
     p ← RawMemory_plus (data_ v) (size_ r);
     lift (destroy_n p (size_ v - size_ r))
   else mret ());;
  (if decide (size_ v < size_ r) then
     src ← RawMemory_plus (data_ r) (size_ v);
     dst ← RawMemory_plus (data_ v) (size_ v);
     lift (uninitialized_copy_n src (size_ r - size_ v) dst)
   else mret ()).

(** [operator=(const Vector& rhs)] *)
Definition Vector_copy_assign (this rhs : nat) : prog (Machine T) () :=
  if decide (this = rhs) then mret () else
  r ← get_vec rhs;
  cap ← Capacity this;
  (if decide (cap < size_ r) then
     to_copy ← fresh_vec;
     Vector_copy_ctor to_copy rhs;;
     Swap this to_copy;;
     Vector_dtor to_copy
   else OpAssignRhsSizeLessCap this rhs);;
  r ← get_vec rhs;
  v ← get_vec this;
  put_vec this (MkVector (data_ v) (size_ r)).

(** [operator=(Vector&& rhs) noexcept] *)
Definition Vector_move_assign (this rhs : nat) : prog (Machine T) () :=
  if decide (this ≠ rhs) then Swap this rhs else mret ().

Definition Resize (this new_size : nat) : prog (Machine T) () :=
  v ← get_vec this;
  if decide (size_ v = new_size) then mret () else
  (if decide (new_size < size_ v) then
     p ← RawMemory_plus (data_ v) new_size;
     lift (destroy_n p (size_ v - new_size))
   else
     Reserve this new_size;;
     v ← get_vec this;
     p ← RawMemory_plus (data_ v) (size_ v);
     lift (uninitialized_value_construct_n p (new_size - size_ v)));;
  v ← get_vec this;
  put_vec this (MkVector (data_ v) new_size).

(** [PushBackU(F copy_move)]; [copy_move] constructs the new element in the
    buffer it is given and returns a pointer. *)
Definition PushBackU (this : nat) (copy_move : ptr → prog (Machine T) ptr)
  : prog (Machine T) ptr :=
  v ← get_vec this;
  res ← (if decide (size_ v ≠ capacity_ (data_ v)) then
           copy_move (GetAddress (data_ v))
         else
           new_data ← lift (RawMemory_ctor
                              (if decide (size_ v = 0) then 1
                               else size_mul (size_ v) 2));
           r ← unwind (res ← copy_move (GetAddress new_data);
                       nd ← CopySwap this new_data;
                       mret (res, nd))
                      (lift (RawMemory_dtor new_data));
           lift (RawMemory_dtor r.2);;
           mret r.1);
  v ← get_vec this;
  put_vec this (MkVector (data_ v) (size_add (size_ v) 1));;
  mret res.

(** [PushBack(const T& value)] *)
Definition PushBack (this : nat) (value : T) : prog (Machine T) () :=
  PushBackU this (λ dest,
    v ← get_vec this;
    lift (construct_at (dest +ₚ size_ v) value);;
    mret nullptr);;
  mret ().

(** [PushBack(T&& value)] *)
Definition PushBack_rv (this : nat) (value : T) : prog (Machine T) () :=
  PushBackU this (λ dest,
    v ← get_vec this;
    lift (move_construct_from (dest +ₚ size_ v) value);;
    mret nullptr);;
  mret ().

(** [EmplaceBack(Args&&... args)], the arguments constructing [x]; the
    reference returned is the address of the new element. *)
Definition EmplaceBack (this : nat) (x : T) : prog (Machine T) ptr :=
  PushBackU this (λ dest,
    v ← get_vec this;
    lift (construct_at (dest +ₚ size_ v) x);;
    mret (dest +ₚ size_ v)).

Definition PopBack (this : nat) : prog (Machine T) () :=
  v ← get_vec this;
  p ← RawMemory_plus (data_ v) (size_ v);
  last ← ptr_sub p 1;
  lift (destroy_n last 1);;
  put_vec this (MkVector (data_ v) (size_sub (size_ v) 1)).

(** [Emplace(const_iterator pos, Args&&... args)], the arguments
    constructing [x]. *)
Definition Emplace (this : nat) (pos : ptr) (x : T) : prog (Machine T) ptr :=
  b ← begin_ this;
  e ← end_ this;
  assert_ (ptr_le b pos && ptr_le pos e);;
  v ← get_vec this;
  let pos_nc := pos in
  res ← (if bool_decide (size_ v < capacity_ (data_ v))
            && bool_decide (size_ v ≠ 0) then
           tmp ← lift (new_T x);
           p_end ← RawMemory_plus (data_ v) (size_ v);
           p_last ← ptr_sub p_end 1;
           lift (CopyOrMove p_last 1 p_end);;
           lift (std_move_backward pos_nc p_last p_end);;
           lift (move_assign_at pos_nc tmp);;
           lift (destroy_n tmp 1);;
           mret pos_nc
         else
           new_data ← lift (RawMemory_ctor
                              (if decide (size_ v = 0) then 1
                               else size_mul (size_ v) 2));
           r ← unwind
                 (dist ← std_distance (GetAddress (data_ v)) pos_nc;
                  res ← RawMemory_plus new_data dist;
                  lift (construct_at res x);;
                  (if decide (size_ v ≠ 0) then
                     lift (CopyOrMove (GetAddress (data_ v)) dist
                                      (GetAddress new_data));;
                     d ← RawMemory_plus new_data dist;
                     lift (CopyOrMove pos_nc (size_ v - dist) (d +ₚ 1));;
                     lift (destroy_n (GetAddress (data_ v)) (size_ v))
                   else mret ());;
                  let '(nd, d) := RawMemory_Swap new_data (data_ v) in
                  put_vec this (MkVector d (size_ v));;
                  mret (res, nd))
                 (lift (RawMemory_dtor new_data));
           lift (RawMemory_dtor r.2);;
           mret r.1);
  v ← get_vec this;
  put_vec this (MkVector (data_ v) (size_add (size_ v) 1));;
  mret res.

Definition Erase (this : nat) (pos : ptr) : prog (Machine T) ptr :=
  b ← begin_ this;
  e ← end_ this;
  assert_ (ptr_le b pos && ptr_lt pos e);;
  v ← get_vec this;
  let pos_nc := pos in
  p_end ← RawMemory_plus (data_ v) (size_ v);
  lift (std_move (pos_nc +ₚ 1) p_end pos_nc);;
  p_last ← ptr_sub p_end 1;
  lift (destroy_n p_last 1);;
  put_vec this (MkVector (data_ v) (size_sub (size_ v) 1));;
  mret pos_nc.

(** [Insert(const_iterator pos, const T& value)] and
    [Insert(const_iterator pos, T&& value)] *)
Definition Insert (this : nat) (pos : ptr) (value : T) : prog (Machine T) ptr :=
  Emplace this pos value.

(** [operator[](size_t index)]; the reference is the element's address. *)
Definition Vector_index (this i : nat) : prog (Machine T) ptr :=
  v ← get_vec this;
  assert_ (bool_decide (i < size_ v));;
  RawMemory_index (data_ v) i.

(** *** Observing a vector *)

(** The objects in the first [n] slots of a block, if all are live. *)
Definition live_prefix (n : nat) (blk : list (option T)) : option (list T) :=
  if decide (n ≤ length blk) then mapM id (take n blk) else None.

(** The element sequence of the vector, from index [0] to [Size() - 1]. *)
Definition elements (s : Machine T) (this : nat) : option (list T) :=
  v ← vectors s !! this;
  match buffer_ (data_ v) with
  | None => if decide (size_ v = 0) then Some [] else None
  | Some a => blk ← heap (mem s) !! a; live_prefix (size_ v) blk
  end.

End Vector.

(** ** Specifications *)

(** What an outcome satisfies: [Q] on normal completion, [E] when an
    exception propagates, [U] when the behaviour is undefined. *)
Definition ensures {S A} (Q : A → S → Prop) (E : S → Prop) (U : Prop)
  (r : outcome S A) : Prop :=
  match r with
  | Done a s => Q a s
  | Thrown s => E s
  | Undefined => U
  end.

(** An oracle under which nothing fails. *)
Definition calm (o : list bool) : Prop := Forall (λ b, b = true) o.

Class HasOracle (S : Type) := oracle_of : S → list bool.
#[global] Instance Mem_oracle {T} : HasOracle (Mem T) := oracle.
#[global] Instance Machine_oracle {T} : HasOracle (Machine T) :=
  λ s, oracle (mem s).

(** Total correctness of a run from [s]: the behaviour is defined, [Q] holds
    on completion and [E] on an exception, the oracle is only consumed, and
    nothing is thrown under a calm oracle. *)
Definition runs {S A} `{HasOracle S} (s : S) (Q : A → S → Prop) (E : S → Prop)
  (r : outcome S A) : Prop :=
  ensures (λ a s', Q a s' ∧ oracle_of s' `suffix_of` oracle_of s)
          (λ s', E s' ∧ oracle_of s' `suffix_of` oracle_of s
                 ∧ ¬ calm (oracle_of s))
          False r.

(** The state invariant of [RawMemory]. *)
Definition RawMemory_inv (r : RawMemory) : Prop :=
  buffer_ r ≠ None ↔ 0 < capacity_ r.

(** The state invariant of [Vector]. *)
Definition Vector_inv (v : Vector) : Prop :=
  RawMemory_inv (data_ v) ∧ 0 ≤ size_ v ≤ capacity_ (data_ v).

Definition Machine_inv {T} (s : Machine T) : Prop :=
  map_Forall (λ _ v, Vector_inv v) (vectors s).

(** The representation of a vector: the object at [this] has buffer [b],
    capacity [cap] and the elements [l]; the buffer holds the elements in its
    first slots and raw storage after them. *)
Definition represents {T} (s : Machine T) (this : nat) (b : option nat)
  (l : list T) (cap : nat) : Prop :=
  vectors s !! this = Some (MkVector (MkRawMemory b cap) (length l))
  ∧ length l ≤ cap
  ∧ match b with
    | None => cap = 0
    | Some a =>
        0 < cap
        ∧ heap (mem s) !! a
          = Some ((Some <$> l) ++ replicate (cap - length l) None)
    end.

(** The blocks that [Vector] objects own. *)
Definition owned {T} (s : Machine T) : gset nat :=
  map_fold (λ _ v acc, match buffer_ (data_ v) with
                       | Some a => {[a]} ∪ acc
                       | None => acc
                       end) ∅ (vectors s).

(** Allocations that no object owns any more. *)
Definition leaked {T} (s : Machine T) : gset nat :=
  dom (heap (mem s)) ∖ owned s.

(** The smallest of 1, 2, 4, 8, ... that is at least [k]. *)
Definition is_pow2 (c : nat) : Prop := ∃ e, c = 2 ^ e.

Definition least_pow2_above (k c : nat) : Prop :=
  is_pow2 c ∧ k ≤ c ∧ ∀ c', is_pow2 c' → k ≤ c' → c ≤ c'.

(** What a run of move assignments leaves behind in the slot it vacates: the
    slot holds the moved-from state of the object that left it last, or its
    own object when nothing was moved. *)
Definition vacated_front {T} `{Element T} (y : T) (vals : list T) : T :=
  match vals with
  | [] => y
  | v :: _ => residue v
  end.

Definition vacated_back {T} `{Element T} (x : T) (vals : list T) : T :=
  match last vals with
  | None => x
  | Some v => residue v
  end.

(** What [CopyOrMove] leaves in the slots it read from: the objects
    themselves when it copies, their moved-from states when it moves. *)
Definition relocation_moves {T} `{Element T} : bool :=
  nothrow_move_constructible || negb copy_constructible.

Definition left_behind {T} `{Element T} (vals : list T) : list T :=
  if relocation_moves then residue <$> vals else vals.

(** The heap once every object of the buffer [b] is destroyed, and once the
    buffer is released. *)
Definition emptied {T} (b : option nat) (cap : nat)
  (h : gmap nat (list (option T))) : gmap nat (list (option T)) :=
  match b with
  | Some a => <[a := replicate cap None]> h
  | None => h
  end.

Definition released {T} (b : option nat)
  (h : gmap nat (list (option T))) : gmap nat (list (option T)) :=
  match b with
  | Some a => delete a h
  | None => h
  end.

(** The capacity after an append or an insertion that finds no room. *)
Definition doubled (size : nat) : nat :=
  if decide (size = 0) then 1 else size * 2.

(** What [PushBackU] expects of its argument: called with the start of a
    buffer, it constructs [x] in the slot at [Size()], or throws leaving
    everything as it was. *)
Definition constructs_at_end {T} (this : nat) (x : T)
  (copy_move : ptr → prog (Machine T) ptr) : Prop :=
  ∀ s v a blk,
    vectors s !! this = Some v →
    heap (mem s) !! a = Some blk →
    size_ v < length blk →
    runs s
      (λ _ s', vectors s' = vectors s
               ∧ heap (mem s') = <[a := <[size_ v := Some x]> blk]> (heap (mem s)))
      (λ s', vectors s' = vectors s ∧ heap (mem s') = heap (mem s))
      (copy_move (Ptr (Some a) 0) s).

(** ** Sequences of appends *)

(** The three ways of appending an element. *)
Inductive append_how := ByCopy | ByMove | ByEmplace.

Section Appends.
Context {T : Type} `{Element T} `{Library}.

Definition append (this : nat) (how : append_how) (x : T)
  : prog (Machine T) () :=
  match how with
  | ByCopy => PushBack this x
  | ByMove => PushBack_rv this x
  | ByEmplace => EmplaceBack this x;; mret ()
  end.

(** Consecutive appends, reading [Capacity()] after each of them. *)
Fixpoint append_all (this : nat) (ops : list (append_how * T))
  : prog (Machine T) (list nat) :=
  match ops with
  | [] => mret []
  | (how, x) :: ops' =>
      append this how x;;
      c ← Capacity this;
      cs ← append_all this ops';
      mret (c :: cs)
  end.

End Appends.

(** A sequence of capacities that never decreases, starting from [c0]. *)
Fixpoint rising (c0 : nat) (caps : list nat) : Prop :=
  match caps with
  | [] => True
  | c :: cs => c0 ≤ c ∧ rising c cs
  end.

(** ** The operations of the interface *)

Inductive operation (T : Type) : Type :=
| DefaultConstruct (this : nat)
| SizedConstruct (this size : nat)
| CopyConstruct (this other : nat)
| MoveConstruct (this other : nat)
| Destroy (this : nat)
| CopyAssign (this rhs : nat)
| MoveAssign (this rhs : nat)
| DoSwap (this other : nat)
| DoResize (this new_size : nat)
| DoReserve (this new_capacity : nat)
| DoPushBack (this : nat) (value : T)
| DoPushBackMove (this : nat) (value : T)
| DoEmplaceBack (this : nat) (x : T)
| DoPopBack (this : nat)
| DoEmplace (this : nat) (pos : ptr) (x : T)
| DoInsert (this : nat) (pos : ptr) (value : T)
| DoErase (this : nat) (pos : ptr)
| ReadSize (this : nat)
| ReadCapacity (this : nat)
| ReadBegin (this : nat)
| ReadEnd (this : nat)
| ReadIndex (this index : nat).
Arguments DefaultConstruct {T}.
Arguments SizedConstruct {T}.
Arguments CopyConstruct {T}.
Arguments MoveConstruct {T}.
Arguments Destroy {T}.
Arguments CopyAssign {T}.
Arguments MoveAssign {T}.
Arguments DoSwap {T}.
Arguments DoResize {T}.
Arguments DoReserve {T}.
Arguments DoPushBack {T}.
Arguments DoPushBackMove {T}.
Arguments DoEmplaceBack {T}.
Arguments DoPopBack {T}.
Arguments DoEmplace {T}.
Arguments DoInsert {T}.
Arguments DoErase {T}.
Arguments ReadSize {T}.
Arguments ReadCapacity {T}.
Arguments ReadBegin {T}.
Arguments ReadEnd {T}.
Arguments ReadIndex {T}.

Section Operations.
Context {T : Type} `{Element T} `{Library}.

(** Running an operation for its effect on the machine. *)
Definition perform (op : operation T) : prog (Machine T) () :=
  match op with
  | DefaultConstruct this => Vector_default_ctor this
  | SizedConstruct this size => Vector_sized_ctor this size
  | CopyConstruct this other => Vector_copy_ctor this other
  | MoveConstruct this other => Vector_move_ctor this other
  | Destroy this => Vector_dtor this
  | CopyAssign this rhs => Vector_copy_assign this rhs
  | MoveAssign this rhs => Vector_move_assign this rhs
  | DoSwap this other => Swap this other
  | DoResize this new_size => Resize this new_size
  | DoReserve this new_capacity => Reserve this new_capacity
  | DoPushBack this value => PushBack this value
  | DoPushBackMove this value => PushBack_rv this value
  | DoEmplaceBack this x => EmplaceBack this x;; mret ()
  | DoPopBack this => PopBack this
  | DoEmplace this pos x => Emplace this pos x;; mret ()
  | DoInsert this pos value => Insert this pos value;; mret ()
  | DoErase this pos => Erase this pos;; mret ()
  | ReadSize this => Size this;; mret ()
  | ReadCapacity this => Capacity this;; mret ()
  | ReadBegin this => begin_ this;; mret ()
  | ReadEnd this => end_ this;; mret ()
  | ReadIndex this index => Vector_index this index;; mret ()
  end.

End Operations.

(** A piece of code preserves the state invariants when every state it
    completes in, normally or by an exception, satisfies them. *)
Definition preserves {T A} (c : prog (Machine T) A) : Prop :=
  ∀ s, Machine_inv s →
       ensures (λ _ s', Machine_inv s') (λ s', Machine_inv s') True (c s).

(** The number of slots of the block [a], when it is allocated. *)
Definition extent {T} (m : Mem T) (a : nat) : option nat :=
  length <$> heap m !! a.

(** Two memories with the same blocks, slot for slot. *)
Definition same_extents {T} (m m' : Mem T) : Prop :=
  ∀ a, extent m' a = extent m a.

(** The block that [p] points into has [k] slots from [p] on. *)
Definition reaches {T} (m : Mem T) (p : ptr) (k : nat) : Prop :=
  ∃ a n, base p = Some a ∧ extent m a = Some n ∧ index p + k ≤ n.

(** Code that allocates and releases nothing and that returns only if [P]
    holds. *)
Definition stays_within {T A} (m : Mem T) (P : Prop) (r : outcome (Mem T) A)
  : Prop :=
  ensures (λ _ m', same_extents m m' ∧ P) (λ m', same_extents m m') True r.

(** The argument of [PushBackU] touches no [Vector] object, and it returns
    only if the buffer it is given has a slot at [Size()]. *)
Definition keeps_vectors {T} (this : nat)
  (copy_move : ptr → prog (Machine T) ptr) : Prop :=
  ∀ p s v,
    vectors s !! this = Some v →
    ensures (λ _ s', vectors s' = vectors s
                     ∧ reaches (mem s) p (size_ v + 1))
            (λ s', vectors s' = vectors s) True (copy_move p s).

(** ** Element types, libraries and machines of the examples *)

(** [int]: copying and moving cannot throw, and a moved-from [int] keeps its
    value. *)
Definition int_element : Element nat := {|
  dflt := 0;
  residue := λ x, x;
  nothrow_move_constructible := true;
  nothrow_move_assignable := true;
  copy_constructible := true;
  sizeof_T := 4;
  sizeof_T_pos := Nat.lt_0_succ 3;
  sizeof_T_size_t := eq_refl;
|}.

(** A string of character codes, as [std::string]: moves cannot throw and
    leave the source empty. *)
Definition string_element : Element (list nat) := {|
  dflt := [];
  residue := λ _, [];
  nothrow_move_constructible := true;
  nothrow_move_assignable := true;
  copy_constructible := true;
  sizeof_T := 32;
  sizeof_T_pos := Nat.lt_0_succ 31;
  sizeof_T_size_t := eq_refl;
|}.

(** A move-only type whose move operations may throw; a moved-from object
    holds [0]. *)
Definition fragile_element : Element nat := {|
  dflt := 0;
  residue := λ _, 0;
  nothrow_move_constructible := false;
  nothrow_move_assignable := false;
  copy_constructible := false;
  sizeof_T := 8;
  sizeof_T_pos := Nat.lt_0_succ 7;
  sizeof_T_size_t := eq_refl;
|}.

Definition strict_library : Library := {| lenient_ranges := false |}.
Definition lenient_library : Library := {| lenient_ranges := true |}.

(** The machine before any object exists, with the oracle [o]. *)
Definition boot {T} (o : list bool) : Machine T := MkMachine (MkMem ∅ o) ∅.

(** A machine with the single vector [0], whose buffer is the block [0] of
    [cap] slots holding the elements [l]. *)
Definition single {T} (o : list bool) (l : list T) (cap : nat) : Machine T :=
  MkMachine
    (MkMem {[ 0 := (Some <$> l) ++ replicate (cap - length l) None ]} o)
    {[ 0 := MkVector (MkRawMemory (Some 0) cap) (length l) ]}.

(** A machine with the vectors [0] and [1], holding [l0] in the block [2] and
    [l1] in the block [3]. *)
Definition pair_of {T} (o : list bool) (l0 : list T) (cap0 : nat)
  (l1 : list T) (cap1 : nat) : Machine T :=
  MkMachine
    (MkMem (<[ 2 := (Some <$> l0) ++ replicate (cap0 - length l0) None ]>
              {[ 3 := (Some <$> l1) ++ replicate (cap1 - length l1) None ]}) o)
    (<[ 0 := MkVector (MkRawMemory (Some 2) cap0) (length l0) ]>
       {[ 1 := MkVector (MkRawMemory (Some 3) cap1) (length l1) ]}).

(** [Vector<T> v; v.Reserve(cap); v.PushBack(x1); ...; v.PushBack(xn);] *)
Definition filled {T} (E : Element T) (L : Library) (cap : nat) (l : list T)
  : prog (Machine T) () :=
  Vector_default_ctor 0;;
  Reserve 0 cap;;
  foldr (λ x rest, PushBack 0 x;; rest) (mret ()) l.

(** [... auto it = v.Insert(v.end(), x);] on a vector filled as above. *)
Definition insert_at_end {T} (E : Element T) (L : Library) (cap : nat)
  (l : list T) (x : T) : prog (Machine T) ptr :=
  filled E L cap l;;
  e ← end_ 0;
  Insert 0 e x.

(** [... v.Erase(v.Insert(v.end(), x));] *)
Definition insert_at_end_erase {T} (E : Element T) (L : Library) (cap : nat)
  (l : list T) (x : T) : prog (Machine T) ptr :=
  it ← insert_at_end E L cap l x;
  Erase 0 it.

(** [{ Vector<T> v; ...; v.Insert(v.begin() + p, x); }]: the vector is
    filled, one element is inserted, and the vector goes out of scope. *)
Definition insert_and_destroy {T} (E : Element T) (L : Library) (cap : nat)
  (l : list T) (p : nat) (x : T) : prog (Machine T) () :=
  filled E L cap l;;
  b ← begin_ 0;
  Insert 0 (b +ₚ p) x;;
  Vector_dtor 0.

(** Two states with the same [Vector] objects and the same free store; they
    may differ in what is left of the oracle. *)
Definition same_state {T} (s s' : Machine T) : Prop :=
  vectors s' = vectors s ∧ heap (mem s') = heap (mem s).

(** ** Reading through a reference or an iterator *)

Section Reading.
Context {T : Type}.

(** [*p], for an iterator or a reference [p]. *)
Definition deref (p : ptr) : prog (Machine T) T := lift (load p).

(** [v[index]] used as a value. *)
Definition read_index (this i : nat) : prog (Machine T) T :=
  p ← Vector_index this i; deref p.

End Reading.

(** * Proofs *)

(** ** Arithmetic on [size_t] *)

Lemma to_size_t_exact n : is_size_t n → to_size_t (Z.of_nat n) = n.
Proof.
  unfold is_size_t, to_size_t. intros Hn. rewrite Z.mod_small by lia. lia.
Qed.

Lemma to_size_t_le z : (0 ≤ z)%Z → to_size_t z ≤ Z.to_nat z.
Proof.
  unfold to_size_t. intros Hz.
  pose proof (Z.mod_le z SIZE_RANGE Hz ltac:(done)).
  pose proof (Z.mod_pos_bound z SIZE_RANGE ltac:(done)). lia.
Qed.

Lemma to_size_t_is_size_t z : is_size_t (to_size_t z).
Proof.
  unfold to_size_t, is_size_t.
  pose proof (Z.mod_pos_bound z SIZE_RANGE ltac:(done)). lia.
Qed.

Lemma is_size_t_le n m : n ≤ m → is_size_t m → is_size_t n.
Proof. unfold is_size_t. lia. Qed.

Lemma size_add_exact a b : is_size_t (a + b) → size_add a b = a + b.
Proof.
  intros Hf. unfold size_add. rewrite <-Nat2Z.inj_add. by apply to_size_t_exact.
Qed.

Lemma size_mul_exact a b : is_size_t (a * b) → size_mul a b = a * b.
Proof.
  intros Hf. unfold size_mul. rewrite <-Nat2Z.inj_mul. by apply to_size_t_exact.
Qed.

Lemma size_sub_exact a b : b ≤ a → is_size_t a → size_sub a b = a - b.
Proof.
  intros Hle Hf. unfold size_sub. rewrite <-Nat2Z.inj_sub by done.
  apply to_size_t_exact. eapply is_size_t_le; [|done]. lia.
Qed.

Lemma size_add_le a b : size_add a b ≤ a + b.
Proof.
  unfold size_add. etrans; [apply to_size_t_le; lia|]. lia.
Qed.

Lemma size_mul_le a b : size_mul a b ≤ a * b.
Proof.
  unfold size_mul. etrans; [apply to_size_t_le; lia|]. lia.
Qed.

Lemma size_sub_le a b : b ≤ a → size_sub a b ≤ a - b.
Proof.
  intros Hle. unfold size_sub. etrans; [apply to_size_t_le; lia|]. lia.
Qed.

(** Side conditions: a number below a [size_t] is a [size_t]. *)
Ltac size_t_solve :=
  match goal with
  | H : is_size_t ?m |- is_size_t ?n =>
      apply (is_size_t_le n m); [simpl in *; lia|exact H]
  end.

Section Sizes.
Context {T : Type} `{Element T}.

(** The bytes of [n] objects, when their number is a [size_t], and the
    objects that fit in them. *)
Lemma is_size_t_count n : is_size_t (n * sizeof_T) → is_size_t n.
Proof.
  apply is_size_t_le. pose proof sizeof_T_pos. nia.
Qed.

Lemma bytes_exact n :
  is_size_t (n * sizeof_T) → size_mul n sizeof_T / sizeof_T = n.
Proof.
  intros Hf. rewrite size_mul_exact by done.
  apply Nat.div_mul. pose proof sizeof_T_pos. lia.
Qed.

Lemma bytes_le n : size_mul n sizeof_T / sizeof_T ≤ n.
Proof.
  pose proof sizeof_T_pos.
  etrans; [apply Nat.Div0.div_le_mono, size_mul_le|].
  by rewrite Nat.div_mul by lia.
Qed.

Lemma one_object : sizeof_T / sizeof_T = 1.
Proof. apply Nat.div_same. pose proof sizeof_T_pos. lia. Qed.

Lemma is_size_t_one : is_size_t (1 * sizeof_T).
Proof. rewrite Nat.mul_1_l. apply sizeof_T_size_t. Qed.

End Sizes.

(** ** The monad *)

Lemma bind_Done {S A B} (m : prog S A) (f : A → prog S B) s a s' :
  m s = Done a s' → (m ≫= f) s = f a s'.
Proof. unfold mbind, prog_bind. by intros ->. Qed.

Lemma bind_Thrown {S A B} (m : prog S A) (f : A → prog S B) s s' :
  m s = Thrown s' → (m ≫= f) s = Thrown s'.
Proof. unfold mbind, prog_bind. by intros ->. Qed.

Lemma bind_Undefined {S A B} (m : prog S A) (f : A → prog S B) s :
  m s = Undefined → (m ≫= f) s = Undefined.
Proof. unfold mbind, prog_bind. by intros ->. Qed.

Lemma ensures_mono {S A} (Q Q' : A → S → Prop) (E E' : S → Prop) (U U' : Prop) r :
  ensures Q E U r →
  (∀ a s, Q a s → Q' a s) → (∀ s, E s → E' s) → (U → U') →
  ensures Q' E' U' r.
Proof. destruct r; simpl; auto. Qed.

Lemma ensures_bind {S A B} (m : prog S A) (f : A → prog S B) Q E U s :
  ensures (λ a s', ensures Q E U (f a s')) E U (m s) →
  ensures Q E U ((m ≫= f) s).
Proof. unfold mbind, prog_bind. by destruct (m s). Qed.

Lemma ensures_unwind {S A} (body : prog S A) cleanup Q E U s :
  ensures Q (λ s', ensures (λ _ s'', E s'') (λ _, U) U (cleanup s')) U (body s) →
  ensures Q E U (unwind body cleanup s).
Proof.
  unfold unwind. destruct (body s) as [a s'|s'|]; simpl; [done| |done].
  by destruct (cleanup s').
Qed.

Lemma calm_suffix o o' : o' `suffix_of` o → calm o → calm o'.
Proof. intros [k ->] Hc. by apply Forall_app in Hc as [_ ?]. Qed.

Section runs.
Context {S : Type} `{HasOracle S}.

Lemma runs_ret {A} (a : A) (s : S) Q E : Q a s → runs s Q E ((mret a : prog S A) s).
Proof. by split. Qed.

Lemma runs_mono {A} (s : S) (Q Q' : A → S → Prop) E E' r :
  runs s Q E r →
  (∀ a s', Q a s' → Q' a s') → (∀ s', E s' → E' s') →
  runs s Q' E' r.
Proof.
  intros Hr HQ HE. eapply ensures_mono; [exact Hr|..]; simpl.
  - intros a s' [? ?]. auto.
  - intros s' (? & ? & ?). auto.
  - done.
Qed.

Lemma runs_bind {A B} (m : prog S A) (f : A → prog S B) s Q E :
  runs s (λ a s', runs s' Q E (f a s')) E (m s) →
  runs s Q E ((m ≫= f) s).
Proof.
  unfold runs, mbind, prog_bind.
  destruct (m s) as [a s1|s1|]; simpl; [|done..].
  intros [Hf Hs]. destruct (f a s1) as [b s2|s2|]; simpl in *; [| |done].
  - destruct Hf. split; [done|]. by etrans.
  - destruct Hf as (? & ? & Hc). split_and!; [done|by etrans|].
    intros Hc'. apply Hc. by eapply calm_suffix.
Qed.

(** Sequencing with the specification of the first part at hand. *)
Lemma runs_seq {A B} (m : prog S A) (f : A → prog S B) s Q1 E1 Q E :
  runs s Q1 E1 (m s) →
  (∀ s', E1 s' → E s') →
  (∀ a s', Q1 a s' → runs s' Q E (f a s')) →
  runs s Q E ((m ≫= f) s).
Proof.
  intros Hm HE Hf. apply runs_bind. eapply runs_mono; [exact Hm|..]; auto.
Qed.

Lemma runs_unwind {A} (body : prog S A) cleanup s Q E :
  runs s Q (λ s', runs s' (λ _ s'', E s'') (λ _, False) (cleanup s')) (body s) →
  runs s Q E (unwind body cleanup s).
Proof.
  unfold runs, unwind.
  destruct (body s) as [a s1|s1|]; simpl; [done| |done].
  intros (Hc & Hs & Hn). destruct (cleanup s1) as [[] s2|s2|]; simpl in *.
  - destruct Hc. split_and!; [done|by etrans|done].
  - by destruct Hc.
  - done.
Qed.

Lemma runs_undefined_False {A} (s : S) (Q : A → S → Prop) E :
  runs s Q E Undefined → False.
Proof. done. Qed.

Lemma runs_assert (b : bool) (s : S) Q E :
  b = true → Q () s → runs s Q E (assert_ b s).
Proof. intros -> ?. by apply runs_ret. Qed.

Lemma runs_Done {A} (s : S) (Q : A → S → Prop) E r a s' :
  runs s Q E r → r = Done a s' → Q a s'.
Proof. intros Hr ->. by destruct Hr. Qed.

Lemma runs_Thrown {A} (s : S) (Q : A → S → Prop) E r s' :
  runs s Q E r → r = Thrown s' → E s'.
Proof. intros Hr ->. by destruct Hr. Qed.

Lemma runs_calm {A} (s : S) (Q : A → S → Prop) E r :
  runs s Q E r → calm (oracle_of s) → ∃ a s', r = Done a s' ∧ Q a s'.
Proof.
  destruct r as [a s'|s'|]; simpl.
  - intros [? _] _. eauto.
  - intros (_ & _ & Hn) Hc. by destruct Hn.
  - done.
Qed.

End runs.

Lemma runs_lift {T A} (c : prog (Mem T) A) (s : Machine T) Q E :
  runs (mem s) (λ a m, Q a (MkMachine m (vectors s)))
               (λ m, E (MkMachine m (vectors s))) (c (mem s)) →
  runs s Q E (lift c s).
Proof. unfold runs, lift. by destruct (c (mem s)). Qed.

Lemma ensures_lift {T A} (c : prog (Mem T) A) (s : Machine T) Q E U :
  ensures (λ a m, Q a (MkMachine m (vectors s)))
          (λ m, E (MkMachine m (vectors s))) U (c (mem s)) →
  ensures Q E U (lift c s).
Proof. unfold lift. by destruct (c (mem s)). Qed.

Lemma insert_middle {A} (l1 l2 : list A) x y :
  <[length l1 := y]> (l1 ++ x :: l2) = l1 ++ y :: l2.
Proof. by rewrite <-(Nat.add_0_r (length l1)), insert_app_r. Qed.

Lemma middle_length_lt {A} (l1 l2 : list A) x :
  length l1 < length (l1 ++ x :: l2).
Proof. rewrite length_app. simpl. lia. Qed.

Section Memory_proofs.
Context {T : Type} `{Element T} `{Library}.
Implicit Types (m : Mem T) (blk pre post : list (option T)) (vals : list T).

Lemma load_eq m a blk i v :
  heap m !! a = Some blk → blk !! i = Some (Some v) →
  load (Ptr (Some a) i) m = Done v m.
Proof. unfold load. simpl. by intros -> ->. Qed.

Lemma store_eq m a blk i c :
  heap m !! a = Some blk → i < length blk →
  store (Ptr (Some a) i) c m
  = Done () (MkMem (<[a := <[i := c]> blk]> (heap m)) (oracle m)).
Proof. unfold store. simpl. intros -> ?. by rewrite decide_True. Qed.

Lemma runs_tick m :
  runs m (λ _ m', heap m' = heap m) (λ m', heap m' = heap m) (tick m).
Proof.
  unfold runs, tick, oracle_of, Mem_oracle.
  destruct (oracle m) as [|[] o] eqn:Ho; simpl.
  - by rewrite Ho.
  - split; [done|]. by apply suffix_cons_r.
  - split_and!; [done|by apply suffix_cons_r|].
    intros Hc. by apply Forall_cons in Hc as [? _].
Qed.

(** A move that throws only when the type's trait allows it. *)
Lemma runs_tick_unless (b : bool) m :
  runs m (λ _ m', heap m' = heap m) (λ m', heap m' = heap m ∧ b = false)
       ((if b then mret () else tick) m).
Proof.
  destruct b.
  - by apply runs_ret.
  - eapply runs_mono; [apply runs_tick|..]; naive_solver.
Qed.

Lemma runs_load m a blk i v Q E :
  heap m !! a = Some blk → blk !! i = Some (Some v) →
  Q v m → runs m Q E (load (Ptr (Some a) i) m).
Proof. intros Ha Hi HQ. rewrite (load_eq _ _ _ _ _ Ha Hi). by split. Qed.

Lemma runs_store m a blk i c :
  heap m !! a = Some blk → i < length blk →
  runs m (λ _ m', heap m' = <[a := <[i := c]> blk]> (heap m)) (λ _, False)
       (store (Ptr (Some a) i) c m).
Proof. intros Ha Hi. rewrite (store_eq _ _ _ _ _ Ha Hi). by split. Qed.

Lemma runs_construct_at m a blk i x :
  heap m !! a = Some blk → i < length blk →
  runs m (λ _ m', heap m' = <[a := <[i := Some x]> blk]> (heap m))
         (λ m', heap m' = heap m)
         (construct_at (Ptr (Some a) i) x m).
Proof.
  intros Ha Hi. unfold construct_at.
  eapply runs_seq; [apply runs_tick|done|]. intros [] m1 Hm1.
  eapply runs_mono; [eapply runs_store; [by rewrite Hm1|done]|..]; simpl.
  - intros _ m' ->. by rewrite Hm1.
  - done.
Qed.

Lemma runs_destroy_at m a blk i v :
  heap m !! a = Some blk → blk !! i = Some (Some v) →
  runs m (λ _ m', heap m' = <[a := <[i := None]> blk]> (heap m)) (λ _, False)
       (destroy_at (Ptr (Some a) i) m).
Proof.
  intros Ha Hi. unfold destroy_at. apply runs_bind.
  eapply runs_load; [done..|].
  apply runs_store; [done|]. by eapply lookup_lt_Some.
Qed.

Lemma runs_destroy_n_aux vals : ∀ m a pre post i,
  i = length pre →
  heap m !! a = Some (pre ++ (Some <$> vals) ++ post) →
  runs m (λ _ m', heap m'
                  = <[a := pre ++ replicate (length vals) None ++ post]> (heap m))
       (λ _, False)
       (destroy_n (Ptr (Some a) i) (length vals) m).
Proof.
  induction vals as [|v vals IH]; intros m a pre post i -> Ha; simpl in *.
  - split; [|done]. symmetry. by apply insert_id.
  - eapply runs_seq; [eapply runs_destroy_at; [done|]|done|].
    { apply list_lookup_middle. done. }
    intros [] m1 Hm1. rewrite insert_middle in Hm1.
    eapply runs_mono; [apply (IH m1 a (pre ++ [None]) post)|..]; simpl.
    + rewrite length_app. simpl. lia.
    + rewrite Hm1, lookup_insert_eq. by rewrite <-app_assoc.
    + intros _ m' ->. rewrite Hm1, insert_insert_eq. by rewrite <-app_assoc.
    + done.
Qed.

Lemma runs_uninitialized_value_construct_n n : ∀ m a pre post i,
  i = length pre →
  heap m !! a = Some (pre ++ replicate n None ++ post) →
  runs m (λ _ m', heap m'
                  = <[a := pre ++ replicate n (Some dflt) ++ post]> (heap m))
       (λ m', heap m' = heap m)
       (uninitialized_value_construct_n (Ptr (Some a) i) n m).
Proof.
  induction n as [|n IH]; intros m a pre post i -> Ha; simpl in *.
  - split; [|done]. symmetry. by apply insert_id.
  - unfold value_construct_at.
    eapply runs_seq;
      [eapply runs_construct_at; [done|apply middle_length_lt]|done|].
    intros [] m1 Hm1. rewrite insert_middle in Hm1.
    apply runs_unwind.
    eapply runs_mono; [apply (IH m1 a (pre ++ [Some dflt]) post)|..]; simpl.
    + rewrite length_app. simpl. lia.
    + rewrite Hm1, lookup_insert_eq. by rewrite <-app_assoc.
    + intros _ m' ->. rewrite Hm1, insert_insert_eq. by rewrite <-app_assoc.
    + intros m' Hm'.
      eapply runs_mono; [eapply runs_destroy_at|..]; simpl.
      * by rewrite Hm', Hm1, lookup_insert_eq.
      * by apply list_lookup_middle.
      * intros _ m'' ->.
        rewrite Hm', Hm1, insert_insert_eq, insert_middle. by apply insert_id.
      * done.
Qed.

Lemma runs_copy_construct_at m a blk i sa sblk j v :
  heap m !! a = Some blk → i < length blk →
  heap m !! sa = Some sblk → sblk !! j = Some (Some v) →
  runs m (λ _ m', heap m' = <[a := <[i := Some v]> blk]> (heap m))
         (λ m', heap m' = heap m)
         (copy_construct_at (Ptr (Some a) i) (Ptr (Some sa) j) m).
Proof.
  intros Ha Hi Hsa Hj. unfold copy_construct_at. apply runs_bind.
  eapply runs_load; [done..|]. by apply runs_construct_at.
Qed.

Lemma runs_uninitialized_copy_n_aux vals : ∀ m sa da spre spost dpre dpost i j,
  sa ≠ da → i = length spre → j = length dpre →
  heap m !! sa = Some (spre ++ (Some <$> vals) ++ spost) →
  heap m !! da = Some (dpre ++ replicate (length vals) None ++ dpost) →
  runs m (λ _ m', heap m' = <[da := dpre ++ (Some <$> vals) ++ dpost]> (heap m))
       (λ m', heap m' = heap m)
       (uninitialized_copy_n (Ptr (Some sa) i) (length vals) (Ptr (Some da) j) m).
Proof.
  induction vals as [|v vals IH];
    intros m sa da spre spost dpre dpost i j Hne -> -> Hs Hd; simpl in *.
  - split; [|done]. symmetry. by apply insert_id.
  - eapply runs_seq; [eapply runs_copy_construct_at; [done| |done|]|done|].
    { apply middle_length_lt. }
    { by apply list_lookup_middle. }
    intros [] m1 Hm1. rewrite insert_middle in Hm1.
    apply runs_unwind.
    eapply runs_mono;
      [apply (IH m1 sa da (spre ++ [Some v]) spost (dpre ++ [Some v]) dpost)|..];
      simpl.
    + done.
    + rewrite length_app. simpl. lia.
    + rewrite length_app. simpl. lia.
    + rewrite Hm1, lookup_insert_ne by done. by rewrite <-app_assoc.
    + rewrite Hm1, lookup_insert_eq. by rewrite <-app_assoc.
    + intros _ m' ->. rewrite Hm1, insert_insert_eq. by rewrite <-app_assoc.
    + intros m' Hm'.
      eapply runs_mono; [eapply runs_destroy_at|..]; simpl.
      * by rewrite Hm', Hm1, lookup_insert_eq.
      * by apply list_lookup_middle.
      * intros _ m'' ->.
        rewrite Hm', Hm1, insert_insert_eq, insert_middle. by apply insert_id.
      * done.
Qed.

Lemma runs_destroy_n vals m a pre post i n :
  i = length pre → n = length vals →
  heap m !! a = Some (pre ++ (Some <$> vals) ++ post) →
  runs m (λ _ m', heap m' = <[a := pre ++ replicate n None ++ post]> (heap m))
       (λ _, False)
       (destroy_n (Ptr (Some a) i) n m).
Proof. intros -> ->. by apply runs_destroy_n_aux. Qed.

Lemma runs_uninitialized_copy_n vals m sa da spre spost dpre dpost i j n :
  sa ≠ da → i = length spre → j = length dpre → n = length vals →
  heap m !! sa = Some (spre ++ (Some <$> vals) ++ spost) →
  heap m !! da = Some (dpre ++ replicate n None ++ dpost) →
  runs m (λ _ m', heap m' = <[da := dpre ++ (Some <$> vals) ++ dpost]> (heap m))
       (λ m', heap m' = heap m)
       (uninitialized_copy_n (Ptr (Some sa) i) n (Ptr (Some da) j) m).
Proof. intros ? -> -> ->. by apply runs_uninitialized_copy_n_aux. Qed.

End Memory_proofs.

(** Equality of heaps built from insertions and deletions, key by key. *)
Ltac heap_eq :=
  apply map_eq; intros ?k;
  repeat (rewrite ?lookup_insert, ?lookup_delete; case_decide; simplify_eq);
  try done.

Section Move_proofs.
Context {T : Type} `{Element T} `{Library}.
Implicit Types (m : Mem T) (blk pre post : list (option T)) (vals : list T).

Lemma runs_move_construct_at m a blk i sa sblk j v sblk1 :
  heap m !! a = Some blk → i < length blk →
  heap m !! sa = Some sblk → sblk !! j = Some (Some v) →
  <[a := <[i := Some v]> blk]> (heap m) !! sa = Some sblk1 →
  j < length sblk1 →
  runs m (λ _ m', heap m' = <[sa := <[j := Some (residue v)]> sblk1]>
                              (<[a := <[i := Some v]> blk]> (heap m)))
         (λ m', heap m' = heap m ∧ nothrow_move_constructible = false)
         (move_construct_at (Ptr (Some a) i) (Ptr (Some sa) j) m).
Proof.
  intros Ha Hi Hsa Hj Hs1 Hj1. unfold move_construct_at, move_construct_from.
  apply runs_bind. eapply runs_load; [done..|].
  apply runs_bind. apply runs_bind.
  eapply runs_mono; [apply runs_tick_unless|..]; simpl; [|done].
  intros [] m1 Hm1.
  eapply runs_mono; [eapply runs_store; [by rewrite Hm1|done]|..]; simpl;
    [|done].
  intros [] m2 Hm2. rewrite Hm1 in Hm2.
  eapply runs_mono; [eapply runs_store; [by rewrite Hm2|done]|..]; simpl;
    [|done].
  intros [] m3 ->. by rewrite Hm2.
Qed.

Lemma runs_move_assign_at m a blk i old sa sblk j v sblk1 :
  heap m !! a = Some blk → blk !! i = Some (Some old) →
  heap m !! sa = Some sblk → sblk !! j = Some (Some v) →
  <[a := <[i := Some v]> blk]> (heap m) !! sa = Some sblk1 →
  j < length sblk1 →
  runs m (λ _ m', heap m' = <[sa := <[j := Some (residue v)]> sblk1]>
                              (<[a := <[i := Some v]> blk]> (heap m)))
         (λ m', heap m' = heap m ∧ nothrow_move_assignable = false)
         (move_assign_at (Ptr (Some a) i) (Ptr (Some sa) j) m).
Proof.
  intros Ha Hi Hsa Hj Hs1 Hj1. unfold move_assign_at.
  apply runs_bind. eapply runs_load; [done..|].
  apply runs_bind. eapply runs_load; [done..|].
  apply runs_bind.
  eapply runs_mono; [apply runs_tick_unless|..]; simpl; [|done].
  intros [] m1 Hm1. apply runs_bind.
  eapply runs_mono;
    [eapply runs_store; [by rewrite Hm1|by eapply lookup_lt_Some]|..]; simpl;
    [|done].
  intros [] m2 Hm2. rewrite Hm1 in Hm2.
  eapply runs_mono; [eapply runs_store; [by rewrite Hm2|done]|..]; simpl;
    [|done].
  intros [] m3 ->. by rewrite Hm2.
Qed.

Lemma runs_copy_assign_at m a blk i old sa sblk j v :
  heap m !! a = Some blk → blk !! i = Some (Some old) →
  heap m !! sa = Some sblk → sblk !! j = Some (Some v) →
  runs m (λ _ m', heap m' = <[a := <[i := Some v]> blk]> (heap m))
         (λ m', heap m' = heap m)
         (copy_assign_at (Ptr (Some a) i) (Ptr (Some sa) j) m).
Proof.
  intros Ha Hi Hsa Hj. unfold copy_assign_at.
  apply runs_bind. eapply runs_load; [done..|].
  apply runs_bind. eapply runs_load; [done..|].
  eapply runs_seq; [apply runs_tick|done|]. intros [] m1 Hm1.
  eapply runs_mono;
    [eapply runs_store; [by rewrite Hm1|by eapply lookup_lt_Some]|..]; simpl;
    [|done].
  intros [] m2 ->. by rewrite Hm1.
Qed.

Lemma runs_uninitialized_move_n_aux vals : ∀ m sa da spre spost dpre dpost i j,
  sa ≠ da → i = length spre → j = length dpre →
  heap m !! sa = Some (spre ++ (Some <$> vals) ++ spost) →
  heap m !! da = Some (dpre ++ replicate (length vals) None ++ dpost) →
  runs m (λ _ m', heap m'
                  = <[da := dpre ++ (Some <$> vals) ++ dpost]>
                      (<[sa := spre ++ (Some <$> (residue <$> vals)) ++ spost]>
                         (heap m)))
       (λ m', nothrow_move_constructible = false
              ∧ ∃ sblk, heap m' = <[sa := sblk]> (heap m))
       (uninitialized_move_n (Ptr (Some sa) i) (length vals) (Ptr (Some da) j) m).
Proof.
  induction vals as [|v vals IH];
    intros m sa da spre spost dpre dpost i j Hne -> -> Hs Hd; simpl in *.
  - split; [|done]. rewrite !insert_id; [done..|]. by rewrite insert_id.
  - eapply runs_seq;
      [eapply runs_move_construct_at; [done| |done| | |]| |].
    { apply middle_length_lt. }
    { by apply list_lookup_middle. }
    { by rewrite lookup_insert_ne. }
    { apply middle_length_lt. }
    { simpl. intros m' [-> ?]. split; [done|]. eexists. symmetry.
      by apply insert_id. }
    intros [] m1 Hm1. rewrite !insert_middle in Hm1.
    apply runs_unwind.
    eapply runs_mono;
      [apply (IH m1 sa da (spre ++ [Some (residue v)]) spost
                 (dpre ++ [Some v]) dpost)|..];
      simpl.
    + done.
    + rewrite length_app. simpl. lia.
    + rewrite length_app. simpl. lia.
    + rewrite Hm1, lookup_insert_eq. by rewrite <-app_assoc.
    + rewrite Hm1, lookup_insert_ne, lookup_insert_eq by done.
      by rewrite <-app_assoc.
    + intros _ m' ->. rewrite Hm1, <-!app_assoc. simpl. heap_eq.
    + intros m' [Hnt [sblk Hm']].
      eapply runs_mono; [eapply runs_destroy_at|..]; simpl.
      * rewrite Hm', Hm1, lookup_insert_ne, lookup_insert_ne, lookup_insert_eq
          by done. done.
      * by apply list_lookup_middle.
      * intros _ m'' ->. split; [done|]. exists sblk.
        rewrite Hm', Hm1, insert_middle. heap_eq.
      * done.
Qed.

Lemma runs_uninitialized_move_n vals m sa da spre spost dpre dpost i j n :
  sa ≠ da → i = length spre → j = length dpre → n = length vals →
  heap m !! sa = Some (spre ++ (Some <$> vals) ++ spost) →
  heap m !! da = Some (dpre ++ replicate n None ++ dpost) →
  runs m (λ _ m', heap m'
                  = <[da := dpre ++ (Some <$> vals) ++ dpost]>
                      (<[sa := spre ++ (Some <$> (residue <$> vals)) ++ spost]>
                         (heap m)))
       (λ m', nothrow_move_constructible = false
              ∧ ∃ sblk, heap m' = <[sa := sblk]> (heap m))
       (uninitialized_move_n (Ptr (Some sa) i) n (Ptr (Some da) j) m).
Proof. intros ? -> -> ->. by apply runs_uninitialized_move_n_aux. Qed.

End Move_proofs.

Lemma lookup_middle_S {A} (l1 l2 : list A) x y :
  (l1 ++ x :: y :: l2) !! (length l1 + 1) = Some y.
Proof.
  rewrite (cons_middle x), app_assoc.
  replace (length l1 + 1) with (length (l1 ++ [x]))
    by (rewrite length_app; simpl; lia).
  by apply list_lookup_middle.
Qed.

Lemma insert_middle_S {A} (l1 l2 : list A) x y z :
  <[length l1 + 1 := z]> (l1 ++ x :: y :: l2) = l1 ++ x :: z :: l2.
Proof.
  rewrite (cons_middle x), app_assoc.
  replace (length l1 + 1) with (length (l1 ++ [x]))
    by (rewrite length_app; simpl; lia).
  rewrite insert_middle. by rewrite <-app_assoc.
Qed.

Section Algorithm_proofs.
Context {T : Type} `{Element T} `{Library}.
Implicit Types (m : Mem T) (blk pre post : list (option T)) (vals : list T).

Lemma vacated_back_cons (x v : T) vals :
  vacated_back x (v :: vals) = vacated_back (residue v) vals.
Proof.
  unfold vacated_back. destruct vals as [|w vals]; [done|].
  rewrite last_cons_cons. destruct (last (w :: vals)) eqn:Hl; [done|].
  by apply last_None in Hl.
Qed.

Lemma vacated_front_snoc (y w : T) vals :
  vacated_front y (vals ++ [w]) = vacated_front (residue w) vals.
Proof. by destruct vals. Qed.

Lemma left_behind_length vals : length (left_behind vals) = length vals.
Proof. unfold left_behind. destruct relocation_moves; by rewrite ?length_fmap. Qed.

Lemma runs_copy_n_assign_aux vals : ∀ m sa da spre spost dpre olds dpost i j,
  sa ≠ da → i = length spre → j = length dpre → length olds = length vals →
  heap m !! sa = Some (spre ++ (Some <$> vals) ++ spost) →
  heap m !! da = Some (dpre ++ (Some <$> olds) ++ dpost) →
  runs m (λ _ m', heap m' = <[da := dpre ++ (Some <$> vals) ++ dpost]> (heap m))
       (λ m', ∃ ws, length ws = length vals
                    ∧ heap m' = <[da := dpre ++ (Some <$> ws) ++ dpost]> (heap m))
       (copy_n_assign (Ptr (Some sa) i) (length vals) (Ptr (Some da) j) m).
Proof.
  induction vals as [|v vals IH];
    intros m sa da spre spost dpre olds dpost i j Hne -> -> Hlen Hs Hd;
    destruct olds as [|old olds]; simplify_eq/=.
  - split; [|done]. symmetry. by apply insert_id.
  - eapply runs_seq;
      [eapply runs_copy_assign_at; [done| |done|]| |].
    { by apply list_lookup_middle. }
    { by apply list_lookup_middle. }
    { simpl. intros m' ->. exists (old :: olds). split; [simpl; lia|].
      symmetry. by apply insert_id. }
    intros [] m1 Hm1. rewrite insert_middle in Hm1.
    eapply runs_mono;
      [apply (IH m1 sa da (spre ++ [Some v]) spost (dpre ++ [Some v]) olds dpost)|..];
      simpl.
    + done.
    + rewrite length_app. simpl. lia.
    + rewrite length_app. simpl. lia.
    + done.
    + rewrite Hm1, lookup_insert_ne by done. by rewrite <-app_assoc.
    + rewrite Hm1, lookup_insert_eq. by rewrite <-app_assoc.
    + intros _ m' ->. rewrite Hm1, insert_insert_eq. by rewrite <-app_assoc.
    + intros m' (ws & Hws & ->). exists (v :: ws). split; [simpl; lia|].
      rewrite Hm1, insert_insert_eq. by rewrite <-app_assoc.
Qed.

Lemma runs_move_n_assign_left_aux vals : ∀ m a pre x post i,
  i = length pre →
  heap m !! a = Some (pre ++ Some x :: (Some <$> vals) ++ post) →
  runs m (λ _ m', heap m'
            = <[a := pre ++ (Some <$> vals) ++ Some (vacated_back x vals) :: post]>
                (heap m))
       (λ m', nothrow_move_assignable = false
              ∧ ∃ ws, length ws = S (length vals)
                      ∧ heap m' = <[a := pre ++ (Some <$> ws) ++ post]> (heap m))
       (move_n_assign (Ptr (Some a) (i + 1)) (length vals) (Ptr (Some a) i) m).
Proof.
  induction vals as [|v vals IH]; intros m a pre x post i -> Ha; simpl in *.
  - split; [|done]. symmetry. by apply insert_id.
  - eapply runs_seq;
      [eapply runs_move_assign_at; [done| |done| | |]| |].
    { by apply list_lookup_middle. }
    { apply lookup_middle_S. }
    { rewrite lookup_insert_eq, insert_middle. done. }
    { rewrite length_app. simpl. lia. }
    { simpl. intros m' [-> ?]. split; [done|]. exists (x :: v :: vals).
      split; [done|]. symmetry. by apply insert_id. }
    intros [] m1 Hm1. rewrite insert_insert_eq, insert_middle_S in Hm1.
    eapply runs_mono;
      [apply (IH m1 a (pre ++ [Some v]) (residue v) post)|..]; simpl.
    + rewrite length_app. simpl. lia.
    + rewrite Hm1, lookup_insert_eq. by rewrite <-app_assoc.
    + intros _ m' ->. rewrite Hm1, insert_insert_eq, vacated_back_cons.
      by rewrite <-app_assoc.
    + intros m' (Hnt & ws & Hws & ->). split; [done|]. exists (v :: ws).
      split; [simpl; lia|]. rewrite Hm1, insert_insert_eq.
      by rewrite <-app_assoc.
Qed.

Lemma runs_move_n_assign_right_aux vals : ∀ m a pre y post i,
  i = length pre →
  heap m !! a = Some (pre ++ (Some <$> vals) ++ Some y :: post) →
  runs m (λ _ m', heap m'
            = <[a := pre ++ Some (vacated_front y vals) :: (Some <$> vals) ++ post]>
                (heap m))
       (λ m', nothrow_move_assignable = false
              ∧ ∃ ws, length ws = S (length vals)
                      ∧ heap m' = <[a := pre ++ (Some <$> ws) ++ post]> (heap m))
       (move_n_assign_backward (Ptr (Some a) i) (length vals)
                               (Ptr (Some a) (i + 1)) m).
Proof.
  induction vals as [|w vals IH] using rev_ind; intros m a pre y post i -> Ha.
  - simpl in *. split; [|done]. symmetry. by apply insert_id.
  - rewrite length_app, Nat.add_1_r. simpl. unfold ptr_add at 1 2. simpl.
    rewrite fmap_app in Ha. simpl in Ha.
    rewrite <-app_assoc in Ha. simpl in Ha. rewrite app_assoc in Ha.
    set (pre2 := pre ++ (Some <$> vals)) in *.
    assert (length pre + length vals = length pre2) as Hl1
      by (unfold pre2; by rewrite length_app, length_fmap).
    replace (length pre + 1 + length vals) with (length pre2 + 1) by lia.
    rewrite Hl1.
    eapply runs_seq;
      [eapply runs_move_assign_at; [done| |done| | |]| |].
    { apply lookup_middle_S. }
    { by apply list_lookup_middle. }
    { rewrite lookup_insert_eq, insert_middle_S. done. }
    { rewrite length_app. simpl. lia. }
    { simpl. intros m' [-> ?]. split; [done|]. exists (vals ++ [w; y]).
      split; [rewrite length_app; simpl; lia|]. symmetry. apply insert_id.
      rewrite Ha. f_equal. unfold pre2.
      rewrite fmap_app, <-!app_assoc. done. }
    intros [] m1 Hm1.
    rewrite insert_insert_eq, insert_middle in Hm1.
    eapply runs_mono;
      [apply (IH m1 a pre (residue w) (Some w :: post))|..]; simpl.
    + done.
    + rewrite Hm1, lookup_insert_eq. unfold pre2. by rewrite <-app_assoc.
    + intros _ m' ->. rewrite Hm1, insert_insert_eq, vacated_front_snoc.
      rewrite fmap_app, <-app_assoc. done.
    + intros m' (Hnt & ws & Hws & ->). split; [done|]. exists (ws ++ [w]).
      split; [rewrite length_app; simpl; lia|]. rewrite Hm1, insert_insert_eq.
      rewrite fmap_app, <-app_assoc. done.
Qed.

Lemma runs_copy_n_assign vals m sa da spre spost dpre olds dpost i j n :
  sa ≠ da → i = length spre → j = length dpre →
  n = length vals → length olds = n →
  heap m !! sa = Some (spre ++ (Some <$> vals) ++ spost) →
  heap m !! da = Some (dpre ++ (Some <$> olds) ++ dpost) →
  runs m (λ _ m', heap m' = <[da := dpre ++ (Some <$> vals) ++ dpost]> (heap m))
       (λ m', ∃ ws, length ws = n
                    ∧ heap m' = <[da := dpre ++ (Some <$> ws) ++ dpost]> (heap m))
       (copy_n_assign (Ptr (Some sa) i) n (Ptr (Some da) j) m).
Proof. intros ? -> -> -> ?. by eapply runs_copy_n_assign_aux. Qed.

Lemma runs_move_n_assign_left vals m a pre x post i k n :
  i = length pre → k = i + 1 → n = length vals →
  heap m !! a = Some (pre ++ Some x :: (Some <$> vals) ++ post) →
  runs m (λ _ m', heap m'
            = <[a := pre ++ (Some <$> vals) ++ Some (vacated_back x vals) :: post]>
                (heap m))
       (λ m', nothrow_move_assignable = false
              ∧ ∃ ws, length ws = S n
                      ∧ heap m' = <[a := pre ++ (Some <$> ws) ++ post]> (heap m))
       (move_n_assign (Ptr (Some a) k) n (Ptr (Some a) i) m).
Proof. intros -> -> ->. by apply runs_move_n_assign_left_aux. Qed.

Lemma runs_move_n_assign_right vals m a pre y post i k n :
  i = length pre → k = i + 1 → n = length vals →
  heap m !! a = Some (pre ++ (Some <$> vals) ++ Some y :: post) →
  runs m (λ _ m', heap m'
            = <[a := pre ++ Some (vacated_front y vals) :: (Some <$> vals) ++ post]>
                (heap m))
       (λ m', nothrow_move_assignable = false
              ∧ ∃ ws, length ws = S n
                      ∧ heap m' = <[a := pre ++ (Some <$> ws) ++ post]> (heap m))
       (move_n_assign_backward (Ptr (Some a) i) n (Ptr (Some a) k) m).
Proof. intros -> -> ->. by apply runs_move_n_assign_right_aux. Qed.

Lemma runs_range_length m a i k Q E :
  i ≤ k → Q (k - i) m →
  runs m Q E (range_length (Ptr (Some a) i) (Ptr (Some a) k) m).
Proof.
  intros Hik HQ. unfold range_length, ptr_le. simpl.
  rewrite !bool_decide_eq_true_2 by done. by split.
Qed.

Lemma runs_ptr_sub {S} `{HasOracle S} (s : S) b i k Q E :
  k ≤ i → Q (Ptr b (i - k)) s → runs s Q E (ptr_sub (Ptr b i) k s).
Proof. intros Hk HQ. unfold ptr_sub. simpl. rewrite decide_True by done. by split. Qed.

Lemma runs_std_distance {S} `{HasOracle S} (s : S) b i k Q E :
  i ≤ k → Q (k - i) s → runs s Q E (std_distance (Ptr b i) (Ptr b k) s).
Proof.
  intros Hk HQ. unfold std_distance, ptr_le. simpl.
  rewrite !bool_decide_eq_true_2 by done. by split.
Qed.

Lemma runs_operator_new m bytes :
  runs m (λ a m', heap m !! a = None
                  ∧ heap m' = <[a := replicate (bytes / sizeof_T) None]> (heap m))
       (λ m', heap m' = heap m)
       (operator_new bytes m).
Proof.
  unfold operator_new.
  eapply runs_seq; [apply runs_tick|done|]. intros [] m1 Hm1.
  unfold fresh_block. split; [|done]. cbn [heap]. rewrite Hm1. split; [|done].
  apply not_elem_of_dom, is_fresh.
Qed.

Lemma runs_operator_delete m a blk :
  heap m !! a = Some blk →
  runs m (λ _ m', heap m' = delete a (heap m)) (λ _, False)
       (operator_delete (Some a) m).
Proof. intros Ha. unfold operator_delete. rewrite Ha. by split. Qed.

Lemma runs_new_T m x :
  runs m (λ p m', ∃ a, p = Ptr (Some a) 0 ∧ heap m !! a = None
                       ∧ heap m' = <[a := [Some x]]> (heap m))
       (λ m', heap m' = heap m)
       (new_T x m).
Proof.
  unfold new_T.
  eapply runs_seq; [apply runs_operator_new|done|]. intros a m1 [Hfresh Hm1].
  rewrite one_object in Hm1.
  apply runs_bind. apply runs_unwind.
  eapply runs_mono; [eapply (runs_construct_at _ a _ 0)|..]; simpl.
  - by rewrite Hm1, lookup_insert_eq.
  - simpl. lia.
  - intros [] m2 Hm2. split; [|done]. exists a. split_and!; [done..|].
    rewrite Hm2, Hm1. simpl. by rewrite insert_insert_eq.
  - intros m2 Hm2.
    eapply runs_mono; [eapply runs_operator_delete|..]; simpl.
    + by rewrite Hm2, Hm1, lookup_insert_eq.
    + intros _ m3 ->. rewrite Hm2, Hm1, delete_insert_eq. by apply delete_id.
    + done.
Qed.

(** The constructor of [RawMemory], whatever the count: the block it gets
    has room for the objects that fit in the bytes requested. *)
Lemma runs_RawMemory_ctor_slots m n :
  runs m (λ r m', capacity_ r = n
                  ∧ match buffer_ r with
                    | None => n = 0 ∧ heap m' = heap m
                    | Some a =>
                        0 < n ∧ heap m !! a = None
                        ∧ heap m'
                          = <[a := replicate (size_mul n sizeof_T / sizeof_T)
                                             None]> (heap m)
                    end)
       (λ m', heap m' = heap m)
       (RawMemory_ctor n m).
Proof.
  unfold RawMemory_ctor, Allocate. apply runs_bind.
  destruct (decide (n ≠ 0)) as [Hn|Hn].
  - apply runs_bind.
    eapply runs_mono; [apply runs_operator_new|..]; [|done].
    intros a m1 [Hfresh Hm1]. do 2 (split; [|done]).
    split; [done|]. split; [lia|]. by split.
  - do 2 (split; [|done]). split; [done|]. split; [lia|done].
Qed.

(** The same when the bytes of [n] objects are a [size_t]. *)
Lemma runs_RawMemory_ctor m n :
  is_size_t (n * sizeof_T) →
  runs m (λ r m', capacity_ r = n
                  ∧ match buffer_ r with
                    | None => n = 0 ∧ heap m' = heap m
                    | Some a => 0 < n ∧ heap m !! a = None
                                ∧ heap m' = <[a := replicate n None]> (heap m)
                    end)
       (λ m', heap m' = heap m)
       (RawMemory_ctor n m).
Proof.
  intros Hfit. eapply runs_mono; [apply runs_RawMemory_ctor_slots|..]; [|done].
  intros [b c] m'. cbn [capacity_ buffer_]. rewrite bytes_exact by done. done.
Qed.

Lemma runs_RawMemory_dtor m r :
  match buffer_ r with None => True | Some a => is_Some (heap m !! a) end →
  runs m (λ _ m', heap m' = match buffer_ r with
                            | None => heap m
                            | Some a => delete a (heap m)
                            end)
       (λ _, False)
       (RawMemory_dtor r m).
Proof.
  unfold RawMemory_dtor, Deallocate. destruct (buffer_ r) as [a|].
  - intros [blk Hblk]. by eapply runs_operator_delete.
  - intros _. by split.
Qed.

End Algorithm_proofs.

Section Relocation_proofs.
Context {T : Type} `{Element T} `{Library}.
Implicit Types (m : Mem T) (blk pre post : list (option T)) (vals : list T).

Lemma runs_CopyOrMove vals m sa da spre spost dpre dpost i j n :
  sa ≠ da → i = length spre → j = length dpre → n = length vals →
  heap m !! sa = Some (spre ++ (Some <$> vals) ++ spost) →
  heap m !! da = Some (dpre ++ replicate n None ++ dpost) →
  runs m (λ _ m', heap m'
                  = <[da := dpre ++ (Some <$> vals) ++ dpost]>
                      (<[sa := spre ++ (Some <$> left_behind vals) ++ spost]>
                         (heap m)))
       (λ m', (relocation_moves = false ∧ heap m' = heap m)
              ∨ (nothrow_move_constructible = false
                 ∧ copy_constructible = false
                 ∧ ∃ sblk, heap m' = <[sa := sblk]> (heap m)))
       (CopyOrMove (Ptr (Some sa) i) n (Ptr (Some da) j) m).
Proof.
  intros Hne Hi Hj Hn Hs Hd. unfold CopyOrMove, left_behind, relocation_moves.
  destruct (nothrow_move_constructible || negb copy_constructible) eqn:Hc.
  - eapply runs_mono; [by eapply runs_uninitialized_move_n|..]; simpl; [done|].
    intros m' [Hnt ?]. right. rewrite Hnt in Hc. simpl in Hc.
    apply negb_true_iff in Hc. done.
  - eapply runs_mono; [by eapply runs_uninitialized_copy_n|..]; simpl; [|auto].
    intros _ m' ->. by rewrite (insert_id _ sa).
Qed.

Lemma left_behind_copy vals : relocation_moves = false → left_behind vals = vals.
Proof. unfold left_behind. by intros ->. Qed.

(** Relocating one element into the slot after it, as [Emplace] does with the
    last element when there is spare capacity. *)
Lemma runs_CopyOrMove_next m a pre v post i k :
  i = length pre → k = i + 1 →
  heap m !! a = Some (pre ++ Some v :: None :: post) →
  runs m (λ _ m', ∃ y, heap m' = <[a := pre ++ Some y :: Some v :: post]> (heap m))
       (λ m', heap m' = heap m)
       (CopyOrMove (Ptr (Some a) i) 1 (Ptr (Some a) k) m).
Proof.
  intros -> -> Ha. unfold CopyOrMove.
  destruct (nothrow_move_constructible || negb copy_constructible); simpl.
  - eapply runs_seq; [eapply runs_move_construct_at; [done| |done| | |]| |].
    { rewrite length_app. simpl. lia. }
    { by apply list_lookup_middle. }
    { by rewrite lookup_insert_eq. }
    { rewrite length_insert, length_app. simpl. lia. }
    { by intros m' [-> _]. }
    intros [] m1 Hm1. rewrite insert_insert_eq, insert_middle_S, insert_middle in Hm1.
    split; [|done]. eauto.
  - eapply runs_seq; [eapply runs_copy_construct_at; [done| |done|]|done|].
    { rewrite length_app. simpl. lia. }
    { by apply list_lookup_middle. }
    intros [] m1 Hm1. rewrite insert_middle_S in Hm1. split; [|done]. eauto.
Qed.

Lemma runs_CopyOrMove_0 (p q : ptr) m :
  runs m (λ _ m', m' = m) (λ _, False) (CopyOrMove p 0 q m).
Proof. unfold CopyOrMove. by destruct (_ || _). Qed.

Lemma runs_destroy_n_0 (p : ptr) m :
  runs m (λ _ m', m' = m) (λ _, False) (destroy_n p 0 m).
Proof. done. Qed.

End Relocation_proofs.

(** ** Stepping through code on the machine *)

Section Machine_steps.
Context {T : Type} `{Element T} `{Library}.
Implicit Types (s : Machine T).

Lemma runs_get_vec {B} this v (f : Vector → prog (Machine T) B) s Q E :
  vectors s !! this = Some v →
  runs s Q E (f v s) →
  runs s Q E ((get_vec this ≫= f) s).
Proof.
  intros Hv Hf. unfold mbind, prog_bind, get_vec. by rewrite Hv.
Qed.

Lemma runs_put_vec {B} this v (f : () → prog (Machine T) B) s Q E :
  runs (MkMachine (mem s) (<[this := v]> (vectors s))) Q E
       (f () (MkMachine (mem s) (<[this := v]> (vectors s)))) →
  runs s Q E ((put_vec this v ≫= f) s).
Proof. intros Hf. apply runs_bind. by split. Qed.

Lemma runs_del_vec {B} this (f : () → prog (Machine T) B) s Q E :
  runs (MkMachine (mem s) (delete this (vectors s))) Q E
       (f () (MkMachine (mem s) (delete this (vectors s)))) →
  runs s Q E ((del_vec this ≫= f) s).
Proof. intros Hf. apply runs_bind. by split. Qed.

Lemma runs_assert_bind {B} (b : bool) (f : () → prog (Machine T) B) s Q E :
  b = true → runs s Q E (f () s) → runs s Q E ((assert_ b ≫= f) s).
Proof. by intros ->. Qed.

Lemma runs_plus_bind {B} r off (f : ptr → prog (Machine T) B) s Q E :
  off ≤ capacity_ r →
  runs s Q E (f (Ptr (buffer_ r) off) s) →
  runs s Q E ((RawMemory_plus r off ≫= f) s).
Proof.
  intros Hoff Hf. unfold RawMemory_plus.
  unfold mbind at 1, prog_bind. unfold mbind at 1, prog_bind.
  by rewrite bool_decide_eq_true_2.
Qed.

Lemma runs_ptr_sub_bind {B} b i k (f : ptr → prog (Machine T) B) s Q E :
  k ≤ i →
  runs s Q E (f (Ptr b (i - k)) s) →
  runs s Q E ((ptr_sub (Ptr b i) k ≫= f) s).
Proof.
  intros Hk Hf. unfold ptr_sub, mbind, prog_bind. simpl.
  by rewrite decide_True.
Qed.

Lemma runs_distance_bind {B} b i k (f : nat → prog (Machine T) B) s Q E :
  i ≤ k →
  runs s Q E (f (k - i) s) →
  runs s Q E ((std_distance (Ptr b i) (Ptr b k) ≫= f) s).
Proof.
  intros Hk Hf. unfold std_distance, ptr_le, mbind, prog_bind. simpl.
  by rewrite !bool_decide_eq_true_2.
Qed.

Lemma runs_lift_bind {A B} (c : prog (Mem T) A) (f : A → prog (Machine T) B)
    s Q1 E1 Q E :
  runs (mem s) Q1 E1 (c (mem s)) →
  (∀ m', E1 m' → E (MkMachine m' (vectors s))) →
  (∀ a m', Q1 a m' →
     runs (MkMachine m' (vectors s)) Q E (f a (MkMachine m' (vectors s)))) →
  runs s Q E ((lift c ≫= f) s).
Proof.
  intros Hc HE Hf. apply runs_bind. apply runs_lift.
  eapply runs_mono; [exact Hc|..]; simpl; auto.
Qed.

Lemma runs_lift_last {A} (c : prog (Mem T) A) s Q1 E1 Q E :
  runs (mem s) Q1 E1 (c (mem s)) →
  (∀ m', E1 m' → E (MkMachine m' (vectors s))) →
  (∀ a m', Q1 a m' → Q a (MkMachine m' (vectors s))) →
  runs s Q E (lift c s).
Proof.
  intros Hc HE HQ. apply runs_lift.
  eapply runs_mono; [exact Hc|..]; simpl; auto.
Qed.

End Machine_steps.

Lemma split_at {A} (l : list A) p :
  p < length l → ∃ l1 x l2, l = l1 ++ x :: l2 ∧ length l1 = p.
Proof.
  intros Hp. destruct (lookup_lt_is_Some_2 l p Hp) as [x Hx].
  exists (take p l), x, (drop (S p) l). split.
  - by rewrite take_drop_middle.
  - rewrite length_take. lia.
Qed.

(** Assertions on pointers and sizes that hold by arithmetic. *)
Ltac solve_assert :=
  unfold ptr_le, ptr_lt; simpl;
  repeat (rewrite bool_decide_eq_true_2 by (done || lia));
  done.


Section Vector_proofs.
Context {T : Type} `{Element T} `{Library}.
#[local] Arguments destroy_n : simpl never.
#[local] Arguments CopyOrMove : simpl never.
Implicit Types (s : Machine T) (l : list T).

Lemma represents_vec s this b l cap :
  represents s this b l cap →
  vectors s !! this = Some (MkVector (MkRawMemory b cap) (length l)).
Proof. by intros [? _]. Qed.

Lemma represents_nonempty s this b l cap :
  represents s this b l cap → 0 < length l →
  ∃ a, b = Some a
       ∧ heap (mem s) !! a = Some ((Some <$> l) ++ replicate (cap - length l) None).
Proof.
  intros (_ & Hle & Hb) Hl. destruct b as [a|]; [|lia].
  exists a. by destruct Hb.
Qed.

Lemma represents_intro s this a l cap n blk :
  vectors s !! this = Some (MkVector (MkRawMemory (Some a) cap) n) →
  n = length l → length l ≤ cap → 0 < cap →
  heap (mem s) !! a = Some blk →
  blk = (Some <$> l) ++ replicate (cap - length l) None →
  represents s this (Some a) l cap.
Proof. intros Hv -> Hle Hcap Hblk ->. by split_and!. Qed.

Lemma runs_begin {B} this v (f : ptr → prog (Machine T) B) s Q E :
  vectors s !! this = Some v →
  runs s Q E (f (Ptr (buffer_ (data_ v)) 0) s) →
  runs s Q E ((begin_ this ≫= f) s).
Proof.
  intros Hv Hf. unfold begin_, mbind, prog_bind, get_vec. by rewrite Hv.
Qed.

Lemma runs_end {B} this v (f : ptr → prog (Machine T) B) s Q E :
  vectors s !! this = Some v →
  size_ v ≤ capacity_ (data_ v) →
  runs s Q E (f (Ptr (buffer_ (data_ v)) (size_ v)) s) →
  runs s Q E ((end_ this ≫= f) s).
Proof.
  intros Hv Hle Hf.
  unfold end_, RawMemory_plus, mbind, prog_bind, get_vec, assert_.
  rewrite Hv. by rewrite bool_decide_eq_true_2.
Qed.

Lemma Erase_runs s this b l cap p :
  represents s this b l cap → is_size_t cap → p < length l →
  runs s (λ r s', r = Ptr b p
                  ∧ represents s' this b (delete p l) cap
                  ∧ vectors s' = <[this := MkVector (MkRawMemory b cap)
                                                    (length l - 1)]> (vectors s))
         (λ s', nothrow_move_assignable = false
                ∧ ∃ l', length l' = length l ∧ represents s' this b l' cap)
         (Erase this (Ptr b p) s).
Proof.
  intros Hrep Hsz Hp.
  destruct (represents_nonempty _ _ _ _ _ Hrep) as (a & -> & Hblk); [lia|].
  destruct Hrep as (Hv & Hle & Hcap & _).
  destruct (split_at l p Hp) as (l1 & x & l2 & -> & <-).
  rewrite length_app in *. simpl in *.
  rewrite fmap_app, fmap_cons, <-app_assoc, <-app_comm_cons in Hblk.
  unfold Erase.
  eapply runs_begin; [done|]. eapply runs_end; [done|simpl; lia|]. simpl.
  eapply runs_assert_bind.
  { solve_assert. }
  eapply runs_get_vec; [done|]. simpl.
  eapply runs_plus_bind; [simpl; lia|]. simpl.
  unfold std_move.
  eapply runs_lift_bind.
  { apply runs_bind. unfold ptr_add. simpl.
    eapply runs_range_length; [lia|].
    replace (length l1 + S (length l2) - (length l1 + 1)) with (length l2) by lia.
    eapply (runs_move_n_assign_left l2 _ a (Some <$> l1) x);
      [by rewrite length_fmap|done..]. }
  { simpl. intros m' (Hnt & ws & Hws & Hm'). split; [done|].
    exists (l1 ++ ws). split; [rewrite !length_app; simpl; lia|].
    eapply represents_intro; simpl; [done| |..|by rewrite Hm', lookup_insert_eq|].
    - rewrite length_app. lia.
    - rewrite length_app. lia.
    - done.
    - rewrite fmap_app, <-!app_assoc, length_app. do 3 f_equal. lia. }
  intros [] m1 Hm1.
  eapply runs_ptr_sub_bind; [lia|].
  eapply runs_lift_bind.
  { simpl.
    eapply (runs_destroy_n [vacated_back x l2] _ a
              ((Some <$> l1) ++ (Some <$> l2))).
    - rewrite length_app, !length_fmap. lia.
    - done.
    - rewrite Hm1, lookup_insert_eq. by rewrite <-app_assoc. }
  { done. }
  intros [] m2 Hm2. simpl in Hm2.
  eapply runs_put_vec. cbn [size_ data_].
  rewrite size_sub_exact by (lia || size_t_solve).
  split; [|done]. simpl.
  rewrite delete_middle. split_and!.
  - done.
  - eapply represents_intro; simpl;
      [apply lookup_insert_eq| |..
      |by rewrite Hm2, Hm1, insert_insert_eq, lookup_insert_eq|].
    + rewrite length_app. lia.
    + rewrite length_app. lia.
    + done.
    + rewrite fmap_app, <-!app_assoc, length_app. do 2 f_equal.
      replace (cap - (length l1 + length l2))
        with (S (cap - (length l1 + S (length l2)))) by lia.
      done.
  - done.
Qed.

End Vector_proofs.

(** Reducing field accesses and pointer arithmetic only, so that the program
    text is left as it is. *)
Tactic Notation "fields" :=
  try unfold ptr_add, GetAddress, RawMemory_Swap, RawMemory_move_ctor;
  cbn [data_ size_ buffer_ capacity_ index base fst snd mem vectors heap oracle
       Nat.add].
Tactic Notation "fields" "in" hyp(H) :=
  try unfold ptr_add, GetAddress, RawMemory_Swap, RawMemory_move_ctor in H;
  cbn [data_ size_ buffer_ capacity_ index base fst snd mem vectors heap oracle
       Nat.add] in H.

Lemma insert_at_raw {A} (l : list A) k x :
  <[length l := Some x]> ((Some <$> l) ++ replicate (S k) None)
  = (Some <$> l ++ [x]) ++ replicate k None.
Proof.
  rewrite <-(length_fmap Some l) at 1. simpl. rewrite insert_middle.
  by rewrite fmap_app, <-app_assoc.
Qed.

Section Growth_proofs.
Context {T : Type} `{Element T} `{Library}.
#[local] Arguments destroy_n : simpl never.
#[local] Arguments CopyOrMove : simpl never.
Implicit Types (s : Machine T) (l : list T).

(** The capacity the code computes on growth is [doubled], when that is a
    [size_t]. *)
Lemma doubled_exact n :
  is_size_t (doubled n) →
  (if decide (n = 0) then 1 else size_mul n 2) = doubled n.
Proof.
  unfold doubled. destruct (decide (n = 0)); [done|]. apply size_mul_exact.
Qed.

Lemma doubled_gt n : n < doubled n.
Proof. unfold doubled. case_decide; lia. Qed.

Lemma released_emptied b cap (h : gmap nat (list (option T))) :
  released b (emptied b cap h) = released b h.
Proof. destruct b; simpl; [|done]. apply delete_insert_eq. Qed.

Lemma CopySwap_runs s this b l cap a' n' dpost :
  represents s this b l cap →
  b ≠ Some a' →
  heap (mem s) !! a' = Some (replicate (length l) None ++ dpost) →
  runs s
    (λ nd s', nd = MkRawMemory b cap
              ∧ vectors s' = <[this := MkVector (MkRawMemory (Some a') n')
                                                (length l)]> (vectors s)
              ∧ heap (mem s')
                = <[a' := (Some <$> l) ++ dpost]> (emptied b cap (heap (mem s))))
    (λ s', vectors s' = vectors s
           ∧ (heap (mem s') = heap (mem s)
              ∨ (nothrow_move_constructible = false ∧ copy_constructible = false
                 ∧ ∃ a sblk, b = Some a
                             ∧ heap (mem s') = <[a := sblk]> (heap (mem s)))))
    (CopySwap this (MkRawMemory (Some a') n') s).
Proof.
  intros (Hv & Hle & Hb) Hne Ha'. unfold CopySwap.
  eapply runs_get_vec; [done|]. unfold GetAddress. simpl.
  destruct b as [a|].
  - destruct Hb as [Hcap Hblk]. assert (a ≠ a') by congruence.
    eapply runs_lift_bind;
      [by eapply (runs_CopyOrMove l _ a a' [] _ [] dpost)| |].
    { simpl. intros m' [[_ ->]|(?&?&sblk&->)]; (split; [done|]); [by left|right].
      eauto 10. }
    intros [] m1 Hm1. simpl in Hm1.
    eapply runs_lift_bind;
      [eapply (runs_destroy_n (left_behind l) _ a []);
         [done|by rewrite left_behind_length|]|done|].
    { simpl. by rewrite Hm1, lookup_insert_ne, lookup_insert_eq. }
    intros [] m2 Hm2. simpl in Hm2.
    eapply runs_put_vec. split; [|done]. split_and!; simpl; [done..|].
    rewrite Hm2, Hm1, <-replicate_add.
    replace (length l + (cap - length l)) with cap by lia. heap_eq.
  - subst cap. destruct l; [|simpl in *; lia].
    eapply runs_lift_bind; [apply runs_CopyOrMove_0|done|].
    intros [] ? ->.
    eapply runs_lift_bind; [apply runs_destroy_n_0|done|].
    intros [] ? ->.
    eapply runs_put_vec. split; [|done]. split_and!; simpl; [done..|].
    symmetry. by apply insert_id.
Qed.

Lemma PushBackU_runs s this b l cap x copy_move :
  constructs_at_end this x copy_move →
  represents s this b l cap →
  is_size_t cap →
  (length l = cap → is_size_t (doubled (length l) * sizeof_T)) →
  runs s
    (λ _ s',
       if decide (length l = cap) then
         ∃ a', heap (mem s) !! a' = None
               ∧ represents s' this (Some a') (l ++ [x]) (doubled (length l))
               ∧ vectors s' = <[this := MkVector
                                  (MkRawMemory (Some a') (doubled (length l)))
                                  (length l + 1)]> (vectors s)
               ∧ heap (mem s')
                 = <[a' := (Some <$> l ++ [x])
                           ++ replicate (doubled (length l) - length l - 1) None]>
                     (released b (heap (mem s)))
       else represents s' this b (l ++ [x]) cap
            ∧ vectors s' = <[this := MkVector (MkRawMemory b cap)
                                              (length l + 1)]> (vectors s))
    (λ s', vectors s' = vectors s
           ∧ (heap (mem s') = heap (mem s)
              ∨ (nothrow_move_constructible = false
                 ∧ copy_constructible = false)))
    (PushBackU this copy_move s).
Proof.
  intros Hcm Hrep Hsz Hfit. pose proof Hrep as (Hv & Hle & Hb).
  destruct (decide (length l = cap)) as [Hcap|Hroom];
    unfold PushBackU, GetAddress;
    (eapply runs_get_vec; [done|]); fields.
  2: { rewrite decide_True by done.
    destruct b as [a|]; [|lia]. destruct Hb as [Hcap Hblk].
    replace (cap - length l) with (S (cap - length l - 1)) in Hblk by lia.
    eapply runs_seq; [eapply (Hcm s _ a _ Hv Hblk)| |].
    { rewrite length_app, length_fmap. simpl. lia. }
    { simpl. intros s' [? ?]. by split; [|left]. }
    intros res s1 [Hv1 Hh1]. fields in Hh1. rewrite insert_at_raw in Hh1.
    eapply runs_get_vec; [by rewrite Hv1|]. fields.
    rewrite size_add_exact by size_t_solve.
    eapply runs_put_vec. split; [|done]. simpl. rewrite Hv1. split; [|done].
    eapply represents_intro; simpl;
      [apply lookup_insert_eq| |..|by rewrite Hh1, lookup_insert_eq|].
    + rewrite length_app. simpl. lia.
    + rewrite length_app. simpl. lia.
    + done.
    + rewrite length_app. simpl. do 2 f_equal. lia. }
  rewrite decide_False by (intros ?; done).
  apply runs_bind.
  specialize (Hfit Hcap). pose proof (is_size_t_count _ Hfit) as Hfd.
  rewrite (doubled_exact _ Hfd).
  pose proof (doubled_gt (length l)) as Hd1.
  eapply runs_lift_bind; [by apply runs_RawMemory_ctor|by split; [|left]|].
  intros [[a'|] n'] m1 [Hn' Hm1]; simpl in Hn', Hm1; [|lia].
  destruct Hm1 as (_ & Hfresh & Hm1). subst n'.
  assert (b ≠ Some a') as Hne.
  { intros ->. destruct Hb. congruence. }
  assert (replicate (doubled (length l)) (None : option T)
          = replicate (length l) None
            ++ None :: replicate (doubled (length l) - length l - 1) None)
    as Hsplit.
  { rewrite <-replicate_S, <-replicate_add. f_equal. lia. }
  apply runs_bind. apply runs_unwind. fields.
  eapply runs_seq;
    [eapply (Hcm (MkMachine m1 (vectors s)) _ a' _ Hv);
       [simpl; by rewrite Hm1, lookup_insert_eq|]| |].
  { rewrite length_replicate. simpl. lia. }
  { simpl. intros s' [Hv' Hh'].
    eapply runs_lift_last; [eapply (runs_RawMemory_dtor _ (MkRawMemory _ _))|..];
      simpl.
    - by rewrite Hh', Hm1, lookup_insert_eq.
    - done.
    - intros _ m'' ->. split; [done|left].
      rewrite Hh', Hm1, delete_insert_eq. by apply delete_id. }
  intros res s2 [Hv2 Hh2]. fields in Hv2. fields in Hh2.
  rewrite Hm1, insert_insert_eq, Hsplit in Hh2.
  rewrite <-(length_replicate (length l) (None : option T)) in Hh2 at 1.
  rewrite insert_middle in Hh2.
  eapply runs_seq;
    [eapply (CopySwap_runs _ this b l cap a'); [|done|]| |].
  { split_and!; simpl; [by rewrite Hv2|done|]. destruct b; [|done].
    destruct Hb. split; [done|]. rewrite Hh2, lookup_insert_ne; [done|].
    congruence. }
  { simpl. by rewrite Hh2, lookup_insert_eq. }
  { simpl. intros s' [Hvs Hheap].
    eapply runs_lift_last; [eapply (runs_RawMemory_dtor _ (MkRawMemory _ _))|..];
      simpl.
    - destruct Hheap as [->|(_&_&a&sblk&_&->)].
      + by rewrite Hh2, lookup_insert_eq.
      + rewrite lookup_insert. case_decide; [done|].
        by rewrite Hh2, lookup_insert_eq.
    - done.
    - intros _ m'' Hm''. split; [by rewrite Hvs|].
      destruct Hheap as [Hh|(?&?&_)]; [left|by right].
      rewrite Hm'', Hh, Hh2, delete_insert_eq. by apply delete_id. }
  intros nd s3 (-> & Hv3 & Hh3). simpl in Hv3, Hh3. split; [|done]. fields.
  eapply runs_lift_bind;
    [eapply (runs_RawMemory_dtor _ (MkRawMemory b cap))|done|].
  { simpl. destruct b as [a|]; [|done]. rewrite Hh3. simpl.
    rewrite lookup_insert_ne by congruence. by rewrite lookup_insert_eq. }
  intros [] m4 Hm4. simpl in Hm4. split; [|done].
  eapply runs_get_vec; [simpl; by rewrite Hv3, lookup_insert_eq|]. fields.
  rewrite size_add_exact by size_t_solve.
  eapply runs_put_vec. split; [|done].
  assert (heap m4 = <[a' := (Some <$> l ++ [x])
                            ++ replicate (doubled (length l) - length l - 1) None]>
                      (released b (heap (mem s)))) as Hfinal.
  { rewrite fmap_app, <-app_assoc. simpl.
    destruct b as [a|]; simpl in *.
    - rewrite Hm4, Hh3, Hh2. heap_eq.
    - rewrite Hm4, Hh3, Hh2. heap_eq. }
  exists a'.
  split_and!; simpl; [done| |by rewrite Hv3, Hv2, insert_insert_eq|done].
  eapply represents_intro; simpl;
    [apply lookup_insert_eq| |..|by rewrite Hfinal, lookup_insert_eq|].
  - rewrite length_app. simpl. lia.
  - rewrite length_app. simpl. lia.
  - lia.
  - rewrite length_app. simpl. do 2 f_equal. lia.
Qed.

(** The three ways of appending hand [PushBackU] a function that constructs
    the new element at the end. *)
Lemma PushBack_constructs this (x : T) :
  constructs_at_end this x (λ dest,
    v ← get_vec this;
    lift (construct_at (dest +ₚ size_ v) x);;
    mret nullptr).
Proof.
  intros s v a blk Hv Hblk Hlt.
  eapply runs_get_vec; [done|]. fields.
  eapply runs_lift_bind; [by eapply runs_construct_at|done|].
  intros [] m1 Hm1. by split.
Qed.

Lemma runs_move_construct_from (m : Mem T) a blk i x :
  heap m !! a = Some blk → i < length blk →
  runs m (λ _ m', heap m' = <[a := <[i := Some x]> blk]> (heap m))
         (λ m', heap m' = heap m)
         (move_construct_from (Ptr (Some a) i) x m).
Proof.
  intros Ha Hi. unfold move_construct_from. apply runs_bind.
  eapply runs_mono; [apply runs_tick_unless|..]; simpl; [|by intros ? [? _]].
  intros [] m1 Hm1.
  eapply runs_mono; [eapply runs_store; [by rewrite Hm1|done]|..]; simpl;
    [|done].
  intros _ m2 ->. by rewrite Hm1.
Qed.

Lemma PushBack_rv_constructs this (x : T) :
  constructs_at_end this x (λ dest,
    v ← get_vec this;
    lift (move_construct_from (dest +ₚ size_ v) x);;
    mret nullptr).
Proof.
  intros s v a blk Hv Hblk Hlt.
  eapply runs_get_vec; [done|]. fields.
  eapply runs_lift_bind; [by eapply runs_move_construct_from|done|].
  intros [] m1 Hm1. by split.
Qed.

Lemma EmplaceBack_constructs this (x : T) :
  constructs_at_end this x (λ dest,
    v ← get_vec this;
    lift (construct_at (dest +ₚ size_ v) x);;
    mret (dest +ₚ size_ v)).
Proof.
  intros s v a blk Hv Hblk Hlt.
  eapply runs_get_vec; [done|]. fields.
  eapply runs_lift_bind; [by eapply runs_construct_at|done|].
  intros [] m1 Hm1. by split.
Qed.

End Growth_proofs.

Lemma split_upto {A} (l : list A) p :
  p ≤ length l → ∃ l1 l2, l = l1 ++ l2 ∧ length l1 = p.
Proof.
  intros Hp. exists (take p l), (drop p l). split.
  - by rewrite take_drop.
  - rewrite length_take. lia.
Qed.

Lemma split_last {A} (l : list A) p :
  p < length l → ∃ l1 vals z, l = l1 ++ vals ++ [z] ∧ length l1 = p.
Proof.
  intros Hp. destruct (split_at l p Hp) as (l1 & w & l2 & -> & Hl1).
  exists l1. destruct (decide (w :: l2 = [])) as [|Hne]; [done|].
  apply exists_last in Hne as (vals & z & Hvals).
  exists vals, z. by rewrite <-Hvals.
Qed.

Section Emplace_proofs.
Context {T : Type} `{Element T} `{Library}.
#[local] Arguments destroy_n : simpl never.
#[local] Arguments CopyOrMove : simpl never.
Implicit Types (s : Machine T) (l : list T).

(** The relocation of [Emplace]'s reallocating branch: the elements before
    the insertion point, then those from it on, go round the new element. *)
Lemma Emplace_relocate_runs s vs a a' l1 l2 x pad :
  a ≠ a' →
  vectors s = vs →
  heap (mem s) !! a = Some ((Some <$> l1 ++ l2) ++ []) →
  heap (mem s) !! a'
  = Some (replicate (length l1) None
          ++ Some x :: replicate (length l2) None ++ pad) →
  runs s
    (λ _ s', vectors s' = vs
             ∧ heap (mem s')
               = <[a' := (Some <$> l1 ++ x :: l2) ++ pad]>
                   (<[a := replicate (length (l1 ++ l2)) None]> (heap (mem s))))
    (λ s', vectors s' = vs
           ∧ is_Some (heap (mem s') !! a')
           ∧ (delete a' (heap (mem s')) = delete a' (heap (mem s))
              ∨ (nothrow_move_constructible = false
                 ∧ copy_constructible = false)))
    ((lift (CopyOrMove (Ptr (Some a) 0) (length l1) (Ptr (Some a') 0));;
      d ← RawMemory_plus (MkRawMemory (Some a') (doubled (length (l1 ++ l2))))
                         (length l1);
      lift (CopyOrMove (Ptr (Some a) (length l1))
                       (length (l1 ++ l2) - length l1) (d +ₚ 1));;
      lift (destroy_n (Ptr (Some a) 0) (length (l1 ++ l2)))) s).
Proof.
  intros Hne <- Ha Ha'. pose proof (doubled_gt (length (l1 ++ l2))) as Hd.
  rewrite length_app in *.
  rewrite fmap_app, <-!app_assoc in Ha. simpl in Ha.
  eapply runs_lift_bind;
    [by eapply (runs_CopyOrMove l1 _ a a' [] _ [])| |].
  { simpl. intros m' [[_ ->]|(?&?&sblk&->)]; (split; [done|]).
    - split; [by rewrite Ha'|by left].
    - rewrite lookup_insert_ne, Ha' by done. split; [done|by right]. }
  intros [] m1 Hm1. simpl in Hm1.
  eapply runs_plus_bind; [simpl; lia|]. fields.
  replace (length l1 + length l2 - length l1) with (length l2) by lia.
  eapply runs_lift_bind;
    [eapply (runs_CopyOrMove l2 _ a a' (Some <$> left_behind l1) []
               ((Some <$> l1) ++ [Some x]) pad); [done| | |done| |]| |].
  { by rewrite length_fmap, left_behind_length. }
  { rewrite length_app, length_fmap. simpl. lia. }
  { simpl. by rewrite Hm1, lookup_insert_ne, lookup_insert_eq. }
  { simpl. rewrite Hm1, lookup_insert_eq. by rewrite <-app_assoc. }
  { simpl. intros m' [[Hcp Hm']|(?&?&sblk&Hm')]; (split; [done|]).
    - rewrite Hm', Hm1, lookup_insert_eq. split; [done|left].
      rewrite left_behind_copy by done. rewrite delete_insert_eq.
      f_equal. by apply insert_id.
    - rewrite Hm', lookup_insert_ne, Hm1, lookup_insert_eq by done.
      split; [done|by right]. }
  intros [] m2 Hm2. simpl in Hm2.
  eapply runs_lift_last;
    [eapply (runs_destroy_n (left_behind l1 ++ left_behind l2) _ a []);
       [done| |]|done|].
  { by rewrite length_app, !left_behind_length. }
  { simpl. rewrite Hm2, lookup_insert_ne, lookup_insert_eq by done.
    by rewrite fmap_app, <-app_assoc. }
  intros [] m3 Hm3. simpl in Hm3. simpl. split; [done|].
  rewrite Hm3, Hm2, Hm1. rewrite fmap_app, <-!app_assoc, ?app_nil_r. simpl.
  heap_eq.
Qed.

Lemma Emplace_realloc_runs s this b l cap p x :
  represents s this b l cap → p ≤ length l →
  length l = cap ∨ length l = 0 →
  is_size_t (doubled (length l) * sizeof_T) →
  runs s
    (λ r s', ∃ a',
       r = Ptr (Some a') p
       ∧ heap (mem s) !! a' = None
       ∧ represents s' this (Some a') (take p l ++ x :: drop p l)
                    (doubled (length l))
       ∧ vectors s' = <[this := MkVector
                          (MkRawMemory (Some a') (doubled (length l)))
                          (length l + 1)]> (vectors s)
       ∧ heap (mem s')
         = <[a' := (Some <$> take p l ++ x :: drop p l)
                   ++ replicate (doubled (length l) - length l - 1) None]>
             (released b (heap (mem s))))
    (λ s', (vectors s' = vectors s ∧ heap (mem s') = heap (mem s))
           ∨ (nothrow_move_constructible = false ∧ copy_constructible = false))
    (Emplace this (Ptr b p) x s).
Proof.
  intros (Hv & Hle & Hb) Hp Hfull Hfit.
  pose proof (is_size_t_count _ Hfit) as Hfd.
  destruct (split_upto l p Hp) as (l1 & l2 & -> & <-).
  rewrite take_app_length, drop_app_length.
  pose proof (doubled_gt (length (l1 ++ l2))) as Hd.
  unfold Emplace.
  eapply runs_begin; [done|]. eapply runs_end; [done|done|]. fields.
  eapply runs_assert_bind; [solve_assert|].
  eapply runs_get_vec; [done|]. fields.
  replace (bool_decide (length (l1 ++ l2) < cap)
           && bool_decide (length (l1 ++ l2) ≠ 0)) with false.
  2: { symmetry. apply andb_false_iff. destruct Hfull.
       - left. apply bool_decide_eq_false. lia.
       - right. apply bool_decide_eq_false. lia. }
  apply runs_bind.
  rewrite (doubled_exact _ Hfd).
  eapply runs_lift_bind; [by apply runs_RawMemory_ctor|by left|].
  intros [[a'|] n'] m1 [Hn' Hm1]; simpl in Hn', Hm1; [|lia].
  destruct Hm1 as (_ & Hfresh & Hm1). subst n'.
  assert (b ≠ Some a') as Hne.
  { intros ->. destruct Hb. congruence. }
  apply runs_bind. apply runs_unwind. fields.
  eapply runs_distance_bind; [lia|]. rewrite Nat.sub_0_r.
  eapply runs_plus_bind; [simpl; rewrite length_app in *; lia|]. fields.
  assert (replicate (doubled (length (l1 ++ l2))) (None : option T)
          = replicate (length l1) None
            ++ None :: replicate (length l2) None
            ++ replicate (doubled (length (l1 ++ l2)) - length (l1 ++ l2) - 1)
                         None) as Hsplit.
  { rewrite <-replicate_add, <-replicate_S, <-replicate_add. f_equal.
    rewrite length_app in *. lia. }
  rewrite Hsplit in Hm1.
  set (pad := replicate (doubled (length (l1 ++ l2)) - length (l1 ++ l2) - 1)
                        (None : option T)) in *.
  assert (∀ s', vectors s' = vectors s →
            is_Some (heap (mem s') !! a') →
            delete a' (heap (mem s')) = delete a' (heap (mem s))
            ∨ (nothrow_move_constructible = false ∧ copy_constructible = false) →
            runs s'
              (λ _ s'', (vectors s'' = vectors s
                         ∧ heap (mem s'') = heap (mem s))
                        ∨ (nothrow_move_constructible = false
                           ∧ copy_constructible = false))
              (λ _, False)
              (lift (RawMemory_dtor
                       (MkRawMemory (Some a') (doubled (length (l1 ++ l2)))))
                    s')) as Hcleanup.
  { intros s' Hvs' Hsome Hrest.
    eapply runs_lift_last; [by eapply runs_RawMemory_dtor|done|].
    simpl. intros _ m'' Hm''. destruct Hrest as [Hdel|?]; [left|by right].
    split; [done|]. rewrite Hm'', Hdel. by apply delete_id. }
  eapply runs_lift_bind;
    [eapply (runs_construct_at _ a'); [simpl; by rewrite Hm1, lookup_insert_eq|]
    | |].
  { rewrite length_app, length_replicate. simpl. lia. }
  { simpl. intros m' Hm'. apply Hcleanup; simpl; [done| |left].
    - by rewrite Hm', Hm1, lookup_insert_eq.
    - by rewrite Hm', Hm1, delete_insert_eq. }
  intros [] m2 Hm2. fields in Hm2. fields.
  rewrite Hm1, insert_insert_eq in Hm2.
  rewrite <-(length_replicate (length l1) (None : option T)) in Hm2 at 1.
  rewrite insert_middle in Hm2.
  eapply (runs_seq _ _ _
    (λ _ s', vectors s' = vectors s
             ∧ heap (mem s')
               = <[a' := (Some <$> l1 ++ x :: l2) ++ pad]>
                   (emptied b cap (heap (mem s))))
    (λ s', vectors s' = vectors s
           ∧ is_Some (heap (mem s') !! a')
           ∧ (delete a' (heap (mem s')) = delete a' (heap m2)
              ∨ (nothrow_move_constructible = false
                 ∧ copy_constructible = false)))).
  { destruct (decide (length (l1 ++ l2) ≠ 0)) as [Hnz|Hz].
    - destruct Hfull as [Hfull|]; [|done].
      destruct b as [a|]; [|lia]. destruct Hb as [_ Hblk].
      rewrite Hfull, Nat.sub_diag in Hblk. simpl in Hblk.
      eapply runs_mono;
        [eapply (Emplace_relocate_runs _ (vectors s) a a' l1 l2 x pad)|..];
        simpl.
      + congruence.
      + done.
      + by rewrite Hm2, lookup_insert_ne by congruence.
      + by rewrite Hm2, lookup_insert_eq.
      + intros _ s' [Hvs' Hh']. split; [done|].
        rewrite Hh', Hm2, Hfull. heap_eq.
      + intros s' Hs'. exact Hs'.
    - assert (length (l1 ++ l2) = 0) as Hz' by lia.
      destruct l1, l2; simplify_eq/=. split; [|done]. simpl. split; [done|].
      rewrite Hm2. destruct b as [a|]; simpl; [|done].
      destruct Hb as [_ Hblk]. rewrite Nat.sub_0_r in Hblk.
      f_equal. symmetry. by apply insert_id. }
  { simpl. intros s' (Hvs' & Hsome & Hrest). apply Hcleanup; [done..|].
    destruct Hrest as [Hdel|?]; [left|by right].
    by rewrite Hdel, Hm2, delete_insert_eq. }
  intros [] s3 [Hv3 Hh3].
  eapply runs_put_vec. split; [|done]. fields.
  eapply runs_lift_bind;
    [eapply (runs_RawMemory_dtor _ (MkRawMemory b cap))|done|].
  { simpl. destruct b as [a|]; [|done]. rewrite Hh3. simpl.
    rewrite lookup_insert_ne by congruence. by rewrite lookup_insert_eq. }
  intros [] m4 Hm4. fields in Hm4. fields. split; [|done].
  eapply runs_get_vec; [simpl; by rewrite lookup_insert_eq|]. fields.
  rewrite size_add_exact by size_t_solve.
  eapply runs_put_vec. split; [|done].
  assert (heap m4 = <[a' := (Some <$> l1 ++ x :: l2) ++ pad]>
                      (released b (heap (mem s)))) as Hfinal.
  { rewrite Hm4, Hh3. destruct b as [a|]; simpl; [|done].
    assert (a ≠ a') by congruence. heap_eq. }
  exists a'. split_and!; simpl; [done|done| |by rewrite Hv3, insert_insert_eq|done].
  eapply represents_intro; simpl;
    [apply lookup_insert_eq| |..|by rewrite Hfinal, lookup_insert_eq|].
  - rewrite !length_app. simpl. lia.
  - rewrite !length_app in *. simpl. lia.
  - lia.
  - unfold pad. do 2 f_equal. rewrite !length_app. simpl. lia.
Qed.

Lemma Emplace_in_place_runs s this a l cap p x :
  represents s this (Some a) l cap → p < length l → length l < cap →
  is_size_t cap →
  runs s
    (λ r s',
       r = Ptr (Some a) p
       ∧ represents s' this (Some a) (take p l ++ x :: drop p l) cap
       ∧ vectors s' = <[this := MkVector (MkRawMemory (Some a) cap)
                                         (length l + 1)]> (vectors s)
       ∧ ∃ t, heap (mem s) !! t = None
              ∧ heap (mem s')
                = <[t := [None]]>
                    (<[a := (Some <$> take p l ++ x :: drop p l)
                            ++ replicate (cap - length l - 1) None]>
                       (heap (mem s))))
    (λ s', vectors s' = vectors s)
    (Emplace this (Ptr (Some a) p) x s).
Proof.
  intros (Hv & Hle & Hcap & Hblk) Hp Hroom Hsz.
  destruct (split_last l p Hp) as (l1 & vals & z & -> & <-).
  rewrite take_app_length, drop_app_length.
  set (n := length (l1 ++ vals ++ [z])) in *.
  assert (n = length l1 + length vals + 1) as Hn
    by (unfold n; rewrite !length_app; simpl; lia).
  replace (cap - n) with (S (cap - n - 1)) in Hblk by lia.
  rewrite !fmap_app, <-!app_assoc in Hblk. simpl in Hblk.
  unfold Emplace.
  eapply runs_begin; [done|]. eapply runs_end; [done|simpl; lia|]. fields.
  eapply runs_assert_bind; [solve_assert|].
  eapply runs_get_vec; [done|]. fields.
  replace (bool_decide (n < cap) && bool_decide (n ≠ 0)) with true.
  2: { symmetry. apply andb_true_iff.
       split; apply bool_decide_eq_true; lia. }
  apply runs_bind.
  eapply runs_lift_bind; [apply runs_new_T|done|].
  intros tmp m1 (t & -> & Hfresh & Hm1). fields in Hm1. fields.
  assert (a ≠ t) as Hat by congruence.
  eapply runs_plus_bind; [simpl; lia|]. fields.
  eapply runs_ptr_sub_bind; [lia|].
  eapply runs_lift_bind;
    [eapply (runs_CopyOrMove_next _ a ((Some <$> l1) ++ (Some <$> vals)) z)|done|].
  { rewrite length_app, !length_fmap. lia. }
  { lia. }
  { simpl. rewrite Hm1, lookup_insert_ne by done. by rewrite <-app_assoc. }
  intros [] m2 [y Hm2]. fields in Hm2. fields.
  unfold std_move_backward.
  eapply runs_lift_bind.
  { apply runs_bind. eapply runs_range_length; [lia|].
    apply runs_bind. eapply runs_ptr_sub; [lia|].
    eapply (runs_move_n_assign_right vals _ a (Some <$> l1) y).
    - by rewrite length_fmap.
    - lia.
    - lia.
    - simpl. rewrite Hm2, lookup_insert_eq. by rewrite <-app_assoc. }
  { done. }
  intros [] m3 Hm3. fields in Hm3. fields.
  eapply runs_lift_bind;
    [eapply (runs_move_assign_at _ a _ (length l1) _ t [Some x] 0 x)|by intros ? [_ ?]|].
  { simpl. by rewrite Hm3, lookup_insert_eq. }
  { rewrite <-(length_fmap Some l1). by apply list_lookup_middle. }
  { simpl. by rewrite Hm3, Hm2, lookup_insert_ne, lookup_insert_ne, Hm1,
      lookup_insert_eq by done. }
  { done. }
  { simpl. rewrite lookup_insert_ne by done.
    by rewrite Hm3, Hm2, lookup_insert_ne, lookup_insert_ne, Hm1,
      lookup_insert_eq by done. }
  { simpl. lia. }
  intros [] m4 Hm4. fields in Hm4. fields.
  rewrite <-(length_fmap Some l1), insert_middle in Hm4. simpl in Hm4.
  eapply runs_lift_bind;
    [eapply (runs_destroy_n [residue x] _ t [] []); [done|done|]|done|].
  { simpl. by rewrite Hm4, lookup_insert_eq. }
  intros [] m5 Hm5. fields in Hm5. fields. split; [|done].
  eapply runs_get_vec; [done|]. fields.
  rewrite size_add_exact by size_t_solve.
  eapply runs_put_vec. split; [|done].
  assert (heap m5
          = <[t := [None]]>
              (<[a := (Some <$> l1 ++ x :: vals ++ [z])
                      ++ replicate (cap - n - 1) None]> (heap (mem s))))
    as Hfinal.
  { rewrite Hm5, Hm4, Hm3, Hm2, Hm1. simpl.
    rewrite !fmap_app, <-!app_assoc. simpl. heap_eq.
    rewrite !fmap_app, <-!app_assoc. done. }
  split_and!; simpl; [done| |done|by exists t].
  eapply represents_intro; simpl; [apply lookup_insert_eq| |..| |].
  - rewrite !length_app. simpl. rewrite length_app. simpl. lia.
  - rewrite !length_app. simpl. rewrite length_app. simpl. lia.
  - done.
  - rewrite Hfinal, lookup_insert_ne, lookup_insert_eq by done. done.
  - do 2 f_equal. rewrite !length_app. simpl. rewrite length_app. simpl. lia.
Qed.

End Emplace_proofs.

Section Construction_proofs.
Context {T : Type} `{Element T} `{Library}.
#[local] Arguments destroy_n : simpl never.
#[local] Arguments CopyOrMove : simpl never.
Implicit Types (s : Machine T) (l : list T).

Lemma runs_Capacity {B} this v (f : nat → prog (Machine T) B) s Q E :
  vectors s !! this = Some v →
  runs s Q E (f (capacity_ (data_ v)) s) →
  runs s Q E ((Capacity this ≫= f) s).
Proof.
  intros Hv Hf. unfold Capacity, mbind, prog_bind, get_vec. by rewrite Hv.
Qed.

Lemma Reserve_runs s this b l cap n :
  represents s this b l cap →
  is_size_t (n * sizeof_T) →
  runs s
    (λ _ s',
       if decide (cap < n) then
         ∃ a', heap (mem s) !! a' = None
               ∧ represents s' this (Some a') l n
               ∧ vectors s' = <[this := MkVector (MkRawMemory (Some a') n)
                                                 (length l)]> (vectors s)
               ∧ heap (mem s')
                 = <[a' := (Some <$> l) ++ replicate (n - length l) None]>
                     (released b (heap (mem s)))
       else s' = s)
    (λ s', (vectors s' = vectors s ∧ heap (mem s') = heap (mem s))
           ∨ (nothrow_move_constructible = false ∧ copy_constructible = false))
    (Reserve this n s).
Proof.
  intros Hrep Hfit. pose proof Hrep as (Hv & Hle & Hb).
  destruct (decide (cap < n)) as [Hgrow|Hfits]; unfold Reserve;
    (eapply runs_Capacity; [done|]); fields.
  2: { rewrite decide_False by done. by split. }
  rewrite decide_True by done.
  eapply runs_lift_bind; [by apply runs_RawMemory_ctor|by left|].
  intros [[a'|] n'] m1 [Hn' Hm1]; simpl in Hn', Hm1; [|lia].
  destruct Hm1 as (_ & Hfresh & Hm1). subst n'.
  assert (b ≠ Some a') as Hne.
  { intros ->. destruct Hb. congruence. }
  assert (replicate n (None : option T)
          = replicate (length l) None ++ replicate (n - length l) None)
    as Hsplit by (rewrite <-replicate_add; f_equal; lia).
  rewrite Hsplit in Hm1.
  apply runs_bind. apply runs_unwind.
  eapply runs_mono;
    [eapply (CopySwap_runs _ this b l cap a' n); [|done|]|..].
  { split_and!; simpl; [done..|]. destruct b as [a|]; [|done].
    destruct Hb. split; [done|]. rewrite Hm1, lookup_insert_ne; [done|].
    congruence. }
  { simpl. by rewrite Hm1, lookup_insert_eq. }
  2: { simpl. intros s' [Hvs Hheap].
    eapply runs_lift_last; [eapply (runs_RawMemory_dtor _ (MkRawMemory _ _))|..];
      simpl.
    - destruct Hheap as [->|(_&_&a&sblk&_&->)].
      + by rewrite Hm1, lookup_insert_eq.
      + rewrite lookup_insert. case_decide; [done|].
        by rewrite Hm1, lookup_insert_eq.
    - done.
    - intros _ m'' Hm''. destruct Hheap as [Hh|(?&?&_)]; [left|by right].
      split; [done|].
      rewrite Hm'', Hh, Hm1, delete_insert_eq. by apply delete_id. }
  intros nd s3 (-> & Hv3 & Hh3). simpl in Hv3, Hh3.
  eapply runs_lift_last;
    [eapply (runs_RawMemory_dtor _ (MkRawMemory b cap))|done|].
  { simpl. destruct b as [a|]; [|done]. rewrite Hh3. simpl.
    rewrite lookup_insert_ne by congruence. by rewrite lookup_insert_eq. }
  intros [] m4 Hm4. simpl in Hm4.
  assert (heap m4 = <[a' := (Some <$> l) ++ replicate (n - length l) None]>
                      (released b (heap (mem s)))) as Hfinal.
  { rewrite Hm4, Hh3, Hm1. destruct b as [a|]; simpl; heap_eq. }
  exists a'. split_and!; simpl; [done| |done..].
  eapply represents_intro; simpl;
    [by rewrite Hv3, lookup_insert_eq|done|lia|lia
    |by rewrite Hfinal, lookup_insert_eq|done].
Qed.

Lemma runs_uninitialized_value_construct_n_0 (p : ptr) (m : Mem T) :
  runs m (λ _ m', m' = m) (λ _, False) (uninitialized_value_construct_n p 0 m).
Proof. done. Qed.

Lemma runs_uninitialized_copy_n_0 (p q : ptr) (m : Mem T) :
  runs m (λ _ m', m' = m) (λ _, False) (uninitialized_copy_n p 0 q m).
Proof. done. Qed.

Lemma Vector_sized_ctor_runs s this n :
  is_size_t (n * sizeof_T) →
  runs s
    (λ _ s', ∃ b,
       represents s' this b (replicate n dflt) n
       ∧ vectors s' = <[this := MkVector (MkRawMemory b n) n]> (vectors s)
       ∧ match b with
         | None => n = 0 ∧ heap (mem s') = heap (mem s)
         | Some a => heap (mem s) !! a = None
                     ∧ heap (mem s')
                       = <[a := replicate n (Some dflt)]> (heap (mem s))
         end)
    (λ s', vectors s' = vectors s ∧ heap (mem s') = heap (mem s))
    (Vector_sized_ctor this n s).
Proof.
  intros Hfit. unfold Vector_sized_ctor.
  eapply runs_lift_bind; [by apply runs_RawMemory_ctor|done|].
  intros [[a|] n'] m1 [Hn' Hm1]; simpl in Hn', Hm1; subst n'.
  - destruct Hm1 as (Hn & Hfresh & Hm1).
    apply runs_bind. apply runs_unwind. fields.
    eapply runs_lift_last;
      [eapply (runs_uninitialized_value_construct_n n _ a [] []); [done|]| |].
    { simpl. by rewrite Hm1, lookup_insert_eq, app_nil_r. }
    { simpl. intros m' Hm'.
      eapply runs_lift_last; [eapply (runs_RawMemory_dtor _ (MkRawMemory _ _))|..];
        simpl.
      - by rewrite Hm', Hm1, lookup_insert_eq.
      - done.
      - intros _ m'' ->. split; [done|].
        rewrite Hm', Hm1, delete_insert_eq. by apply delete_id. }
    intros [] m2 Hm2. simpl in Hm2. rewrite app_nil_r, Hm1, insert_insert_eq in Hm2.
    eapply runs_put_vec. split; [|done]. exists (Some a).
    split_and!; simpl; [|done..].
    eapply represents_intro; simpl;
      [apply lookup_insert_eq|by rewrite length_replicate
      |by rewrite length_replicate|done|by rewrite Hm2, lookup_insert_eq|].
    rewrite length_replicate, Nat.sub_diag, app_nil_r. by rewrite fmap_replicate.
  - destruct Hm1 as [-> Hm1].
    apply runs_bind. apply runs_unwind. fields.
    eapply runs_lift_last;
      [apply runs_uninitialized_value_construct_n_0|done|].
    intros [] ? ->.
    eapply runs_put_vec. split; [|done]. exists None. simpl.
    split_and!; [|done..].
    split_and!; simpl; [apply lookup_insert_eq|done..].
Qed.

Lemma Vector_copy_ctor_runs s this other b l cap :
  represents s other b l cap →
  is_size_t (length l * sizeof_T) →
  runs s
    (λ _ s', ∃ b',
       vectors s' = <[this := MkVector (MkRawMemory b' (length l)) (length l)]>
                      (vectors s)
       ∧ match b' with
         | None => l = [] ∧ heap (mem s') = heap (mem s)
         | Some a' => 0 < length l ∧ heap (mem s) !! a' = None
                      ∧ heap (mem s') = <[a' := Some <$> l]> (heap (mem s))
         end)
    (λ s', vectors s' = vectors s ∧ heap (mem s') = heap (mem s))
    (Vector_copy_ctor this other s).
Proof.
  intros (Hv & Hle & Hb) Hfit. unfold Vector_copy_ctor.
  eapply runs_get_vec; [done|]. fields.
  eapply runs_lift_bind; [by apply runs_RawMemory_ctor|done|].
  intros [[a'|] n'] m1 [Hn' Hm1]; simpl in Hn', Hm1; subst n'.
  - destruct Hm1 as (Hn & Hfresh & Hm1).
    destruct b as [a|]; [|lia]. destruct Hb as [Hcap Hblk].
    assert (a ≠ a') by congruence.
    apply runs_bind. apply runs_unwind. fields.
    eapply runs_lift_last;
      [eapply (runs_uninitialized_copy_n l _ a a' [] _ [] []); [done..| |]| |].
    { simpl. by rewrite Hm1, lookup_insert_ne by done. }
    { simpl. by rewrite Hm1, lookup_insert_eq, app_nil_r. }
    { simpl. intros m' Hm'.
      eapply runs_lift_last; [eapply (runs_RawMemory_dtor _ (MkRawMemory _ _))|..];
        simpl.
      - by rewrite Hm', Hm1, lookup_insert_eq.
      - done.
      - intros _ m'' ->. split; [done|].
        rewrite Hm', Hm1, delete_insert_eq. by apply delete_id. }
    intros [] m2 Hm2. simpl in Hm2. rewrite app_nil_r, Hm1, insert_insert_eq in Hm2.
    eapply runs_put_vec. split; [|done]. exists (Some a'). by split_and!.
  - destruct Hm1 as [Hl0 Hm1]. destruct l; [|done].
    apply runs_bind. apply runs_unwind. fields.
    eapply runs_lift_last; [apply runs_uninitialized_copy_n_0|done|].
    intros [] ? ->.
    eapply runs_put_vec. split; [|done]. exists None. by split_and!.
Qed.

End Construction_proofs.

Lemma pow2_next e c : is_pow2 c → 2 ^ e < c → 2 ^ S e ≤ c.
Proof.
  intros [f ->] Hlt. destruct (decide (f ≤ e)) as [Hfe|Hfe].
  - pose proof (Nat.pow_le_mono_r 2 f e). lia.
  - apply Nat.pow_le_mono_r; lia.
Qed.

Lemma least_pow2_above_1 : least_pow2_above 1 1.
Proof.
  split_and!; [by exists 0|done|]. intros c [e ->] _.
  pose proof (Nat.pow_le_mono_r 2 0 e). simpl in *. lia.
Qed.

(** Growth keeps the capacity the least power of two above the size. *)
Lemma least_pow2_above_step k cap :
  0 < k → least_pow2_above k cap →
  least_pow2_above (k + 1) (if decide (k = cap) then doubled k else cap).
Proof.
  intros Hk (Hp & Hle & Hmin). case_decide as Hfull.
  - subst cap. unfold doubled. rewrite decide_False by lia.
    destruct Hp as [e He]. split_and!.
    + exists (S e). rewrite Nat.pow_succ_r', He. lia.
    + lia.
    + intros c Hc Hkc. rewrite He, Nat.mul_comm, <-Nat.pow_succ_r'.
      apply pow2_next; [done|]. lia.
  - split_and!; [done|lia|]. intros c Hc Hkc. apply Hmin; [done|lia].
Qed.

(** The least power of two above [k] is below [2 * k]. *)
Lemma least_pow2_above_lt k c : 0 < k → least_pow2_above k c → c < 2 * k.
Proof.
  intros Hk ([e ->] & Hle & Hmin). destruct e as [|e]; [simpl; lia|].
  rewrite Nat.pow_succ_r'. destruct (decide (k ≤ 2 ^ e)) as [Hke|]; [|lia].
  specialize (Hmin (2 ^ e) ltac:(by exists e) Hke).
  rewrite Nat.pow_succ_r' in Hmin.
  pose proof (Nat.pow_nonzero 2 e). lia.
Qed.

Section Append_proofs.
Context {T : Type} `{Element T} `{Library}.
Implicit Types (s : Machine T) (l : list T).

Lemma append_runs s this b l cap how x :
  represents s this b l cap →
  is_size_t cap →
  (length l = cap → is_size_t (doubled (length l) * sizeof_T)) →
  runs s
    (λ _ s', ∃ b', represents s' this b' (l ++ [x])
                     (if decide (length l = cap) then doubled (length l) else cap))
    (λ s', vectors s' = vectors s
           ∧ (heap (mem s') = heap (mem s)
              ∨ (nothrow_move_constructible = false
                 ∧ copy_constructible = false)))
    (append this how x s).
Proof.
  intros Hrep Hsz Hfit.
  assert (∀ cm, constructs_at_end this x cm →
            runs s
              (λ _ s', ∃ b', represents s' this b' (l ++ [x])
                 (if decide (length l = cap) then doubled (length l) else cap))
              (λ s', vectors s' = vectors s
                     ∧ (heap (mem s') = heap (mem s)
                        ∨ (nothrow_move_constructible = false
                           ∧ copy_constructible = false)))
              ((PushBackU this cm;; mret ()) s)) as Hgen.
  { intros cm Hcm. apply runs_bind.
    eapply runs_mono; [by eapply PushBackU_runs|..]; simpl; [|done].
    intros _ s' Hs'. split; [|done].
    destruct (decide (length l = cap)).
    - destruct Hs' as (a' & _ & ? & _). eauto.
    - destruct Hs' as [? _]. eauto. }
  destruct how; simpl.
  - apply Hgen, PushBack_constructs.
  - apply Hgen, PushBack_rv_constructs.
  - apply Hgen, EmplaceBack_constructs.
Qed.

(** The capacities read after each append, from any vector whose capacity is
    the least power of two above its size (or 0 when it is empty). *)
Lemma append_all_runs ops : ∀ s this b l cap,
  represents s this b l cap →
  (l = [] ∧ cap = 0) ∨ (0 < length l ∧ least_pow2_above (length l) cap) →
  is_size_t (2 * (length l + length ops) * sizeof_T) →
  runs s
    (λ caps s',
       length caps = length ops
       ∧ rising cap caps
       ∧ (∀ k c, caps !! k = Some c → least_pow2_above (length l + S k) c)
       ∧ ∃ b', represents s' this b' (l ++ ops.*2) (default cap (last caps)))
    (λ _, True)
    (append_all this ops s).
Proof.
  induction ops as [|[how x] ops IH]; intros s this b l cap Hrep Hinv Hfit;
    simpl.
  - split; [|done]. split_and!; [done..| |].
    + intros k c Hk. done.
    + exists b. by rewrite app_nil_r.
  - pose proof sizeof_T_pos as Hsp.
    assert (cap ≤ 2 * length l) as Hcap2.
    { destruct Hinv as [[-> ->]|[Hl Hinv]]; [simpl; lia|].
      pose proof (least_pow2_above_lt _ _ Hl Hinv). lia. }
    simpl in Hfit.
    eapply runs_seq; [eapply append_runs; [done|..]|done|].
    { eapply is_size_t_le; [|exact Hfit]. nia. }
    { intros _. eapply is_size_t_le; [|exact Hfit].
      unfold doubled. case_decide; nia. }
    intros [] s1 [b1 Hrep1].
    set (cap1 := if decide (length l = cap) then doubled (length l) else cap)
      in *.
    assert (cap ≤ cap1 ∧ least_pow2_above (length l + 1) cap1) as [Hup Hinv1].
    { destruct Hinv as [[-> ->]|[Hpos Hinv]].
      - unfold cap1. simpl. split; [lia|]. apply least_pow2_above_1.
      - split; [|by apply least_pow2_above_step].
        unfold cap1. case_decide; [|done]. pose proof (doubled_gt (length l)).
        lia. }
    eapply runs_Capacity; [by apply Hrep1|]. fields.
    apply runs_bind.
    eapply runs_mono; [eapply (IH s1 this b1 (l ++ [x]) cap1 Hrep1)|..].
    + right. rewrite length_app. simpl. split; [lia|done].
    + rewrite length_app. simpl.
      eapply is_size_t_le; [|exact Hfit]. nia.
    + simpl. intros caps s2 (Hlen & Hrise & Hcaps & b2 & Hrep2).
      split; [|done].
      split; [by simpl; rewrite Hlen|]. split; [by split|]. split.
      * intros [|k] c Hk; simplify_eq/=; [done|].
        apply Hcaps in Hk. rewrite length_app in Hk. simpl in Hk.
        by replace (length l + S (S k)) with (length l + 1 + S k) by lia.
      * exists b2. rewrite <-app_assoc in Hrep2. simpl in Hrep2.
        destruct caps as [|c caps]; [done|].
        rewrite last_cons_cons.
        destruct (last (c :: caps)) eqn:Hlast; [exact Hrep2|].
        by apply last_None in Hlast.
    + done.
Qed.

End Append_proofs.

Section Assignment_proofs.
Context {T : Type} `{Element T} `{Library}.
#[local] Arguments destroy_n : simpl never.
#[local] Arguments CopyOrMove : simpl never.
Implicit Types (s : Machine T) (l : list T).

(** [Swap] on two distinct objects exchanges them. *)
Lemma Swap_eq s this other va vb :
  this ≠ other →
  vectors s !! this = Some va → vectors s !! other = Some vb →
  Swap this other s
  = Done () (MkMachine (mem s) (<[other := va]> (<[this := vb]> (vectors s)))).
Proof.
  intros Hne Ha Hb. destruct va as [[ba ca] na], vb as [[bb cb] nb].
  unfold Swap, mbind, prog_bind, get_vec, put_vec. simpl.
  rewrite Ha, Hb. simpl.
  rewrite lookup_insert_ne, lookup_insert_eq by congruence. simpl.
  rewrite lookup_insert_eq. simpl. f_equal. f_equal.
  apply map_eq. intros k.
  repeat (rewrite lookup_insert; case_decide; simplify_eq); done.
Qed.

Lemma Swap_self_eq s this v :
  vectors s !! this = Some v →
  Swap this this s = Done () (MkMachine (mem s) (<[this := v]> (vectors s))).
Proof.
  intros Hv. destruct v as [[b c] n].
  unfold Swap, mbind, prog_bind, get_vec, put_vec. simpl.
  do 4 (rewrite ?Hv, ?lookup_insert_eq; simpl).
  by rewrite !insert_insert_eq.
Qed.

Lemma Vector_move_assign_eq s this rhs va vb :
  this ≠ rhs →
  vectors s !! this = Some va → vectors s !! rhs = Some vb →
  Vector_move_assign this rhs s
  = Done () (MkMachine (mem s) (<[rhs := va]> (<[this := vb]> (vectors s)))).
Proof.
  intros Hne Ha Hb. unfold Vector_move_assign. rewrite decide_True by done.
  by apply Swap_eq.
Qed.

Lemma Vector_move_assign_self_eq s this :
  Vector_move_assign this this s = Done () s.
Proof. unfold Vector_move_assign. by rewrite decide_False by (intros ?; done). Qed.

Lemma Vector_move_ctor_eq s this other v :
  this ≠ other →
  vectors s !! other = Some v →
  Vector_move_ctor this other s
  = Done () (MkMachine (mem s)
               (<[other := MkVector (MkRawMemory None 0) 0]>
                  (<[this := v]> (vectors s)))).
Proof.
  intros Hne Hv. destruct v as [[b c] n].
  unfold Vector_move_ctor, mbind, prog_bind, get_vec, put_vec. simpl.
  rewrite Hv. simpl.
  rewrite lookup_insert_ne, lookup_insert_eq by congruence. simpl.
  f_equal. f_equal. apply map_eq. intros k.
  repeat (rewrite lookup_insert; case_decide; simplify_eq); done.
Qed.

Lemma Vector_dtor_runs s this b l cap :
  represents s this b l cap →
  runs s (λ _ s', vectors s' = delete this (vectors s)
                  ∧ heap (mem s') = released b (heap (mem s)))
         (λ _, False)
         (Vector_dtor this s).
Proof.
  intros (Hv & Hle & Hb). unfold Vector_dtor.
  eapply runs_get_vec; [done|]. fields.
  destruct b as [a|].
  - destruct Hb as [Hcap Hblk].
    eapply runs_lift_bind;
      [by eapply (runs_destroy_n l _ a [])|done|].
    intros [] m1 Hm1. simpl in Hm1.
    eapply runs_lift_bind;
      [eapply (runs_RawMemory_dtor _ (MkRawMemory (Some a) cap))|done|].
    { simpl. by rewrite Hm1, lookup_insert_eq. }
    intros [] m2 Hm2. simpl in Hm2. split; [|done]. simpl.
    split; [done|]. by rewrite Hm2, Hm1, delete_insert_eq.
  - subst cap. destruct l; [|simpl in *; lia].
    eapply runs_lift_bind; [apply runs_destroy_n_0|done|].
    intros [] ? ->.
    eapply runs_lift_bind;
      [by eapply (runs_RawMemory_dtor _ (MkRawMemory None 0))|done|].
    intros [] m2 Hm2. simpl in Hm2. by split.
Qed.

Lemma runs_std_copy_empty (m : Mem T) b i d Q E :
  Q () m → runs m Q E (std_copy (Ptr b i) (Ptr b i) d m).
Proof.
  intros HQ. unfold std_copy, range_length, ptr_le. simpl.
  rewrite !bool_decide_eq_true_2 by done. simpl.
  unfold mbind, prog_bind. simpl. rewrite Nat.sub_diag. simpl. by split.
Qed.

Lemma runs_std_copy vals (m : Mem T) sa da spost olds dpost k :
  sa ≠ da → k = length vals → length olds = k →
  heap m !! sa = Some ((Some <$> vals) ++ spost) →
  heap m !! da = Some ((Some <$> olds) ++ dpost) →
  runs m (λ _ m', heap m' = <[da := (Some <$> vals) ++ dpost]> (heap m))
       (λ m', ∃ ws, length ws = k
                    ∧ heap m' = <[da := (Some <$> ws) ++ dpost]> (heap m))
       (std_copy (Ptr (Some sa) 0) (Ptr (Some sa) k) (Ptr (Some da) 0) m).
Proof.
  intros Hne -> Hlen Hs Hd. unfold std_copy. apply runs_bind.
  eapply runs_range_length; [lia|]. rewrite Nat.sub_0_r.
  by eapply (runs_copy_n_assign vals m sa da [] spost [] olds dpost).
Qed.

Lemma OpAssign_runs s this rhs b l cap br lr capr :
  represents s this b l cap → represents s rhs br lr capr →
  length lr ≤ cap →
  (∀ a, b = Some a → br ≠ Some a) →
  runs s
    (λ _ s', vectors s' = vectors s
             ∧ heap (mem s')
               = match b with
                 | Some a => <[a := (Some <$> lr)
                                    ++ replicate (cap - length lr) None]>
                               (heap (mem s))
                 | None => heap (mem s)
                 end)
    (λ s', vectors s' = vectors s)
    (OpAssignRhsSizeLessCap this rhs s).
Proof.
  intros (Hv & Hle & Hb) (Hvr & Hler & Hbr) Hfit Hsep.
  unfold OpAssignRhsSizeLessCap.
  eapply runs_get_vec; [done|]. eapply runs_get_vec; [done|]. fields.
  eapply runs_plus_bind; [simpl; lia|]. fields.
  destruct b as [a|].
  2: { (* an empty target without a buffer *)
    subst cap. destruct l; [|simpl in *; lia]. destruct lr; [|simpl in *; lia].
    simpl.
    eapply (runs_lift_bind _ _ _ (λ _ m', m' = mem s) (λ _, False));
      [by apply runs_std_copy_empty|done|].
    intros [] ? ->. apply runs_bind. by split. }
  destruct Hb as [Hcap Hblk].
  destruct (decide (length lr ≤ length l)) as [Hshrink|Hgrow].
  - destruct (split_upto l (length lr) Hshrink) as (lc & lt & -> & Hlc).
    rewrite length_app in *. rewrite Nat.min_l by lia.
    rewrite fmap_app, <-app_assoc in Hblk.
    eapply (runs_lift_bind _ _ _
      (λ _ m', heap m' = <[a := (Some <$> lr) ++ (Some <$> lt)
                                 ++ replicate (cap - (length lc + length lt)) None]>
                           (heap (mem s)))
      (λ _, True)).
    { destruct br as [ar|].
      - destruct Hbr as [_ Hblkr].
        eapply runs_mono;
          [eapply (runs_std_copy lr _ ar a _ lc); [|done|done|done|done]|..];
          [|done..].
        specialize (Hsep a eq_refl). congruence.
      - subst capr. destruct lr; [|simpl in *; lia]. destruct lc; [|done].
        apply runs_std_copy_empty. simpl. symmetry. by apply insert_id. }
    { done. }
    intros [] m1 Hm1.
    destruct (decide (length lr < length lc + length lt)) as [Htail|Hnone].
    + apply runs_bind. eapply runs_plus_bind; [simpl; lia|]. fields.
      eapply runs_lift_last;
        [eapply (runs_destroy_n lt _ a (Some <$> lr));
           [..|simpl; by rewrite Hm1, lookup_insert_eq]
        |done|].
      { by rewrite length_fmap. }
      { lia. }
      intros [] m2 Hm2. simpl in Hm2.
      rewrite decide_False by lia. split; [|done]. simpl. split; [done|].
      rewrite Hm2, Hm1, insert_insert_eq. do 2 f_equal.
      rewrite <-replicate_add. f_equal. lia.
    + apply runs_bind. split; [|done]. rewrite decide_False by lia.
      split; [|done]. simpl. split; [done|].
      assert (length lt = 0) as Hlt by lia. destruct lt; [|done].
      rewrite Hm1. simpl. do 3 f_equal. simpl in *. lia.
  - assert (length l < length lr) as Hlt by lia.
    destruct (split_upto lr (length l)) as (rc & rt & -> & Hrc); [lia|].
    rewrite length_app in *. rewrite Nat.min_r by lia.
    destruct br as [ar|]; [|lia]. destruct Hbr as [_ Hblkr].
    pose proof (Hsep a eq_refl) as Hne.
    rewrite fmap_app, <-app_assoc in Hblkr.
    eapply runs_lift_bind;
      [eapply (runs_std_copy rc _ ar a _ l); [congruence|done|done|done|done]
      |done|].
    intros [] m1 Hm1. simpl in Hm1.
    rewrite (decide_False (P := length rc + length rt < length l)) by lia.
    apply runs_bind. split; [|done].
    rewrite decide_True by lia.
    eapply runs_plus_bind; [simpl; lia|]. eapply runs_plus_bind; [simpl; lia|].
    fields.
    eapply runs_lift_last;
      [eapply (runs_uninitialized_copy_n rt _ ar a (Some <$> rc) _ (Some <$> rc)
                 (replicate (cap - (length rc + length rt)) None))|done|].
    { congruence. }
    { rewrite length_fmap. lia. }
    { rewrite length_fmap. lia. }
    { lia. }
    { simpl. rewrite Hm1, lookup_insert_ne by congruence. done. }
    { simpl. rewrite Hm1, lookup_insert_eq. do 2 f_equal.
      rewrite <-replicate_add. f_equal. lia. }
    intros [] m2 Hm2. simpl in Hm2. simpl. split; [done|].
    rewrite Hm2, Hm1, insert_insert_eq. by rewrite fmap_app, <-app_assoc.
Qed.

Lemma runs_fresh_vec {B} (f : nat → prog (Machine T) B) s Q E :
  runs s Q E (f (fresh (dom (vectors s))) s) →
  runs s Q E ((fresh_vec ≫= f) s).
Proof. done. Qed.

(** A step whose outcome is known and that leaves the oracle alone. *)
Lemma runs_eq_bind {A B} (c : prog (Machine T) A) (f : A → prog (Machine T) B)
    s a s' Q E :
  c s = Done a s' → mem s' = mem s →
  runs s' Q E (f a s') →
  runs s Q E ((c ≫= f) s).
Proof.
  intros Hc Hmem Hf. apply runs_bind. rewrite Hc. split; [done|].
  unfold oracle_of, Machine_oracle. by rewrite Hmem.
Qed.

Lemma Vector_copy_assign_runs s this rhs b l cap br lr capr :
  this ≠ rhs →
  represents s this b l cap → represents s rhs br lr capr →
  (∀ a, b = Some a → br ≠ Some a) →
  is_size_t (length lr * sizeof_T) →
  runs s
    (λ _ s',
       if decide (cap < length lr) then
         ∃ a', heap (mem s) !! a' = None
               ∧ vectors s' = <[this := MkVector
                                  (MkRawMemory (Some a') (length lr))
                                  (length lr)]> (vectors s)
               ∧ heap (mem s') = <[a' := Some <$> lr]>
                                   (released b (heap (mem s)))
       else vectors s' = <[this := MkVector (MkRawMemory b cap) (length lr)]>
                           (vectors s)
            ∧ heap (mem s')
              = match b with
                | Some a => <[a := (Some <$> lr)
                                   ++ replicate (cap - length lr) None]>
                              (heap (mem s))
                | None => heap (mem s)
                end)
    (λ s', vectors s' = vectors s
           ∧ (cap < length lr → heap (mem s') = heap (mem s)))
    (Vector_copy_assign this rhs s).
Proof.
  intros Hne Hrep Hrepr Hsep Hfit.
  pose proof Hrep as (Hv & Hle & Hb). pose proof Hrepr as (Hvr & Hler & Hbr).
  destruct (decide (cap < length lr)) as [Hgrow|Hfits];
    unfold Vector_copy_assign; rewrite decide_False by done;
    (eapply runs_get_vec; [done|]); (eapply runs_Capacity; [done|]); fields.
  - rewrite decide_True by done. apply runs_bind.
    apply runs_fresh_vec. set (tc := fresh (dom (vectors s))).
    assert (vectors s !! tc = None) as Htc
      by (apply not_elem_of_dom, is_fresh).
    assert (tc ≠ this ∧ tc ≠ rhs) as [Htc1 Htc2] by (split; congruence).
    eapply runs_seq; [by eapply (Vector_copy_ctor_runs _ tc rhs)| |].
    { simpl. by intros s' [-> ->]. }
    intros [] s1 (b' & Hv1 & Hb'). destruct b' as [a'|]; [|destruct Hb' as [-> _]; simpl in *; lia].
    destruct Hb' as (_ & Hfresh & Hh1).
    assert (b ≠ Some a') as Hba'.
    { intros ->. destruct Hb. congruence. }
    eapply runs_eq_bind.
    { eapply (Swap_eq s1 this tc); [done| |].
      - by rewrite Hv1, lookup_insert_ne.
      - by rewrite Hv1, lookup_insert_eq. }
    { done. }
    eapply runs_mono; [eapply (Vector_dtor_runs _ tc b l cap)|..].
    { split_and!; simpl; [by rewrite lookup_insert_eq|done|].
      destruct b as [a|]; [|done]. destruct Hb. split; [done|].
      rewrite Hh1, lookup_insert_ne by congruence. done. }
    2: { done. }
    simpl. intros [] s3 [Hv3 Hh3].
    assert (vectors s3
            = <[this := MkVector (MkRawMemory (Some a') (length lr)) (length lr)]>
                (vectors s)) as Hv3'.
    { rewrite Hv3, Hv1. apply map_eq. intros k.
      repeat (rewrite ?lookup_insert, ?lookup_delete; case_decide; simplify_eq);
        done. }
    eapply runs_get_vec; [by rewrite Hv3', lookup_insert_ne|].
    eapply runs_get_vec; [by rewrite Hv3', lookup_insert_eq|]. fields.
    split; [|done]. simpl. exists a'. split_and!; [done| |].
    + by rewrite Hv3', insert_insert_eq.
    + rewrite Hh3, Hh1. destruct b as [a|]; simpl; [|done].
      assert (a ≠ a') by congruence. heap_eq.
  - rewrite decide_False by done. apply runs_bind.
    eapply runs_mono; [eapply OpAssign_runs; [done|done|lia|done]|..]; simpl.
    2: { intros s' ->. split; [done|]. lia. }
    intros [] s1 [Hv1 Hh1].
    eapply runs_get_vec; [by rewrite Hv1|].
    eapply runs_get_vec; [by rewrite Hv1|]. fields.
    split; [|done]. simpl. split; [by rewrite Hv1|done].
Qed.

Lemma Vector_copy_assign_self_eq s this :
  Vector_copy_assign this this s = Done () s.
Proof. unfold Vector_copy_assign. by rewrite decide_True. Qed.

End Assignment_proofs.

(** ** The state invariants *)

Lemma bind_assoc {S A B C} (m : prog S A) (f : A → prog S B)
    (g : B → prog S C) s :
  ((m ≫= f) ≫= g) s = (m ≫= (λ a, f a ≫= g)) s.
Proof. unfold mbind, prog_bind. by destruct (m s). Qed.

Lemma ensures_seq {S A B} (m : prog S A) (f : A → prog S B) Q1 E1 Q E s :
  ensures Q1 E1 True (m s) →
  (∀ a s', Q1 a s' → ensures Q E True (f a s')) →
  (∀ s', E1 s' → E s') →
  ensures Q E True ((m ≫= f) s).
Proof.
  intros Hm Hf HE. apply ensures_bind.
  eapply ensures_mono; [exact Hm|..]; auto.
Qed.

Lemma RawMemory_inv_default : RawMemory_inv (MkRawMemory None 0).
Proof. unfold RawMemory_inv. simpl. split; [done|lia]. Qed.

Lemma Vector_inv_intro b cap n :
  RawMemory_inv (MkRawMemory b cap) → n ≤ cap →
  Vector_inv (MkVector (MkRawMemory b cap) n).
Proof. intros. split; [done|]. simpl. lia. Qed.

Section Invariant_proofs.
Context {T : Type} `{Element T} `{Library}.
Implicit Types (s : Machine T).

(** The constructor of [RawMemory] establishes the invariant, whatever the
    count; the block it gets has at most that many slots. *)
Lemma RawMemory_ctor_inv n (m : Mem T) :
  ensures (λ r m', RawMemory_inv r ∧ capacity_ r = n
                   ∧ ∀ a, buffer_ r = Some a →
                          ∃ k, extent m' a = Some k ∧ k ≤ n)
          (λ _, True) True
          (RawMemory_ctor n m).
Proof.
  pose proof (runs_RawMemory_ctor_slots m n) as Hr.
  destruct (RawMemory_ctor n m) as [[b c] m'|m'|]; simpl in *; [|done..].
  destruct Hr as [[-> Hb] _]. unfold RawMemory_inv. simpl.
  destruct b as [a|].
  - destruct Hb as (Hn & _ & Hm'). split; [split; [lia|done]|]. split; [done|].
    intros ? [= <-]. unfold extent. rewrite Hm', lookup_insert_eq. simpl.
    eexists. split; [done|]. rewrite length_replicate. apply bytes_le.
  - destruct Hb as [-> _]. split; [split; [done|lia]|]. by split.
Qed.

Lemma ensures_get_vec {B} this (f : Vector → prog (Machine T) B) s Q E :
  (∀ b cap n, vectors s !! this = Some (MkVector (MkRawMemory b cap) n) →
              ensures Q E True (f (MkVector (MkRawMemory b cap) n) s)) →
  ensures Q E True ((get_vec this ≫= f) s).
Proof.
  intros Hf. unfold mbind, prog_bind, get_vec.
  destruct (vectors s !! this) as [[[b cap] n]|] eqn:Hv; [|done]. by apply Hf.
Qed.

Lemma ensures_put_vec {B} this v (f : () → prog (Machine T) B) s Q E U :
  ensures Q E U (f () (MkMachine (mem s) (<[this := v]> (vectors s)))) →
  ensures Q E U ((put_vec this v ≫= f) s).
Proof. done. Qed.

Lemma ensures_lift_frame {A B} (c : prog (Mem T) A)
    (f : A → prog (Machine T) B) s Q E :
  (∀ a m', ensures Q E True (f a (MkMachine m' (vectors s)))) →
  (∀ m', E (MkMachine m' (vectors s))) →
  ensures Q E True ((lift c ≫= f) s).
Proof.
  intros Hf HE. unfold mbind, prog_bind, lift.
  destruct (c (mem s)); simpl; auto.
Qed.

Lemma ensures_lift_frame_last {A} (c : prog (Mem T) A) s
    (Q : A → Machine T → Prop) E :
  (∀ a m', Q a (MkMachine m' (vectors s))) →
  (∀ m', E (MkMachine m' (vectors s))) →
  ensures Q E True (lift c s).
Proof. intros HQ HE. unfold lift. destruct (c (mem s)); simpl; auto. Qed.

Lemma ensures_lift_ctor {B} n (f : RawMemory → prog (Machine T) B) s Q E :
  (∀ b m', RawMemory_inv (MkRawMemory b n) →
           (∀ a, b = Some a → ∃ k, extent m' a = Some k ∧ k ≤ n) →
           ensures Q E True (f (MkRawMemory b n) (MkMachine m' (vectors s)))) →
  (∀ m', E (MkMachine m' (vectors s))) →
  ensures Q E True ((lift (RawMemory_ctor n) ≫= f) s).
Proof.
  intros Hf HE. unfold mbind, prog_bind, lift.
  pose proof (RawMemory_ctor_inv n (mem s)) as Hc.
  destruct (RawMemory_ctor n (mem s)) as [[b c] m'|m'|]; simpl in *; [|auto..].
  destruct Hc as (? & -> & ?). by apply Hf.
Qed.

(** A step on memory with its specification at hand. *)
Lemma ensures_lift_with {A B} (c : prog (Mem T) A)
    (f : A → prog (Machine T) B) s Q1 E1 Q E :
  ensures Q1 E1 True (c (mem s)) →
  (∀ a m', Q1 a m' → ensures Q E True (f a (MkMachine m' (vectors s)))) →
  (∀ m', E (MkMachine m' (vectors s))) →
  ensures Q E True ((lift c ≫= f) s).
Proof.
  intros Hc Hf HE. unfold mbind, prog_bind, lift.
  destruct (c (mem s)); simpl in *; auto.
Qed.

Lemma ensures_assert {B} (b : bool) (f : () → prog (Machine T) B) s Q E :
  (b = true → ensures Q E True (f () s)) →
  ensures Q E True ((assert_ b ≫= f) s).
Proof. destruct b; [|done]. intros Hf. by apply Hf. Qed.

Lemma ensures_plus {B} r off (f : ptr → prog (Machine T) B) s Q E :
  (off ≤ capacity_ r → ensures Q E True (f (Ptr (buffer_ r) off) s)) →
  ensures Q E True ((RawMemory_plus r off ≫= f) s).
Proof.
  intros Hf. unfold RawMemory_plus. rewrite bind_assoc.
  apply ensures_assert. intros Hb%bool_decide_eq_true. by apply Hf.
Qed.

Lemma ensures_plus_last r off s (Q : ptr → Machine T → Prop) E :
  (off ≤ capacity_ r → Q (Ptr (buffer_ r) off) s) →
  ensures Q E True (RawMemory_plus r off s).
Proof.
  intros HQ. unfold RawMemory_plus. apply ensures_assert.
  intros Hb%bool_decide_eq_true. by apply HQ.
Qed.

Lemma ensures_ptr_sub {B} p k (f : ptr → prog (Machine T) B) s Q E :
  (k ≤ index p → ensures Q E True (f (Ptr (base p) (index p - k)) s)) →
  ensures Q E True ((ptr_sub p k ≫= f) s).
Proof.
  intros Hf. unfold ptr_sub, mbind, prog_bind.
  destruct (decide (k ≤ index p)); [|done]. by apply Hf.
Qed.

Lemma ensures_distance {B} p q (f : nat → prog (Machine T) B) s Q E :
  (ptr_le p q = true → ensures Q E True (f (index q - index p) s)) →
  ensures Q E True ((std_distance p q ≫= f) s).
Proof.
  intros Hf. unfold std_distance, mbind, prog_bind.
  destruct (ptr_le p q); [|done]. by apply Hf.
Qed.

Lemma ensures_unwind_bind {A B} (body : prog (Machine T) A) cleanup
    (f : A → prog (Machine T) B) s Q E :
  ensures (λ a s', ensures Q E True (f a s'))
          (λ s', ensures (λ _ s'', E s'') (λ _, True) True (cleanup s'))
          True (body s) →
  ensures Q E True ((unwind body cleanup ≫= f) s).
Proof.
  intros Hb. apply ensures_bind. apply ensures_unwind.
  eapply ensures_mono; [exact Hb|..]; auto.
Qed.

Lemma Machine_inv_lookup s this v :
  Machine_inv s → vectors s !! this = Some v → Vector_inv v.
Proof. intros Hs Hv. by eapply (map_Forall_lookup_1 _ _ _ _ Hs). Qed.

Lemma Machine_inv_insert (m : Mem T) vs this v :
  Vector_inv v → map_Forall (λ _ v, Vector_inv v) vs →
  Machine_inv (MkMachine m (<[this := v]> vs)).
Proof. intros. by apply map_Forall_insert_2. Qed.

Lemma Machine_inv_delete (m : Mem T) vs this :
  map_Forall (λ _ v, Vector_inv v) vs →
  Machine_inv (MkMachine m (delete this vs)).
Proof. intros. by apply map_Forall_delete. Qed.

Lemma Machine_inv_mem (m : Mem T) s :
  Machine_inv s → Machine_inv (MkMachine m (vectors s)).
Proof. done. Qed.

End Invariant_proofs.

(** One step of a run that is not a step on memory. *)
Ltac inv_pure :=
  lazymatch goal with
  | |- ensures _ _ _ (((_ ≫= _) ≫= _) _) => rewrite bind_assoc
  | |- ensures _ _ _ ((get_vec _ ≫= _) _) =>
      apply ensures_get_vec; intros ? ? ? ?
  | |- ensures _ _ _ ((put_vec _ _ ≫= _) _) => apply ensures_put_vec
  | |- ensures _ _ _ ((lift (RawMemory_ctor _) ≫= _) _) =>
      apply ensures_lift_ctor; [intros ? ? ? ?|intros ?]
  | |- ensures _ _ _ ((assert_ _ ≫= _) _) => apply ensures_assert; intros ?
  | |- ensures _ _ _ ((RawMemory_plus _ _ ≫= _) _) =>
      apply ensures_plus; intros ?
  | |- ensures _ _ _ ((ptr_sub _ _ ≫= _) _) => apply ensures_ptr_sub; intros ?
  | |- ensures _ _ _ ((std_distance _ _ ≫= _) _) =>
      apply ensures_distance; intros ?
  | |- ensures _ _ _ ((unwind _ _ ≫= _) _) => apply ensures_unwind_bind
  | |- ensures _ _ _ ((mret _ ≫= _) _) => apply ensures_bind; simpl
  | |- ensures _ _ _ ((if decide ?P then _ else _) _) =>
      destruct (decide P)
  | |- ensures _ _ _ (((if decide ?P then _ else _) ≫= _) _) =>
      destruct (decide P)
  end.

(** One step of a run, as far as the [Vector] objects are concerned. *)
Ltac inv_step :=
  first
    [ inv_pure
    | lazymatch goal with
      | |- ensures _ _ _ ((lift _ ≫= _) _) =>
          apply ensures_lift_frame; [intros ? ?|intros ?]
      | |- ensures _ _ _ (lift _ _) =>
          apply ensures_lift_frame_last; [intros ? ?|intros ?]
      end ].

(** Resolving a lookup in a store that was just updated. *)
Ltac inv_lookup H :=
  simpl in H;
  repeat (rewrite lookup_insert in H; case_decide);
  simplify_eq.

(** Bringing lookups in updated stores to lookups in the initial one. *)
Ltac inv_norm :=
  repeat match goal with
  | H : vectors (MkMachine _ _) !! _ = _ |- _ => progress simpl in H
  | H : <[_ := _]> _ !! _ = Some _ |- _ =>
      rewrite lookup_insert in H; case_decide; simplify_eq
  | H : delete _ _ !! _ = Some _ |- _ =>
      rewrite lookup_delete in H; case_decide; simplify_eq
  end.

(** The invariant of every vector that was read from the initial store. *)
Ltac inv_facts HI :=
  repeat match goal with
  | Hv : vectors ?s !! ?k = Some ?v |- _ =>
      lazymatch goal with
      | _ : Vector_inv v |- _ => fail
      | _ => pose proof (Machine_inv_lookup s k v HI Hv)
      end
  end.

(** Closing a goal that asks for the invariant of an updated store. *)
(** What is known of the sizes the code computes. *)
Ltac size_facts :=
  repeat match goal with
  | |- context [size_add ?a ?b] =>
      lazymatch goal with
      | _ : size_add a b ≤ a + b |- _ => fail
      | _ => pose proof (size_add_le a b)
      end
  | |- context [size_sub ?a ?b] =>
      lazymatch goal with
      | _ : b ≤ a → size_sub a b ≤ a - b |- _ => fail
      | _ => pose proof (size_sub_le a b)
      end
  end.

Ltac inv_close HI :=
  inv_norm; inv_facts HI;
  unfold Machine_inv; simpl;
  first
    [ done
    | apply map_Forall_lookup; intros ?k ?v ?Hk;
      inv_norm; inv_facts HI; try done;
      unfold Vector_inv, RawMemory_inv in *; simpl in *; size_facts;
      try (intuition (done || lia)) ].

(** ** Writes stay inside the blocks *)

Section Extents.
Context {T : Type} `{Element T} `{Library}.
Implicit Types (m : Mem T) (p : ptr).

Lemma same_extents_refl m : same_extents m m.
Proof. done. Qed.

Lemma same_extents_trans m1 m2 m3 :
  same_extents m1 m2 → same_extents m2 m3 → same_extents m1 m3.
Proof. intros H12 H23 a. by rewrite H23, H12. Qed.

Lemma same_extents_heap m m' : heap m' = heap m → same_extents m m'.
Proof. intros Hh a. unfold extent. by rewrite Hh. Qed.

Lemma same_extents_store m a blk i c o :
  heap m !! a = Some blk →
  same_extents m (MkMem (<[a := <[i := c]> blk]> (heap m)) o).
Proof.
  intros Ha a0. unfold extent. simpl.
  destruct (decide (a0 = a)) as [->|Hne].
  - rewrite lookup_insert_eq, Ha. simpl. by rewrite length_insert.
  - by rewrite lookup_insert_ne.
Qed.

Lemma reaches_same_extents m m' p k :
  same_extents m m' → reaches m' p k → reaches m p k.
Proof. intros Hs (a & n & ? & Hn & ?). exists a, n. by rewrite <-Hs. Qed.

Lemma reaches_le m p k k' : k' ≤ k → reaches m p k → reaches m p k'.
Proof. intros Hk (a & n & ? & ? & ?). exists a, n. split_and!; [done..|lia]. Qed.

Lemma reaches_S m p k :
  reaches m p 1 → k = 0 ∨ reaches m (p +ₚ 1) k → reaches m p (S k).
Proof.
  intros H1 [->|(a & n & Hb & Hn & Hk)]; [done|].
  exists a, n. unfold ptr_add in *. simpl in *. split_and!; [done..|lia].
Qed.

(** Sequencing. *)
Lemma stays_within_bind {A B} (c : prog (Mem T) A) (f : A → prog (Mem T) B)
    m (P Q : Prop) :
  stays_within m P (c m) →
  (∀ a m', same_extents m m' → P → stays_within m' Q (f a m')) →
  stays_within m (P ∧ Q) ((c ≫= f) m).
Proof.
  unfold stays_within, mbind, prog_bind. intros Hc Hf.
  destruct (c m) as [a m1|m1|]; simpl in *; [|done..].
  destruct Hc as [Hs HP]. specialize (Hf a m1 Hs HP).
  destruct (f a m1) as [b m2|m2|]; simpl in *; [| |done].
  - destruct Hf as [Hs' HQ]. split; [by eapply same_extents_trans|done].
  - by eapply same_extents_trans.
Qed.

Lemma stays_within_unwind {A} (body : prog (Mem T) A) cleanup m (P : Prop) :
  stays_within m P (body m) →
  (∀ m', same_extents m m' → stays_within m' True (cleanup m')) →
  stays_within m P (unwind body cleanup m).
Proof.
  unfold stays_within, unwind. intros Hb Hc.
  destruct (body m) as [a m1|m1|]; simpl in *; [done| |done].
  specialize (Hc m1 Hb).
  destruct (cleanup m1) as [[] m2|m2|]; simpl in *; [|done..].
  destruct Hc as [Hs _]. by eapply same_extents_trans.
Qed.

Lemma stays_within_mono {A} m (P Q : Prop) (r : outcome (Mem T) A) :
  stays_within m P r → (P → Q) → stays_within m Q r.
Proof.
  unfold stays_within. intros Hr HPQ.
  eapply ensures_mono; [exact Hr|..]; simpl; [|done..].
  intros _ m' [? ?]. auto.
Qed.

Lemma stays_within_ret {A} (a : A) m :
  stays_within m True ((mret a : prog (Mem T) A) m).
Proof. by split. Qed.

Lemma stays_within_tick m : stays_within m True (tick m).
Proof.
  unfold stays_within, tick. destruct (oracle m) as [|[] o]; simpl;
    (split || idtac); by try apply same_extents_heap.
Qed.

Lemma stays_within_load p m : stays_within m True (load p m).
Proof.
  unfold stays_within, load. repeat case_match; simpl; by try split.
Qed.

Lemma stays_within_store p c m : stays_within m (reaches m p 1) (store p c m).
Proof.
  unfold stays_within, store. destruct p as [[a|] i]; simpl; [|done].
  destruct (heap m !! a) as [blk|] eqn:Ha; [|done].
  case_decide; [|done]. simpl. split; [by apply same_extents_store|].
  exists a, (length blk). unfold extent. rewrite Ha. simpl.
  split_and!; [done..|lia].
Qed.

(** A step, with what the rest establishes brought back to the start. *)
Lemma stays_within_seq {A B} (c : prog (Mem T) A) (f : A → prog (Mem T) B)
    m (P Q R : Prop) :
  stays_within m P (c m) →
  (∀ a m', same_extents m m' → P → stays_within m' Q (f a m')) →
  (P → Q → R) →
  stays_within m R ((c ≫= f) m).
Proof.
  intros Hc Hf HR. eapply stays_within_mono;
    [by eapply stays_within_bind|]. intros [? ?]. auto.
Qed.

Lemma stays_within_reaches {A} m m' p k (r : outcome (Mem T) A) :
  same_extents m m' →
  stays_within m' (reaches m' p k) r → stays_within m' (reaches m p k) r.
Proof.
  intros Hs Hr. eapply stays_within_mono; [exact Hr|].
  by apply reaches_same_extents.
Qed.

Lemma stays_within_construct_at p x m :
  stays_within m (reaches m p 1) (construct_at p x m).
Proof.
  unfold construct_at.
  eapply stays_within_seq; [apply stays_within_tick| |by intros _ ?].
  intros [] m' Hs _. apply stays_within_reaches; [done|].
  apply stays_within_store.
Qed.

Lemma stays_within_move_construct_from p x m :
  stays_within m (reaches m p 1) (move_construct_from p x m).
Proof.
  unfold move_construct_from.
  eapply stays_within_seq; [| |by intros _ ?].
  - destruct nothrow_move_constructible;
      [apply stays_within_ret|apply stays_within_tick].
  - intros [] m' Hs _. apply stays_within_reaches; [done|].
    apply stays_within_store.
Qed.

Lemma stays_within_copy_construct_at p src m :
  stays_within m (reaches m p 1) (copy_construct_at p src m).
Proof.
  unfold copy_construct_at.
  eapply stays_within_seq; [apply stays_within_load| |by intros _ ?].
  intros v m' Hs _. apply stays_within_reaches; [done|].
  apply stays_within_construct_at.
Qed.

Lemma stays_within_move_construct_at p src m :
  stays_within m (reaches m p 1) (move_construct_at p src m).
Proof.
  unfold move_construct_at.
  eapply stays_within_seq; [apply stays_within_load| |by intros _ ?].
  intros v m' Hs _.
  eapply stays_within_seq;
    [apply stays_within_reaches; [done|];
     apply stays_within_move_construct_from| |by intros ? _].
  intros [] m2 Hs2 _. eapply stays_within_mono; [apply stays_within_store|done].
Qed.

Lemma stays_within_destroy_at p m : stays_within m True (destroy_at p m).
Proof.
  unfold destroy_at.
  eapply (stays_within_seq _ _ _ True True); [apply stays_within_load| |done].
  intros v m' Hs _. eapply stays_within_mono; [apply stays_within_store|done].
Qed.

Lemma stays_within_destroy_n n : ∀ p m, stays_within m True (destroy_n p n m).
Proof.
  induction n as [|n IH]; intros p m; simpl; [apply (stays_within_ret ())|].
  eapply (stays_within_seq _ _ _ True True);
    [apply stays_within_destroy_at| |done].
  intros [] m' _ _. apply IH.
Qed.

Lemma stays_within_uninitialized_copy_n n : ∀ src dst m,
  stays_within m (n = 0 ∨ reaches m dst n) (uninitialized_copy_n src n dst m).
Proof.
  induction n as [|n IH]; intros src dst m; simpl.
  - split; [done|by left].
  - eapply (stays_within_seq _ _ _ (reaches m dst 1)
              (n = 0 ∨ reaches m (dst +ₚ 1) n));
      [apply stays_within_copy_construct_at| |].
    + intros [] m' Hs H1. apply stays_within_unwind.
      * eapply stays_within_mono; [apply (IH (src +ₚ 1) (dst +ₚ 1) m')|].
        intros [?|?]; [by left|right]. by eapply reaches_same_extents.
      * intros m2 _. apply stays_within_destroy_at.
    + intros H1 Hn. right. by apply reaches_S.
Qed.

Lemma stays_within_uninitialized_move_n n : ∀ src dst m,
  stays_within m (n = 0 ∨ reaches m dst n) (uninitialized_move_n src n dst m).
Proof.
  induction n as [|n IH]; intros src dst m; simpl.
  - split; [done|by left].
  - eapply (stays_within_seq _ _ _ (reaches m dst 1)
              (n = 0 ∨ reaches m (dst +ₚ 1) n));
      [apply stays_within_move_construct_at| |].
    + intros [] m' Hs H1. apply stays_within_unwind.
      * eapply stays_within_mono; [apply (IH (src +ₚ 1) (dst +ₚ 1) m')|].
        intros [?|?]; [by left|right]. by eapply reaches_same_extents.
      * intros m2 _. apply stays_within_destroy_at.
    + intros H1 Hn. right. by apply reaches_S.
Qed.

Lemma stays_within_CopyOrMove src n dst m :
  stays_within m (n = 0 ∨ reaches m dst n) (CopyOrMove src n dst m).
Proof.
  unfold CopyOrMove. destruct (_ || _).
  - apply stays_within_uninitialized_move_n.
  - apply stays_within_uninitialized_copy_n.
Qed.

End Extents.

Section Preservation.
Context {T : Type} `{Element T} `{Library}.
Implicit Types (s : Machine T).

Lemma CopySwap_vectors s this b' n' :
  ensures
    (λ r s', ∃ b cap n,
       vectors s !! this = Some (MkVector (MkRawMemory b cap) n)
       ∧ r = MkRawMemory b cap
       ∧ vectors s' = <[this := MkVector (MkRawMemory b' n') n]> (vectors s))
    (λ s', vectors s' = vectors s) True
    (CopySwap this (MkRawMemory b' n') s).
Proof.
  unfold CopySwap. repeat inv_step; simpl; eauto 10.
Qed.

Lemma Reserve_preserves s this n :
  Machine_inv s →
  ensures
    (λ _ s', Machine_inv s'
             ∧ ∀ v, vectors s' !! this = Some v → n ≤ capacity_ (data_ v))
    (λ s', Machine_inv s') True
    (Reserve this n s).
Proof.
  intros HI. unfold Reserve, Capacity. repeat inv_step; simpl.
  - eapply ensures_mono; [apply CopySwap_vectors|..]; simpl; [| |done].
    + intros r s' (b1 & cap1 & n1 & Hv1 & -> & Hs'). simpl in Hv1, Hs'.
      pose proof (Machine_inv_lookup s _ _ HI Hv1) as [_ Hn].
      simpl in Hn. simplify_eq.
      assert (map_Forall (λ _ v, Vector_inv v) (vectors s')) as HI'.
      { rewrite Hs'. apply map_Forall_insert_2; [|done].
        apply Vector_inv_intro; [done|lia]. }
      apply ensures_lift_frame_last; [|done]. intros [] m1. split; [done|].
      simpl. intros v Hv. rewrite Hs', lookup_insert_eq in Hv. by simplify_eq.
    + intros s' Hs'. apply ensures_lift_frame_last; [|done].
      intros [] m1. unfold Machine_inv. simpl. by rewrite Hs'.
  - done.
  - split; [done|]. intros v Hv. simplify_eq. simpl. lia.
Qed.

Lemma Vector_default_ctor_preserves this :
  preserves (Vector_default_ctor (T:=T) this).
Proof.
  intros s HI. unfold Vector_default_ctor, RawMemory_default. simpl.
  inv_close HI.
Qed.

Lemma Vector_sized_ctor_preserves this n :
  preserves (Vector_sized_ctor (T:=T) this n).
Proof.
  intros s HI. unfold Vector_sized_ctor. repeat inv_step; simpl; inv_close HI.
Qed.

Lemma Vector_copy_ctor_vectors s this other :
  ensures
    (λ _ s', ∃ bo co no b',
       vectors s !! other = Some (MkVector (MkRawMemory bo co) no)
       ∧ RawMemory_inv (MkRawMemory b' no)
       ∧ vectors s' = <[this := MkVector (MkRawMemory b' no) no]> (vectors s))
    (λ s', vectors s' = vectors s) True
    (Vector_copy_ctor this other s).
Proof.
  unfold Vector_copy_ctor. repeat inv_step; simpl; eauto 10.
Qed.

Lemma Vector_copy_ctor_preserves this other :
  preserves (Vector_copy_ctor (T:=T) this other).
Proof.
  intros s HI.
  eapply ensures_mono; [apply Vector_copy_ctor_vectors|..]; simpl; [| |done].
  - intros _ s' (bo & co & no & b' & Hv & Hb' & Hs').
    unfold Machine_inv. rewrite Hs'. inv_close HI.
  - intros s' Hs'. unfold Machine_inv. by rewrite Hs'.
Qed.

Lemma Vector_move_ctor_preserves this other :
  preserves (Vector_move_ctor (T:=T) this other).
Proof.
  intros s HI. unfold Vector_move_ctor.
  repeat first [inv_step | progress simpl]. inv_close HI.
Qed.

Lemma Vector_dtor_vectors s this :
  ensures (λ _ s', vectors s' = delete this (vectors s))
          (λ s', vectors s' = vectors s) True
          (Vector_dtor this s).
Proof. unfold Vector_dtor. repeat inv_step; simpl; done. Qed.

Lemma Vector_dtor_preserves this : preserves (Vector_dtor (T:=T) this).
Proof.
  intros s HI.
  eapply ensures_mono; [apply Vector_dtor_vectors|..]; simpl; [| |done].
  - intros _ s' Hs'. unfold Machine_inv. rewrite Hs'. by apply map_Forall_delete.
  - intros s' Hs'. unfold Machine_inv. by rewrite Hs'.
Qed.

Lemma Swap_preserves this other : preserves (Swap (T:=T) this other).
Proof.
  intros s HI. unfold Swap. repeat first [inv_step | progress simpl].
  inv_close HI.
Qed.

Lemma Vector_move_assign_preserves this rhs :
  preserves (Vector_move_assign (T:=T) this rhs).
Proof.
  intros s HI. unfold Vector_move_assign. case_decide; [|done].
  by apply Swap_preserves.
Qed.

Lemma OpAssign_vectors s this rhs :
  ensures (λ _ s', vectors s' = vectors s) (λ s', vectors s' = vectors s) True
          (OpAssignRhsSizeLessCap this rhs s).
Proof.
  unfold OpAssignRhsSizeLessCap. repeat first [inv_step | progress simpl]; done.
Qed.

Lemma Swap_vectors s this other :
  ensures
    (λ _ s', ∃ va vb, vectors s !! this = Some va ∧ vectors s !! other = Some vb
                      ∧ vectors s' = <[other := va]> (<[this := vb]> (vectors s)))
    (λ _, False) True
    (Swap this other s).
Proof.
  unfold Swap. repeat first [inv_step | progress simpl]. inv_norm.
  - eexists _, _. split_and!; [done..|]. by rewrite !insert_insert_eq.
  - eexists _, _. split_and!; [done..|].
    apply map_eq. intros k.
    repeat (rewrite lookup_insert; case_decide; simplify_eq); done.
Qed.

Lemma Vector_copy_assign_preserves this rhs :
  preserves (Vector_copy_assign (T:=T) this rhs).
Proof.
  intros s HI. unfold Vector_copy_assign, Capacity.
  case_decide; [done|]. repeat inv_step.
  - (* the source does not fit: copy and swap *)
    apply ensures_bind. simpl.
    set (tc := fresh (dom (vectors s))).
    assert (vectors s !! tc = None) as Htc
      by (apply not_elem_of_dom, is_fresh).
    rewrite bind_assoc.
    eapply ensures_seq; [apply Vector_copy_ctor_vectors| |].
    2: { intros s' Hs'. unfold Machine_inv. by rewrite Hs'. }
    intros [] s1 (bo & co & no & b' & Hvo & Hb' & Hs1). simpl.
    rewrite bind_assoc.
    eapply ensures_seq; [apply Swap_vectors| |done].
    intros [] s2 (va & vb & Hva & Hvb & Hs2). simpl.
    eapply ensures_seq; [apply Vector_dtor_vectors| |].
    2: { intros s' Hs'. unfold Machine_inv. rewrite Hs', Hs2, Hs1.
         rewrite Hs1 in Hva, Hvb. inv_close HI. }
    intros [] s3 Hs3. simpl.
    apply ensures_get_vec. intros br cr nr Hr.
    apply ensures_get_vec. intros bt ct nt Ht. simpl.
    rewrite Hs3, Hs2, Hs1 in Hr, Ht. rewrite Hs1 in Hva, Hvb.
    rewrite Hs3, Hs2, Hs1.
    inv_close HI.
  - (* the source fits: assign in place *)
    eapply ensures_seq; [apply OpAssign_vectors| |].
    2: { intros s' Hs'. unfold Machine_inv. by rewrite Hs'. }
    intros [] s1 Hs1. simpl.
    apply ensures_get_vec. intros br cr nr Hr.
    apply ensures_get_vec. intros bt ct nt Ht. simpl.
    rewrite Hs1 in Hr, Ht. rewrite Hs1. inv_close HI.
Qed.

Lemma Resize_preserves this n : preserves (Resize (T:=T) this n).
Proof.
  intros s HI. unfold Resize. inv_step. inv_step; [done|].
  inv_step.
  - repeat inv_step; simpl; inv_close HI.
  - rewrite bind_assoc.
    eapply ensures_seq; [by apply Reserve_preserves| |done].
    intros [] s1 [HI1 Hcap]. simpl.
    repeat inv_step; simpl; try done.
    match goal with
    | Hv : vectors s1 !! this = Some _ |- _ => pose proof (Hcap _ Hv) as Hn
    end.
    simpl in Hn. inv_close HI1.
Qed.

Lemma PushBackU_preserves this copy_move :
  keeps_vectors this copy_move → preserves (PushBackU this copy_move).
Proof.
  intros Hcm s HI. unfold PushBackU. inv_step. inv_step.
  - eapply ensures_seq; [by apply Hcm| |].
    2: { intros s' Hs'. unfold Machine_inv. by rewrite Hs'. }
    intros res s1 [Hs1 _]. simpl.
    apply ensures_get_vec. intros b1 c1 n1 Hv1. rewrite Hs1 in Hv1.
    simpl. rewrite Hs1. inv_close HI.
  - repeat inv_step.
    + match goal with
      | Hx : ∀ a, _ = Some a → ∃ k, extent _ a = Some k ∧ k ≤ _ |- _ =>
          rename Hx into Hext
      end.
      eapply ensures_seq; [by apply Hcm| |].
      2: { intros s' Hs'. apply ensures_lift_frame_last; [|done].
           intros [] m1. unfold Machine_inv. simpl. by rewrite Hs'. }
      intros res s1 [Hs1 (a & k & Hba & Hk & Hlt)]. simpl in Hba, Hk, Hlt.
      destruct (Hext a Hba) as (k' & Hk' & Hle'). simplify_eq.
      cbn [size_ data_ capacity_ buffer_] in *.
      eapply ensures_seq; [apply CopySwap_vectors| |].
      2: { intros s' Hs'. apply ensures_lift_frame_last; [|done].
           intros [] m1. unfold Machine_inv. simpl. by rewrite Hs', Hs1. }
      intros nd s2 (b2 & c2 & n2 & Hv2 & -> & Hs2). simpl.
      rewrite Hs1 in Hv2. simpl in Hv2.
      assert (n2 + 1 ≤ if decide (n = 0) then 1 else size_mul n 2) as Hfit.
      { simplify_eq. lia. }
      repeat inv_step; simpl.
      * unfold Machine_inv. simpl in *.
        match goal with
        | Hv : vectors s2 !! this = Some _ |- _ => rewrite Hs2, Hs1 in Hv
        end.
        rewrite Hs2, Hs1. inv_close HI.
      * unfold Machine_inv. simpl. rewrite Hs2, Hs1. inv_close HI.
    + inv_close HI.
Qed.

(** The three ways of appending construct in the slot at [Size()]. *)
Lemma construct_at_keeps_vectors this (x : T) (r : ptr → nat → ptr) :
  keeps_vectors this (λ dest,
    v ← get_vec this;
    lift (construct_at (dest +ₚ size_ v) x);;
    mret (r dest (size_ v))).
Proof.
  intros p s v Hv. unfold mbind at 1, prog_bind at 1, get_vec. rewrite Hv.
  pose proof (stays_within_construct_at (p +ₚ size_ v) x (mem s)) as Hc.
  unfold mbind, prog_bind, lift.
  destruct (construct_at (p +ₚ size_ v) x (mem s)) as [[] m'|m'|];
    simpl in *; [|done..].
  split; [done|]. destruct Hc as [_ (a & n & Hb & Hn & Hle)].
  exists a, n. unfold ptr_add in *. simpl in *. split_and!; [done..|lia].
Qed.

Lemma move_construct_from_keeps_vectors this (x : T) :
  keeps_vectors this (λ dest,
    v ← get_vec this;
    lift (move_construct_from (dest +ₚ size_ v) x);;
    mret nullptr).
Proof.
  intros p s v Hv. unfold mbind at 1, prog_bind at 1, get_vec. rewrite Hv.
  pose proof (stays_within_move_construct_from (p +ₚ size_ v) x (mem s)) as Hc.
  unfold mbind, prog_bind, lift.
  destruct (move_construct_from (p +ₚ size_ v) x (mem s)) as [[] m'|m'|];
    simpl in *; [|done..].
  split; [done|]. destruct Hc as [_ (a & n & Hb & Hn & Hle)].
  exists a, n. unfold ptr_add in *. simpl in *. split_and!; [done..|lia].
Qed.

Lemma PushBack_preserves this x : preserves (PushBack this x).
Proof.
  intros s HI. unfold PushBack. apply ensures_bind.
  eapply ensures_mono; [apply PushBackU_preserves; [|done]|..]; simpl; auto.
  apply (construct_at_keeps_vectors this x (λ _ _, nullptr)).
Qed.

Lemma PushBack_rv_preserves this x : preserves (PushBack_rv this x).
Proof.
  intros s HI. unfold PushBack_rv. apply ensures_bind.
  eapply ensures_mono; [apply PushBackU_preserves; [|done]|..]; simpl; auto.
  apply move_construct_from_keeps_vectors.
Qed.

Lemma EmplaceBack_preserves this x : preserves (EmplaceBack this x).
Proof.
  intros s HI. unfold EmplaceBack.
  eapply ensures_mono; [apply PushBackU_preserves; [|done]|..]; simpl; auto.
  apply (construct_at_keeps_vectors this x (λ dest n, dest +ₚ n)).
Qed.

Lemma PopBack_preserves this : preserves (PopBack (T:=T) this).
Proof.
  intros s HI. unfold PopBack. repeat inv_step; simpl; inv_close HI.
Qed.

Lemma Erase_preserves this pos : preserves (Erase (T:=T) this pos).
Proof.
  intros s HI. unfold Erase, begin_, end_.
  repeat inv_step; simpl; inv_close HI.
Qed.

(** What [Emplace] has written when its reallocating branch returns: the
    new element at [dist] and the elements after it up to the slot at
    [Size()], all inside the new buffer of at most [c] slots. *)
Lemma Emplace_writes_within (m1 m2 m3 : Mem T) (b' : option nat) c dist n :
  (∀ a, b' = Some a → ∃ k, extent m1 a = Some k ∧ k ≤ c) →
  reaches m1 (Ptr b' dist) 1 →
  same_extents m1 m2 → same_extents m2 m3 →
  n - dist = 0 ∨ reaches m3 (Ptr b' dist +ₚ 1) (n - dist) →
  dist ≤ n → n + 1 ≤ c.
Proof.
  intros Hext (a & k & Hb & Hk & Hle) H12 H23 Hrest Hdist. simpl in *.
  destruct (Hext a Hb) as (k' & Hk' & Hc). simplify_eq.
  destruct Hrest as [?|(a' & k' & Hb' & Hk' & Hle')]; [lia|].
  unfold ptr_add in *. simpl in *. simplify_eq.
  rewrite H23, H12, Hk in Hk'. simplify_eq. lia.
Qed.

(** The cleanup of a local [RawMemory] leaves the [Vector] objects alone. *)
Ltac inv_cleanup HI :=
  intros;
  try (apply ensures_lift_frame_last; [intros [] ?|done]);
  inv_close HI.

Lemma Emplace_preserves this pos x : preserves (Emplace this pos x).
Proof.
  intros s HI. unfold Emplace, begin_, end_.
  repeat inv_step.
  destruct (bool_decide _ && bool_decide _) eqn:Hc.
  - apply andb_true_iff in Hc as [Hc1%bool_decide_eq_true Hc2%bool_decide_eq_true].
    repeat inv_step; simpl; inv_close HI.
  - repeat inv_pure; cbn [size_ data_ capacity_ buffer_ GetAddress index base] in *;
      [|inv_close HI].
    match goal with
    | Hx : ptr_le _ pos && ptr_le pos _ = true |- _ =>
        apply andb_true_iff in Hx as [_ Hx]; unfold ptr_le in Hx;
        apply andb_true_iff in Hx as [_ Hpos%bool_decide_eq_true];
        simpl in Hpos
    end.
    match goal with
    | Hx : ∀ a, _ = Some a → ∃ k, extent _ a = Some k ∧ k ≤ _ |- _ =>
        rename Hx into Hext
    end.
    repeat match goal with
    | Ha : vectors s !! this = Some _, Hb : vectors s !! this = Some _ |- _ =>
        rewrite Ha in Hb; simplify_eq
    end.
    rewrite Nat.sub_0_r in *.
    eapply ensures_lift_with; [apply stays_within_construct_at| |];
      [|inv_cleanup HI].
    intros [] m2 [Hs2 Hr2]. inv_pure.
    + repeat inv_pure.
      eapply ensures_lift_with; [apply stays_within_CopyOrMove| |];
        [|inv_cleanup HI].
      intros [] m3 [Hs3 _]. repeat inv_pure.
      eapply ensures_lift_with; [apply stays_within_CopyOrMove| |];
        [|inv_cleanup HI].
      intros [] m4 [Hs4 Hr4]. cbn [buffer_] in Hr4.
      pose proof (Emplace_writes_within _ _ _ _ _ _ _ Hext Hr2 Hs2 Hs3 Hr4 Hpos)
        as Hbound.
      repeat first [inv_step | progress simpl]; inv_close HI.
    + repeat first [inv_step | progress simpl]; inv_close HI;
        (split; [done|]); case_decide; lia.
Qed.

Lemma reads_preserve this i :
  preserves (Size (T:=T) this) ∧ preserves (Capacity (T:=T) this)
  ∧ preserves (begin_ (T:=T) this) ∧ preserves (end_ (T:=T) this)
  ∧ preserves (Vector_index (T:=T) this i).
Proof.
  split_and!; intros s HI;
    unfold Size, Capacity, begin_, end_, Vector_index, RawMemory_index;
    repeat inv_step; simpl; try done.
  by apply ensures_plus_last.
Qed.

(** Every operation of the interface preserves the state invariants. *)
Lemma perform_preserves (op : operation T) : preserves (perform op).
Proof.
  destruct op as [this|this n|this other|this other|this|this rhs|this rhs
                 |this other|this n|this n|this x|this x|this x|this
                 |this pos x|this pos x|this pos|this|this|this|this|this i];
    simpl.
  - apply Vector_default_ctor_preserves.
  - apply Vector_sized_ctor_preserves.
  - apply Vector_copy_ctor_preserves.
  - apply Vector_move_ctor_preserves.
  - apply Vector_dtor_preserves.
  - apply Vector_copy_assign_preserves.
  - apply Vector_move_assign_preserves.
  - apply Swap_preserves.
  - apply Resize_preserves.
  - intros s HI. eapply ensures_mono; [by apply Reserve_preserves|..];
      simpl; auto. by intros _ ? [? _].
  - apply PushBack_preserves.
  - apply PushBack_rv_preserves.
  - intros s HI. apply ensures_bind.
    eapply ensures_mono; [by apply EmplaceBack_preserves|..]; simpl; auto.
  - apply PopBack_preserves.
  - intros s HI. apply ensures_bind.
    eapply ensures_mono; [by apply Emplace_preserves|..]; simpl; auto.
  - intros s HI. apply ensures_bind.
    eapply ensures_mono; [by apply Emplace_preserves|..]; simpl; auto.
  - intros s HI. apply ensures_bind.
    eapply ensures_mono; [by apply Erase_preserves|..]; simpl; auto.
  - intros s HI. apply ensures_bind.
    eapply ensures_mono; [by apply (reads_preserve this 0)|..]; simpl; auto.
  - intros s HI. apply ensures_bind.
    eapply ensures_mono; [by apply (reads_preserve this 0)|..]; simpl; auto.
  - intros s HI. apply ensures_bind.
    eapply ensures_mono; [by apply (reads_preserve this 0)|..]; simpl; auto.
  - intros s HI. apply ensures_bind.
    eapply ensures_mono; [by apply (reads_preserve this 0)|..]; simpl; auto.
  - intros s HI. apply ensures_bind.
    eapply ensures_mono; [by apply (reads_preserve this i)|..]; simpl; auto.
Qed.

End Preservation.

(** ** What a total-correctness specification gives *)

Lemma runs_not_undefined {S A} `{HasOracle S} (s : S) (Q : A → S → Prop) E r :
  runs s Q E r → r ≠ Undefined.
Proof. by intros Hr ->. Qed.

Lemma mapM_id_Some {A} (l : list A) : mapM id (Some <$> l) = Some l.
Proof. apply mapM_Some. induction l; by constructor. Qed.

Section Observations.
Context {T : Type} `{Element T} `{Library}.
Implicit Types (s : Machine T) (l : list T).

(** A represented vector as its interface shows it. *)
Lemma represents_Size s this b l cap :
  represents s this b l cap → Size this s = Done (length l) s.
Proof. intros (Hv & _). unfold Size, mbind, prog_bind, get_vec. by rewrite Hv. Qed.

Lemma represents_Capacity s this b l cap :
  represents s this b l cap → Capacity this s = Done cap s.
Proof.
  intros (Hv & _). unfold Capacity, mbind, prog_bind, get_vec. by rewrite Hv.
Qed.

Lemma represents_begin s this b l cap :
  represents s this b l cap → begin_ this s = Done (Ptr b 0) s.
Proof.
  intros (Hv & _). unfold begin_, mbind, prog_bind, get_vec. by rewrite Hv.
Qed.

Lemma represents_end s this b l cap :
  represents s this b l cap → end_ this s = Done (Ptr b (length l)) s.
Proof.
  intros (Hv & Hle & _).
  unfold end_, RawMemory_plus, mbind, prog_bind, get_vec. rewrite Hv. simpl.
  by rewrite bool_decide_eq_true_2.
Qed.

Lemma represents_elements s this b l cap :
  represents s this b l cap → elements s this = Some l.
Proof.
  intros (Hv & Hle & Hb). unfold elements. rewrite Hv. simpl.
  destruct b as [a|]; simpl.
  - destruct Hb as [_ ->]. simpl. unfold live_prefix.
    rewrite decide_True.
    + rewrite take_app_length'; [apply mapM_id_Some|by rewrite length_fmap].
    + rewrite length_app, length_fmap. lia.
  - subst cap. destruct l; [done|simpl in Hle; lia].
Qed.

(** A block other than the buffer of [this] may change without affecting
    the vector, and so may another [Vector] object. *)
Lemma represents_frame s s' this b l cap :
  represents s this b l cap →
  vectors s' !! this = vectors s !! this →
  (∀ a, b = Some a → heap (mem s') !! a = heap (mem s) !! a) →
  represents s' this b l cap.
Proof.
  intros (Hv & Hle & Hb) Hv' Hh. split_and!; [by rewrite Hv'|done|].
  destruct b as [a|]; [|done]. destruct Hb as [? Hb].
  split; [done|]. by rewrite Hh.
Qed.

End Observations.

(** ** Insertion followed by erasure *)

(** Code that never returns: it throws, which takes an oracle that is not
    calm, or its behaviour is undefined. *)
Lemma never_returns_bind {S A B} `{HasOracle S} (m : prog S A)
    (f : A → prog S B) s Q1 E1 (o : list bool) :
  runs s Q1 E1 (m s) → (calm o → calm (oracle_of s)) →
  (∀ a s', Q1 a s' → (calm o → calm (oracle_of s')) →
           ensures (λ _ _, False) (λ _, ¬ calm o) True (f a s')) →
  ensures (λ _ _, False) (λ _, ¬ calm o) True ((m ≫= f) s).
Proof.
  intros Hm Ho Hf. unfold mbind, prog_bind.
  destruct (m s) as [a s1|s1|]; simpl in *; [| |done].
  - destruct Hm as [HQ Hsuf]. apply Hf; [done|].
    intros Hc. eapply calm_suffix; [done|auto].
  - destruct Hm as (_ & _ & Hn). auto.
Qed.

Section Insert_Erase.
Context {T : Type} `{Element T} `{Library}.
Implicit Types (s : Machine T) (l : list T).

Lemma runs_lift_mem {A} (c : prog (Mem T) A) s Q E :
  runs (mem s) Q E (c (mem s)) →
  runs s (λ a s', Q a (mem s')) (λ s', E (mem s')) (lift c s).
Proof. intros Hc. by apply runs_lift. Qed.

(** [Emplace] at [end()] of a vector that is not empty and has room, under
    the standard's reading of an inverted range: it never returns. *)
Lemma Emplace_at_end_with_room s this a l cap x :
  represents s this (Some a) l cap → 0 < length l → length l < cap →
  lenient_ranges = false →
  ensures (λ _ _, False) (λ _, ¬ calm (oracle (mem s))) True
          (Emplace this (Ptr (Some a) (length l)) x s).
Proof.
  intros Hrep Hl Hroom Hstrict. pose proof Hrep as (Hv & Hle & Hcap & Hblk).
  destruct (split_last l (length l - 1) ltac:(lia)) as (l1 & vals & z & Hl1 & Hp).
  assert (vals = []) as ->.
  { apply (f_equal length) in Hl1. rewrite !length_app in Hl1. simpl in Hl1.
    destruct vals; [done|simpl in Hl1; lia]. }
  simpl in Hl1. subst l. rewrite length_app in *. simpl in *.
  set (n := length l1 + 1) in *.
  unfold Emplace.
  erewrite bind_Done by (by eapply represents_begin).
  erewrite bind_Done by (by eapply represents_end).
  rewrite length_app. simpl. fold n.
  erewrite bind_Done
    by (unfold assert_, ptr_le; simpl;
        by rewrite !bool_decide_eq_true_2 by (done || lia)).
  erewrite bind_Done by (unfold get_vec; by rewrite Hv).
  fields.
  replace (bool_decide (n < cap) && bool_decide (n ≠ 0)) with true.
  2: { symmetry. apply andb_true_iff. split; apply bool_decide_eq_true; lia. }
  rewrite bind_assoc.
  eapply never_returns_bind; [apply runs_lift_mem, runs_new_T|done|].
  simpl. intros tmp s1 (t & -> & Hfresh & Hm1) Hc1.
  assert (a ≠ t) as Hat by congruence.
  rewrite bind_assoc.
  erewrite bind_Done
    by (unfold RawMemory_plus, assert_; simpl;
        by rewrite bool_decide_eq_true_2 by lia).
  rewrite bind_assoc.
  erewrite bind_Done by (unfold ptr_sub; simpl; by rewrite decide_True by lia).
  simpl. rewrite bind_assoc.
  eapply never_returns_bind; [apply runs_lift_mem| |].
  - eapply (runs_CopyOrMove_next _ a (Some <$> l1) z
              (replicate (cap - n - 1) None) (n - 1) n).
    + rewrite length_fmap. lia.
    + lia.
    + simpl. rewrite Hm1, lookup_insert_ne by done. rewrite Hblk.
      rewrite fmap_app, <-app_assoc. simpl.
      destruct (cap - n) as [|k] eqn:Hk; [lia|]. simpl.
      by rewrite Nat.sub_0_r.
  - done.
  - simpl. intros [] s2 _ Hc2. rewrite bind_assoc.
    erewrite bind_Undefined; [done|].
    unfold lift, std_move_backward, range_length, ptr_le. simpl.
    rewrite bool_decide_eq_true_2 by done.
    rewrite bool_decide_eq_false_2 by lia. simpl.
    by rewrite Hstrict.
Qed.

(** Under a calm oracle the behaviour is undefined. *)
Lemma Emplace_at_end_with_room_undefined s this a l cap x :
  represents s this (Some a) l cap → 0 < length l → length l < cap →
  lenient_ranges = false → calm (oracle (mem s)) →
  Emplace this (Ptr (Some a) (length l)) x s = Undefined.
Proof.
  intros Hrep Hl Hroom Hstrict Hc.
  pose proof (Emplace_at_end_with_room s this a l cap x Hrep Hl Hroom Hstrict)
    as Hr.
  by destruct (Emplace this (Ptr (Some a) (length l)) x s).
Qed.

(** At every other position, and at [end()] of a vector that is full or
    empty, [Insert] followed by [Erase] at the iterator returned restores the
    sequence. *)
Lemma Insert_then_Erase_restores s this b l cap p x it s1 it' s2 :
  represents s this b l cap → is_size_t cap → p ≤ length l →
  p < length l ∨ length l = cap →
  (length l = cap → is_size_t (doubled (length l) * sizeof_T)) →
  Insert this (Ptr b p) x s = Done it s1 →
  Erase this it s1 = Done it' s2 →
  elements s2 this = Some l.
Proof.
  intros Hrep Hsz Hp Hcase Hfit Hins Hera. unfold Insert in Hins.
  assert (delete p (take p l ++ x :: drop p l) = l) as Hdel.
  { rewrite <-(length_take_le l p) at 1 by done.
    rewrite delete_middle. apply take_drop. }
  assert (p < length (take p l ++ x :: drop p l)) as Hp'.
  { rewrite length_app, length_take. simpl. lia. }
  destruct (decide (length l = cap ∨ length l = 0)) as [Hfull|Hroom].
  - assert (length l = cap) as Hcap by (destruct Hfull, Hcase; lia).
    specialize (Hfit Hcap).
    pose proof (Emplace_realloc_runs s this b l cap p x Hrep Hp Hfull Hfit)
      as Hr.
    rewrite Hins in Hr. destruct Hr as [(a' & -> & _ & Hrep1 & _) _].
    pose proof (Erase_runs s1 this _ _ _ p Hrep1 (is_size_t_count _ Hfit) Hp')
      as Hr.
    rewrite Hera in Hr. destruct Hr as [(_ & Hrep2 & _) _].
    rewrite Hdel in Hrep2. by eapply represents_elements.
  - assert (p < length l ∧ length l < cap) as [Hp1 Hlt].
    { pose proof Hrep as (_ & ? & _). lia. }
    destruct (represents_nonempty s this b l cap Hrep ltac:(lia))
      as (a & -> & _).
    pose proof (Emplace_in_place_runs s this a l cap p x Hrep Hp1 Hlt Hsz)
      as Hr.
    rewrite Hins in Hr. destruct Hr as [(-> & Hrep1 & _) _].
    pose proof (Erase_runs s1 this _ _ _ p Hrep1 Hsz Hp') as Hr.
    rewrite Hera in Hr. destruct Hr as [(_ & Hrep2 & _) _].
    rewrite Hdel in Hrep2. by eapply represents_elements.
Qed.

(** What the branch of [Emplace] that does not reallocate leaves in the
    free store: a block of one slot, allocated by the call, to which no
    pointer remains. *)
Lemma Emplace_in_place_leaves_block s this a l cap p x it s1 :
  represents s this (Some a) l cap → is_size_t cap →
  p < length l → length l < cap →
  Emplace this (Ptr (Some a) p) x s = Done it s1 →
  ∃ t, heap (mem s) !! t = None ∧ heap (mem s1) !! t = Some [None] ∧ t ≠ a.
Proof.
  intros Hrep Hsz Hp Hroom He.
  pose proof (Emplace_in_place_runs s this a l cap p x Hrep Hp Hroom Hsz) as Hr.
  rewrite He in Hr. destruct Hr as [(_ & _ & _ & t & Hfresh & Hh) _].
  exists t. split; [done|]. split; [by rewrite Hh, lookup_insert_eq|].
  destruct Hrep as (_ & _ & _ & Hblk). congruence.
Qed.

End Insert_Erase.

(** ** Requests of storage whose size in bytes wraps around *)

Section Overflow.
Context {T : Type} `{Element T} `{Library}.
Implicit Types (s : Machine T) (m : Mem T).

Lemma tick_calm m :
  calm (oracle m) → ∃ o, tick m = Done () (MkMem (heap m) o) ∧ calm o.
Proof.
  unfold tick, calm. destruct m as [h [|[] o]]; simpl; intros Hc.
  - by exists [].
  - exists o. split; [done|]. by inversion Hc.
  - inversion Hc; simplify_eq.
Qed.

(** Constructing more objects than the block has slots left. *)
Lemma uninitialized_value_construct_n_overrun n : ∀ i m a blk,
  heap m !! a = Some blk → i ≤ length blk < i + n → calm (oracle m) →
  uninitialized_value_construct_n (Ptr (Some a) i) n m = Undefined.
Proof.
  induction n as [|n IH]; intros i m a blk Ha Hi Hc; [lia|].
  cbn [uninitialized_value_construct_n].
  destruct (tick_calm m Hc) as (o & Ht & Ho).
  unfold value_construct_at, construct_at.
  destruct (decide (i < length blk)) as [Hin|Hout].
  - erewrite bind_Done.
    2: { erewrite bind_Done by exact Ht. unfold store. simpl.
         rewrite Ha. by rewrite decide_True. }
    unfold unwind, ptr_add. cbn [base index].
    erewrite (IH (i + 1)); [done| |..]; simpl.
    + by rewrite lookup_insert_eq.
    + rewrite length_insert. lia.
    + done.
  - erewrite bind_Undefined; [done|].
    erewrite bind_Done by exact Ht. unfold store. simpl.
    rewrite Ha. by rewrite decide_False.
Qed.

(** The sized constructor, when the bytes of [n] objects are not a [size_t]
    and the bytes requested have room for fewer than [n] objects. *)
Lemma Vector_sized_ctor_overrun s this n :
  size_mul n sizeof_T / sizeof_T < n → calm (oracle (mem s)) →
  Vector_sized_ctor this n s = Undefined.
Proof.
  intros Hslots Hc. unfold Vector_sized_ctor.
  pose proof (runs_RawMemory_ctor_slots (mem s) n) as Hr.
  destruct (runs_calm _ _ _ _ Hr Hc) as ([b c] & m1 & He & Hc1 & Hb).
  rewrite He in Hr. destruct Hr as [_ Hsuf].
  simpl in Hc1, Hb. subst c.
  erewrite bind_Done by (unfold lift; by rewrite He).
  destruct b as [a|]; [|lia]. destruct Hb as (_ & _ & Hm1).
  erewrite bind_Undefined; [done|]. unfold unwind, lift, GetAddress. simpl.
  erewrite uninitialized_value_construct_n_overrun; [done| |..].
  - by rewrite Hm1, lookup_insert_eq.
  - rewrite length_replicate. lia.
  - by eapply calm_suffix.
Qed.

End Overflow.

Section Results.
Context {T : Type} `{Element T} `{Library}.
Implicit Types (s : Machine T) (l : list T).

(** Claim C6.  On a vector holding [l], whose capacity is a [size_t],
    [Erase] at the valid position [begin() + p], [p < Size()], is defined
    and completes unless a move assignment throws.  When it completes, the elements before [p] are
    unchanged, each element after [p] has moved down by one index, the size
    is one less and the capacity and the buffer are the same; the iterator
    returned is [begin() + p], where the element that followed the erased one
    now lies, and it is [end()] when the last element was erased. *)
Theorem Erase_shifts_left s this b l cap p :
  represents s this b l cap → is_size_t cap → p < length l →
  Erase this (Ptr b p) s ≠ Undefined
  ∧ (calm (oracle (mem s)) ∨ nothrow_move_assignable = true →
     ∃ s', Erase this (Ptr b p) s = Done (Ptr b p) s')
  ∧ ∀ r s', Erase this (Ptr b p) s = Done r s' →
      ∃ l', elements s' this = Some l'
        ∧ represents s' this b l' cap
        ∧ Size this s' = Done (length l - 1) s'
        ∧ (∀ i, i < p → l' !! i = l !! i)
        ∧ (∀ i, p ≤ i → l' !! i = l !! S i)
        ∧ r = Ptr b p
        ∧ (p = length l - 1 → end_ this s' = Done r s').
Proof.
  intros Hrep Hsz Hp.
  pose proof (Erase_runs s this b l cap p Hrep Hsz Hp) as Hr.
  split_and!.
  - by eapply runs_not_undefined.
  - intros Hok. destruct (Erase this (Ptr b p) s) as [r s'|s'|] eqn:He.
    + destruct Hr as [(-> & _) _]. eauto.
    + destruct Hr as [[Hna _] (_ & Hnc)]. destruct Hok; [done|congruence].
    + done.
  - intros r s' He. rewrite He in Hr. destruct Hr as [(-> & Hrep' & _) _].
    exists (delete p l). split_and!.
    + by eapply represents_elements.
    + done.
    + erewrite represents_Size by done. by rewrite length_delete by
        (by apply lookup_lt_is_Some_2).
    + intros i Hi. by apply list_lookup_delete_lt.
    + intros i Hi. by apply list_lookup_delete_ge.
    + done.
    + intros ->. erewrite represents_end by done.
      by rewrite length_delete by (by apply lookup_lt_is_Some_2).
Qed.

(** For every [n] such that the size in bytes of [n] objects is a [size_t],
    the sized constructor is defined, completes unless the allocation or a
    constructor throws, and yields a vector with [Size() == n],
    [Capacity() == n] and [n] value-initialised elements. *)
Lemma Vector_sized_ctor_yields s this n :
  is_size_t (n * sizeof_T) →
  Vector_sized_ctor this n s ≠ Undefined
  ∧ (calm (oracle (mem s)) → ∃ s', Vector_sized_ctor this n s = Done () s')
  ∧ ∀ u s', Vector_sized_ctor this n s = Done u s' →
      Size this s' = Done n s'
      ∧ Capacity this s' = Done n s'
      ∧ elements s' this = Some (replicate n dflt).
Proof.
  intros Hfit. pose proof (Vector_sized_ctor_runs s this n Hfit) as Hr.
  split_and!.
  - by eapply runs_not_undefined.
  - intros Hc. destruct (runs_calm _ _ _ _ Hr Hc) as ([] & s' & -> & _). eauto.
  - intros u s' He. rewrite He in Hr. destruct Hr as [(b & Hrep & _) _].
    split_and!.
    + erewrite represents_Size by done. by rewrite length_replicate.
    + by eapply represents_Capacity.
    + by eapply represents_elements.
Qed.

(** Claim C9.  On an empty vector, whatever its capacity, [Emplace] (and so
    [Insert]) at [begin()] is defined and completes unless the allocation or
    the constructor throws.  It then has allocated a fresh buffer of exactly
    one slot and released the old one: the vector holds the new element
    alone and [Capacity()] is [1]. *)
Theorem Emplace_on_empty_reallocates s this b cap x :
  represents s this b [] cap →
  Insert this (Ptr b 0) x s = Emplace this (Ptr b 0) x s
  ∧ begin_ this s = Done (Ptr b 0) s ∧ end_ this s = Done (Ptr b 0) s
  ∧ Emplace this (Ptr b 0) x s ≠ Undefined
  ∧ (calm (oracle (mem s)) → ∃ r s', Emplace this (Ptr b 0) x s = Done r s')
  ∧ ∀ r s', Emplace this (Ptr b 0) x s = Done r s' →
      ∃ a', r = Ptr (Some a') 0
        ∧ heap (mem s) !! a' = None
        ∧ heap (mem s') = <[a' := [Some x]]> (released b (heap (mem s)))
        ∧ represents s' this (Some a') [x] 1
        ∧ Capacity this s' = Done 1 s'
        ∧ Size this s' = Done 1 s'
        ∧ elements s' this = Some [x].
Proof.
  intros Hrep.
  pose proof (Emplace_realloc_runs s this b [] cap 0 x Hrep
                ltac:(simpl; lia) ltac:(by right) is_size_t_one) as Hr.
  split_and!.
  - done.
  - by eapply represents_begin.
  - by erewrite represents_end by done.
  - by eapply runs_not_undefined.
  - intros Hc. destruct (runs_calm _ _ _ _ Hr Hc) as (r & s' & -> & _). eauto.
  - intros r s' He. rewrite He in Hr.
    destruct Hr as [(a' & -> & Hfresh & Hrep' & _ & Hh) _].
    simpl in Hrep', Hh. exists a'. split_and!; try done.
    + by eapply represents_Capacity.
    + by erewrite represents_Size by done.
    + by eapply represents_elements.
Qed.

(** Claim C3.  Appending [k] elements to a default-constructed vector, each
    time by [PushBack] of a copy, [PushBack] of a temporary or [EmplaceBack],
    is defined and completes unless something throws, [k] being such that
    the size in bytes of [2 * k] objects is a [size_t].  The capacities read
    after each append never decrease, and the one read after the append
    number [k + 1] is the smallest of 1, 2, 4, 8, ... that is at least
    [k + 1]. *)
Theorem append_capacity_doubles s this (ops : list (append_how * T)) :
  is_size_t (2 * length ops * sizeof_T) →
  let run := (Vector_default_ctor this;; append_all this ops) s in
  run ≠ Undefined
  ∧ (calm (oracle (mem s)) → ∃ caps s', run = Done caps s')
  ∧ ∀ caps s', run = Done caps s' →
      length caps = length ops
      ∧ rising 0 caps
      ∧ (∀ k c, caps !! k = Some c → least_pow2_above (S k) c)
      ∧ elements s' this = Some ops.*2.
Proof.
  intros Hfit.
  set (s0 := MkMachine (mem s)
               (<[this := MkVector RawMemory_default 0]> (vectors s))).
  assert (represents s0 this None [] 0) as Hrep.
  { split_and!; [apply lookup_insert_eq|done..]. }
  pose proof (append_all_runs ops s0 this None [] 0 Hrep
                ltac:(by left) Hfit) as Hr.
  change ((Vector_default_ctor this;; append_all this ops) s)
    with (append_all this ops s0).
  simpl. split_and!.
  - by eapply runs_not_undefined.
  - intros Hc. destruct (runs_calm _ _ _ _ Hr Hc) as (r & s' & -> & _). eauto.
  - intros caps s' He. rewrite He in Hr.
    destruct Hr as [(Hlen & Hrise & Hcap & b' & Hrep') _].
    split_and!; [done..|]. by eapply represents_elements.
Qed.

End Results.

Section Guarantees.
Context {T : Type} `{Element T} `{Library}.
Implicit Types (s : Machine T) (l : list T).

Lemma same_state_represents s s' this b l cap :
  same_state s s' → represents s this b l cap → represents s' this b l cap.
Proof.
  intros [Hv Hh] Hrep. eapply represents_frame; [done|by rewrite Hv|].
  intros a _. by rewrite Hh.
Qed.

(** Claim C5.  Self-assignment changes nothing.  Copy assignment from another
    vector, whose buffer has a size in bytes that is a [size_t], is defined
    and completes unless something throws; the target then has the size and
    the elements of [rhs], and [rhs] is as it was.  When
    the size of [rhs] does not exceed the capacity of the target, the target
    keeps its buffer and its capacity and no block is allocated or
    released. *)
Theorem Vector_copy_assign_copies s this rhs b l cap br lr capr :
  represents s this b l cap → represents s rhs br lr capr →
  this ≠ rhs → (∀ a, b = Some a → br ≠ Some a) →
  is_size_t (capr * sizeof_T) →
  Vector_copy_assign this this s = Done () s
  ∧ Vector_copy_assign this rhs s ≠ Undefined
  ∧ (calm (oracle (mem s)) → ∃ s', Vector_copy_assign this rhs s = Done () s')
  ∧ ∀ u s', Vector_copy_assign this rhs s = Done u s' →
      Size this s' = Done (length lr) s'
      ∧ elements s' this = Some lr
      ∧ represents s' rhs br lr capr
      ∧ (length lr ≤ cap →
         represents s' this b lr cap
         ∧ dom (heap (mem s')) = dom (heap (mem s))).
Proof.
  intros Hrep Hrhs Hne Hsep Hsz.
  assert (is_size_t (length lr * sizeof_T)) as Hfit.
  { destruct Hrhs as (_ & ? & _). eapply is_size_t_le; [|exact Hsz].
    by apply Nat.mul_le_mono_r. }
  pose proof (Vector_copy_assign_runs s this rhs b l cap br lr capr
                Hne Hrep Hrhs Hsep Hfit) as Hr.
  split_and!.
  - apply Vector_copy_assign_self_eq.
  - by eapply runs_not_undefined.
  - intros Hc. destruct (runs_calm _ _ _ _ Hr Hc) as ([] & s' & -> & _). eauto.
  - intros u s' He. rewrite He in Hr. destruct Hr as [Hr _].
    pose proof Hrep as (Hv & Hle & Hb). pose proof Hrhs as (Hvr & Hler & Hbr).
    destruct (decide (cap < length lr)) as [Hgrow|Hfits].
    + destruct Hr as (a' & Hfresh & Hv' & Hh').
      assert (represents s' this (Some a') lr (length lr)) as Hrep'.
      { split; [by rewrite Hv', lookup_insert_eq|split; [done|]].
        split; [lia|]. rewrite Hh', lookup_insert_eq.
        by rewrite Nat.sub_diag, app_nil_r. }
      assert (represents s' rhs br lr capr) as Hrhs'.
      { eapply represents_frame; [done|by rewrite Hv', lookup_insert_ne|].
        intros ar ->. destruct Hbr as [_ Hbr].
        rewrite Hh', lookup_insert_ne by congruence.
        destruct b as [a|]; simpl; [|done].
        rewrite lookup_delete_ne; [done|]. intros ->. by eapply Hsep. }
      split_and!.
      * by erewrite represents_Size by done.
      * by eapply represents_elements.
      * done.
      * lia.
    + destruct Hr as (Hv' & Hh').
      assert (represents s' this b lr cap) as Hrep'.
      { split; [by rewrite Hv', lookup_insert_eq|split; [lia|]].
        destruct b as [a|]; [|done]. destruct Hb as [? _].
        split; [done|]. by rewrite Hh', lookup_insert_eq. }
      assert (represents s' rhs br lr capr) as Hrhs'.
      { eapply represents_frame; [done|by rewrite Hv', lookup_insert_ne|].
        intros ar ->. rewrite Hh'. destruct b as [a|]; [|done].
        rewrite lookup_insert_ne; [done|]. intros ->. by eapply Hsep. }
      split_and!.
      * by erewrite represents_Size by done.
      * by eapply represents_elements.
      * done.
      * intros _. split; [done|]. rewrite Hh'. destruct b as [a|]; [|done].
        destruct Hb as [_ Hb]. by apply dom_insert_lookup_L.
Qed.

(** Claim C4, as the code has it.  Moving [other] into [this] cannot fail
    and touches no memory.  Move construction leaves [this] with the buffer,
    the capacity and the elements of [other], and [other] empty with
    capacity [0].  Move assignment exchanges the two vectors: [this] ends
    with the former state of [other], and [other] with the former state of
    [this], so [other] ends empty with capacity [0] exactly when [this] was.
    Move assignment to itself changes nothing. *)
Theorem move_transfers_state s this other ba la capa :
  represents s other ba la capa → this ≠ other →
  (∃ s', Vector_move_ctor this other s = Done () s'
         ∧ mem s' = mem s
         ∧ represents s' this ba la capa
         ∧ represents s' other None [] 0
         ∧ Size other s' = Done 0 s' ∧ Capacity other s' = Done 0 s')
  ∧ (∀ bb lb capb, represents s this bb lb capb →
       ∃ s', Vector_move_assign this other s = Done () s'
         ∧ mem s' = mem s
         ∧ represents s' this ba la capa
         ∧ represents s' other bb lb capb
         ∧ Size other s' = Done (length lb) s'
         ∧ Capacity other s' = Done capb s')
  ∧ Vector_move_assign other other s = Done () s.
Proof.
  intros Hrep Hne. pose proof Hrep as (Hv & Hle & Hb). split_and!.
  - eexists. split; [by apply Vector_move_ctor_eq|]. simpl.
    assert (represents
              (MkMachine (mem s)
                 (<[other := MkVector (MkRawMemory None 0) 0]>
                    (<[this := MkVector (MkRawMemory ba capa) (length la)]>
                       (vectors s)))) other None ([] : list T) 0) as Hemp.
    { split; [by simpl; rewrite lookup_insert_eq|by split]. }
    split; [done|]. split; [|split; [exact Hemp|split]].
    + split; [|by split]. simpl.
      by rewrite lookup_insert_ne, lookup_insert_eq by done.
    + exact (represents_Size _ _ _ _ _ Hemp).
    + exact (represents_Capacity _ _ _ _ _ Hemp).
  - intros bb lb capb (Hvb & Hleb & Hbb).
    eexists. split; [by apply Vector_move_assign_eq|]. simpl.
    assert (represents
              (MkMachine (mem s)
                 (<[other := MkVector (MkRawMemory bb capb) (length lb)]>
                    (<[this := MkVector (MkRawMemory ba capa) (length la)]>
                       (vectors s)))) other bb lb capb) as Hsrc.
    { split; [by simpl; rewrite lookup_insert_eq|by split]. }
    split; [done|]. split; [|split; [exact Hsrc|split]].
    + split; [|by split]. simpl.
      by rewrite lookup_insert_ne, lookup_insert_eq by done.
    + exact (represents_Size _ _ _ _ _ Hsrc).
    + exact (represents_Capacity _ _ _ _ _ Hsrc).
  - apply Vector_move_assign_self_eq.
Qed.


Lemma RawMemory_move_ctor_inv (o : RawMemory) :
  RawMemory_inv o →
  RawMemory_inv (RawMemory_move_ctor o).1
  ∧ RawMemory_inv (RawMemory_move_ctor o).2.
Proof.
  destruct o as [b c]. unfold RawMemory_inv. simpl. intros Ho.
  split; [done|]. split; [done|lia].
Qed.

Lemma RawMemory_Swap_inv (a b : RawMemory) :
  RawMemory_inv a → RawMemory_inv b →
  RawMemory_inv (RawMemory_Swap a b).1 ∧ RawMemory_inv (RawMemory_Swap a b).2.
Proof. destruct a, b. unfold RawMemory_inv. simpl. by intros ? ?. Qed.

Lemma RawMemory_move_assign_inv (a : RawMemory) (r : option RawMemory) :
  RawMemory_inv a → from_option RawMemory_inv True r →
  RawMemory_inv (RawMemory_move_assign a r).1
  ∧ from_option RawMemory_inv True (RawMemory_move_assign a r).2.
Proof.
  destruct r as [r|]; simpl; [|done]. intros Ha Hr.
  by destruct (RawMemory_Swap_inv a r Ha Hr).
Qed.

(** Claim C8.  Every operation of [RawMemory] and of [Vector] keeps the
    state invariants: in each [RawMemory] the buffer is non-null exactly
    when the capacity is positive, and in each [Vector] the size is at most
    the capacity.  For [Vector], the invariants hold in every state an
    operation completes in, whether it returns or throws. *)
Theorem operations_preserve_invariants :
  RawMemory_inv RawMemory_default
  ∧ (∀ n (m : Mem T),
       ensures (λ r _, RawMemory_inv r) (λ _, True) True (RawMemory_ctor n m))
  ∧ (∀ o, RawMemory_inv o →
          RawMemory_inv (RawMemory_move_ctor o).1
          ∧ RawMemory_inv (RawMemory_move_ctor o).2)
  ∧ (∀ a b, RawMemory_inv a → RawMemory_inv b →
            RawMemory_inv (RawMemory_Swap a b).1
            ∧ RawMemory_inv (RawMemory_Swap a b).2)
  ∧ (∀ a r, RawMemory_inv a → from_option RawMemory_inv True r →
            RawMemory_inv (RawMemory_move_assign a r).1
            ∧ from_option RawMemory_inv True (RawMemory_move_assign a r).2)
  ∧ (∀ op : operation T, preserves (perform op)).
Proof.
  split_and!.
  - apply RawMemory_inv_default.
  - intros n m. eapply ensures_mono;
      [apply RawMemory_ctor_inv|by intros ? ? (? & ? & ?)|done..].
  - apply RawMemory_move_ctor_inv.
  - apply RawMemory_Swap_inv.
  - apply RawMemory_move_assign_inv.
  - apply perform_preserves.
Qed.

End Guarantees.

(** ** The claims at concrete vectors *)

(** The representation predicate on a machine that is written out, and
    sizes that are written out. *)
Ltac concrete_represents :=
  unfold represents; simpl; repeat split; (reflexivity || lia).

Ltac concrete_size_t := vm_compute; reflexivity.

Section Int_vectors.
#[local] Existing Instance int_element.
#[local] Existing Instance strict_library.

(** Erasing [10] from [5; 10; 15; 20]. *)
Lemma Erase_shifts_left_witness :
  ∃ s' l', Erase 0 (Ptr (Some 0) 1) (single [] [5; 10; 15; 20] 4)
           = Done (Ptr (Some 0) 1) s'
           ∧ elements s' 0 = Some l'
           ∧ l' !! 0 = Some 5 ∧ l' !! 1 = Some 15 ∧ l' !! 2 = Some 20
           ∧ Size 0 s' = Done 3 s'.
Proof.
  destruct (Erase_shifts_left (single [] [5; 10; 15; 20] 4) 0 (Some 0)
              [5; 10; 15; 20] 4 1) as (_ & Hc & Hd).
  - concrete_represents.
  - concrete_size_t.
  - simpl. lia.
  - destruct Hc as [s' He]; [by right|].
    destruct (Hd _ _ He) as (l' & Hl' & _ & Hsz & Hlt & Hge & _).
    exists s', l'. split; [exact He|]. split; [exact Hl'|].
    split; [apply (Hlt 0); lia|]. split; [apply (Hge 1); lia|].
    split; [apply (Hge 2); lia|exact Hsz].
Defined.

(** [Vector<int> v(3);] *)
Lemma Vector_sized_ctor_of_three :
  ∃ s', Vector_sized_ctor 0 3 (boot []) = Done () s'
        ∧ Size 0 s' = Done 3 s' ∧ Capacity 0 s' = Done 3 s'
        ∧ elements s' 0 = Some [0; 0; 0].
Proof.
  destruct (Vector_sized_ctor_yields (boot []) 0 3) as (_ & Hc & Hd).
  - concrete_size_t.
  - destruct Hc as [s' He]; [constructor|].
    exists s'. split; [exact He|]. exact (Hd _ _ He).
Qed.

(** [Insert] on an empty vector of capacity [5]. *)
Lemma Emplace_on_empty_reallocates_witness :
  Capacity 0 (single [] [] 5 : Machine nat) = Done 5 (single [] [] 5)
  ∧ ∃ r s', Emplace 0 (Ptr (Some 0) 0) 7 (single [] [] 5) = Done r s'
            ∧ Capacity 0 s' = Done 1 s' ∧ elements s' 0 = Some [7].
Proof.
  split; [reflexivity|].
  destruct (Emplace_on_empty_reallocates (single [] [] 5) 0 (Some 0) 5 7)
    as (_ & _ & _ & _ & Hc & Hd).
  - concrete_represents.
  - destruct Hc as (r & s' & He); [constructor|].
    destruct (Hd _ _ He) as (a' & _ & _ & _ & _ & Hcap & _ & Hel).
    exists r, s'. split; [exact He|]. split; [exact Hcap|exact Hel].
Defined.

(** Five appends, in the three ways. *)
Lemma append_capacity_doubles_witness :
  ∃ caps s',
    (Vector_default_ctor 0;;
     append_all 0 [(ByCopy, 1); (ByMove, 2); (ByEmplace, 3); (ByCopy, 4);
                   (ByCopy, 5)]) (boot [])
    = Done caps s'
    ∧ length caps = 5 ∧ rising 0 caps
    ∧ least_pow2_above 5 (default 0 (caps !! 4))
    ∧ elements s' 0 = Some [1; 2; 3; 4; 5].
Proof.
  destruct (append_capacity_doubles (boot []) 0
              [(ByCopy, 1); (ByMove, 2); (ByEmplace, 3); (ByCopy, 4);
               (ByCopy, 5)]) as (_ & Hc & Hd).
  - concrete_size_t.
  - destruct Hc as (caps & s' & He); [constructor|].
    destruct (Hd _ _ He) as (Hlen & Hrise & Hcap & Hel).
    exists caps, s'. split; [exact He|]. split; [exact Hlen|].
    split; [exact Hrise|]. split; [|exact Hel].
    destruct (caps !! 4) as [c|] eqn:Hc4.
    + exact (Hcap 4 c Hc4).
    + apply lookup_ge_None in Hc4. simpl in Hlen. lia.
Defined.

(** Assigning [7; 8] to a vector holding [1; 2; 3] in a buffer of four. *)
Lemma Vector_copy_assign_copies_witness :
  ∃ s', Vector_copy_assign 0 1 (pair_of [] [1; 2; 3] 4 [7; 8] 2) = Done () s'
        ∧ elements s' 0 = Some [7; 8]
        ∧ represents s' 1 (Some 3) [7; 8] 2
        ∧ represents s' 0 (Some 2) [7; 8] 4.
Proof.
  destruct (Vector_copy_assign_copies (pair_of [] [1; 2; 3] 4 [7; 8] 2) 0 1
              (Some 2) [1; 2; 3] 4 (Some 3) [7; 8] 2)
    as (_ & _ & Hc & Hd).
  - concrete_represents.
  - concrete_represents.
  - lia.
  - intros a Ha Hb. inversion Ha. subst a. inversion Hb.
  - concrete_size_t.
  - destruct Hc as [s' He]; [constructor|].
    destruct (Hd _ _ He) as (_ & Hel & Hrhs & Hin).
    exists s'. split; [exact He|]. split; [exact Hel|]. split; [exact Hrhs|].
    apply Hin. simpl. lia.
Defined.

(** Moving [2; 3] into a vector that holds [1]. *)
Lemma move_transfers_state_witness :
  (∃ s', Vector_move_ctor 5 1 (pair_of [] [1] 1 [2; 3] 2) = Done () s'
         ∧ represents s' 5 (Some 3) [2; 3] 2
         ∧ Size 1 s' = Done 0 s' ∧ Capacity 1 s' = Done 0 s')
  ∧ (∃ s', Vector_move_assign 0 1 (pair_of [] [1] 1 [2; 3] 2) = Done () s'
           ∧ represents s' 0 (Some 3) [2; 3] 2
           ∧ represents s' 1 (Some 2) [1] 1).
Proof.
  split.
  - destruct (move_transfers_state (pair_of [] [1] 1 [2; 3] 2) 5 1
                (Some 3) [2; 3] 2) as ((s' & He & _ & Hthis & _ & Hs & Hc) & _).
    + concrete_represents.
    + lia.
    + exists s'. split; [exact He|]. split; [exact Hthis|].
      split; [exact Hs|exact Hc].
  - destruct (move_transfers_state (pair_of [] [1] 1 [2; 3] 2) 0 1
                (Some 3) [2; 3] 2) as (_ & Ha & _).
    + concrete_represents.
    + lia.
    + destruct (Ha (Some 2) [1] 1) as (s' & He & _ & Hthis & Hother & _).
      * concrete_represents.
      * exists s'. split; [exact He|]. split; [exact Hthis|exact Hother].
Defined.

(** Move assignment to a vector that is not empty: the source ends with the
    size, the capacity and the element of the target, not empty. *)
Lemma move_assign_source_not_emptied :
  represents (pair_of [] [1] 1 [2; 3] 2) 0 (Some 2) [1] 1
  ∧ represents (pair_of [] [1] 1 [2; 3] 2) 1 (Some 3) [2; 3] 2
  ∧ ∃ s', Vector_move_assign 0 1 (pair_of [] [1] 1 [2; 3] 2) = Done () s'
          ∧ elements s' 0 = Some [2; 3]
          ∧ Size 1 s' = Done 1 s' ∧ Size 1 s' ≠ Done 0 s'
          ∧ Capacity 1 s' = Done 1 s' ∧ Capacity 1 s' ≠ Done 0 s'
          ∧ elements s' 1 = Some [1].
Proof.
  split; [concrete_represents|]. split; [concrete_represents|].
  eexists. split; [vm_compute; reflexivity|].
  repeat split; try (vm_compute; reflexivity); vm_compute; discriminate.
Qed.


(** [PushBack(7)] on a full vector. *)
Lemma operations_preserve_invariants_witness :
  ensures (λ _ s', Machine_inv s') (λ s', Machine_inv s') True
          (perform (DoPushBack 0 7) (single [] [1; 2] 2)).
Proof.
  destruct (operations_preserve_invariants (T := nat))
    as (_ & _ & _ & _ & _ & Hop).
  apply Hop. unfold Machine_inv, single. simpl.
  apply map_Forall_singleton. unfold Vector_inv, RawMemory_inv. simpl.
  split; [split; [lia|done]|lia].
Defined.

End Int_vectors.

Section Fragile_vectors.
#[local] Existing Instance fragile_element.
#[local] Existing Instance strict_library.


End Fragile_vectors.

(** Claim C1, at an input on which the code fails it.  A vector built by
    [Reserve(2)] and [PushBack(1)] holds one element and has room for a
    second.  [Insert] at [end()] passes the assertion and takes the branch
    that does not reallocate, where [std::move_backward] is called with
    [pos] as the start and [pos - 1] as the end of the range: the behaviour
    is undefined.  With a library whose [std::move_backward] does nothing on
    such a range and strings as elements, [Insert] returns, but the last
    element was moved from and is empty, and so it is after [Erase] at the
    iterator returned: the sequence is not the original one. *)
Theorem Insert_at_end_with_room :
  filled int_element strict_library 2 [1] (boot []) = Done () (single [] [1] 2)
  ∧ end_ 0 (single [] [1] 2) = Done (Ptr (Some 0) 1) (single [] [1] 2)
  ∧ insert_at_end int_element strict_library 2 [1] 7 (boot []) = Undefined
  ∧ (∃ s0, filled string_element lenient_library 2 [[104; 105]] (boot [])
           = Done () s0
           ∧ elements s0 0 = Some [[104; 105]])
  ∧ (∃ s1, insert_at_end string_element lenient_library 2 [[104; 105]] [33]
             (boot [])
           = Done (Ptr (Some 0) 1) s1
           ∧ elements s1 0 = Some [[]; [33]])
  ∧ (∃ s2, insert_at_end_erase string_element lenient_library 2
             [[104; 105]] [33] (boot [])
           = Done (Ptr (Some 0) 1) s2
           ∧ elements s2 0 = Some [[]]).
Proof.
  split; [vm_compute; reflexivity|]. split; [vm_compute; reflexivity|].
  split; [vm_compute; reflexivity|].
  split; [|split]; (eexists; split; vm_compute; reflexivity).
Qed.

(** Claim C10, at an input on which the code fails it.  A vector is built
    by [Reserve(4)] and three calls of [PushBack], an element is inserted at
    [begin() + 1], and the vector is destroyed.  The insertion does not
    reallocate; the object it creates with [new] is destroyed but its
    storage is never released.  After the destructor no [Vector] is left,
    and the block of one slot is still allocated. *)
Theorem Emplace_in_place_leaks_temporary :
  ∃ s', insert_and_destroy int_element strict_library 4 [5; 10; 15] 1 99
          (boot [])
        = Done () s'
        ∧ vectors s' = ∅
        ∧ heap (mem s') = {[ 1 := [None] ]}
        ∧ leaked s' = {[ 1 ]}.
Proof.
  eexists. split; [vm_compute; reflexivity|].
  repeat split; vm_compute; reflexivity.
Qed.

Section Int_overflow.
#[local] Existing Instance int_element.

(** Claim C7, at an input on which the code fails it.  For [int], of four
    bytes, and [n = 2^62], the product [n * sizeof(T)] that [Allocate] passes
    to [operator new] is [2^64], which is [0] as a [size_t]: the storage
    obtained has no room for any object, and constructing the first of the
    [n] elements in it is undefined behaviour. *)
Theorem Vector_sized_ctor_wraps :
  is_size_t (Z.to_nat (2 ^ 62))
  ∧ size_mul (Z.to_nat (2 ^ 62)) sizeof_T = 0
  ∧ Vector_sized_ctor 0 (Z.to_nat (2 ^ 62)) (boot []) = Undefined.
Proof.
  assert (size_mul (Z.to_nat (2 ^ 62)) sizeof_T = 0) as Hbytes.
  { unfold size_mul, to_size_t. rewrite Z2Nat.id by lia.
    vm_compute. reflexivity. }
  split; [unfold is_size_t; rewrite Z2Nat.id by lia; reflexivity|].
  split; [exact Hbytes|].
  apply Vector_sized_ctor_overrun.
  - rewrite Hbytes. change (0 / sizeof_T) with 0. lia.
  - constructor.
Qed.

End Int_overflow.

(** * Further properties of the container *)

Section Growth.
Context {T : Type} `{Element T} `{Library}.
Implicit Types (s : Machine T) (l : list T).

(** X1.  [Reserve(n)] with [n] at most the capacity changes nothing.  With
    [n] above the capacity it is defined and completes unless something
    throws; the elements are then in a fresh buffer of exactly [n] slots,
    unchanged and in their order, the old buffer is released, and no other
    block and no other vector is touched.  When it throws, the state is what
    it was, unless the type is move-only with a throwing move. *)
Theorem Reserve_relocates s this b l cap n :
  represents s this b l cap → is_size_t (n * sizeof_T) →
  runs s
    (λ _ s',
       if decide (cap < n) then
         ∃ a', heap (mem s) !! a' = None
               ∧ represents s' this (Some a') l n
               ∧ heap (mem s')
                 = <[a' := (Some <$> l) ++ replicate (n - length l) None]>
                     (released b (heap (mem s)))
               ∧ ∀ k, k ≠ this → vectors s' !! k = vectors s !! k
       else s' = s)
    (λ s', same_state s s'
           ∨ (nothrow_move_constructible = false ∧ copy_constructible = false))
    (Reserve this n s).
Proof.
  intros Hrep Hfit.
  eapply runs_mono; [by apply Reserve_runs|..]; simpl.
  - intros [] s' Hs'. case_decide; [|done].
    destruct Hs' as (a' & ? & ? & Hv & ?). exists a'. split_and!; [done..|].
    intros k Hk. by rewrite Hv, lookup_insert_ne.
  - intros s' [[? ?]|?]; [by left|by right].
Qed.

(** An append, in each of its three forms. *)
Lemma append_runs_detail s this b l cap how x :
  represents s this b l cap → is_size_t cap →
  (length l = cap → is_size_t (doubled (length l) * sizeof_T)) →
  runs s
    (λ _ s',
       if decide (length l = cap) then
         ∃ a', heap (mem s) !! a' = None
               ∧ represents s' this (Some a') (l ++ [x]) (doubled (length l))
               ∧ heap (mem s')
                 = <[a' := (Some <$> l ++ [x])
                           ++ replicate (doubled (length l) - length l - 1) None]>
                     (released b (heap (mem s)))
       else represents s' this b (l ++ [x]) cap)
    (λ s', vectors s' = vectors s
           ∧ (heap (mem s') = heap (mem s)
              ∨ (nothrow_move_constructible = false
                 ∧ copy_constructible = false)))
    (append this how x s).
Proof.
  intros Hrep Hsz Hfit.
  assert (∀ cm, constructs_at_end this x cm →
            runs s
              (λ _ s',
                 if decide (length l = cap) then
                   ∃ a', heap (mem s) !! a' = None
                         ∧ represents s' this (Some a') (l ++ [x])
                                      (doubled (length l))
                         ∧ heap (mem s')
                           = <[a' := (Some <$> l ++ [x])
                                     ++ replicate
                                          (doubled (length l) - length l - 1)
                                          None]>
                               (released b (heap (mem s)))
                 else represents s' this b (l ++ [x]) cap)
              (λ s', vectors s' = vectors s
                     ∧ (heap (mem s') = heap (mem s)
                        ∨ (nothrow_move_constructible = false
                           ∧ copy_constructible = false)))
              ((PushBackU this cm;; mret ()) s)) as Hgen.
  { intros cm Hcm. apply runs_bind.
    eapply runs_mono; [by eapply PushBackU_runs|..]; simpl; [|done].
    intros _ s' Hs'. split; [|done].
    destruct (decide (length l = cap)).
    - destruct Hs' as (a' & ? & ? & _ & ?). eauto.
    - by destruct Hs' as [? _]. }
  destruct how; simpl.
  - apply Hgen, PushBack_constructs.
  - apply Hgen, PushBack_rv_constructs.
  - apply Hgen, EmplaceBack_constructs.
Qed.

(** X2.  Appending [x], by [PushBack] of a copy, [PushBack] of a temporary
    or [EmplaceBack], is defined and completes unless something throws.
    When the vector has room, the element is constructed in place: the
    buffer and the capacity stay.  When the vector is full, the elements
    followed by [x] are in a fresh buffer of twice the size (of one slot for
    an empty vector) and the old buffer is released.  When it throws, the
    [Vector] objects are what they were, and the vector has its elements in
    its buffer unless the type is move-only with a throwing move. *)
Theorem append_adds_last s this b l cap how x :
  represents s this b l cap → is_size_t cap →
  (length l = cap → is_size_t (doubled (length l) * sizeof_T)) →
  runs s
    (λ _ s',
       if decide (length l = cap) then
         ∃ a', heap (mem s) !! a' = None
               ∧ represents s' this (Some a') (l ++ [x]) (doubled (length l))
               ∧ heap (mem s')
                 = <[a' := (Some <$> l ++ [x])
                           ++ replicate (doubled (length l) - length l - 1) None]>
                     (released b (heap (mem s)))
       else represents s' this b (l ++ [x]) cap)
    (λ s', vectors s' = vectors s
           ∧ (represents s' this b l cap
              ∨ (nothrow_move_constructible = false
                 ∧ copy_constructible = false)))
    (append this how x s).
Proof.
  intros Hrep Hsz Hfit.
  eapply runs_mono; [by apply append_runs_detail|done|]. simpl.
  intros s' [Hv [Hh|?]]; (split; [done|]); [left|by right].
  eapply represents_frame; [done|by rewrite Hv|]. intros a _. by rewrite Hh.
Qed.

(** An append that finds room. *)
Lemma append_in_place_runs s this b l cap how x :
  represents s this b l cap → is_size_t cap → length l < cap →
  runs s
    (λ _ s', represents s' this b (l ++ [x]) cap
             ∧ vectors s' = <[this := MkVector (MkRawMemory b cap)
                                               (length l + 1)]> (vectors s))
    (λ s', vectors s' = vectors s)
    (append this how x s).
Proof.
  intros Hrep Hsz Hroom.
  assert (∀ cm, constructs_at_end this x cm →
            runs s
              (λ _ s', represents s' this b (l ++ [x]) cap
                       ∧ vectors s'
                         = <[this := MkVector (MkRawMemory b cap)
                                              (length l + 1)]> (vectors s))
              (λ s', vectors s' = vectors s)
              ((PushBackU this cm;; mret ()) s)) as Hgen.
  { intros cm Hcm. apply runs_bind.
    eapply runs_mono;
      [eapply (PushBackU_runs s this b l cap x cm Hcm Hrep Hsz); lia|..];
      simpl; [|by intros ? [? _]].
    intros _ s' Hs'. split; [|done]. by rewrite decide_False in Hs' by lia. }
  destruct how; simpl.
  - apply Hgen, PushBack_constructs.
  - apply Hgen, PushBack_rv_constructs.
  - apply Hgen, EmplaceBack_constructs.
Qed.

(** X3.  Appends that fit in the capacity do not reallocate: after them the
    vector has the same buffer and the same capacity, which is what
    [Capacity()] returns after each of them, and holds the old elements
    followed by the new ones.  When one of them throws, the earlier ones have
    been appended and nothing else has changed in the [Vector] objects. *)
Theorem appends_within_capacity (ops : list (append_how * T)) :
  ∀ s this b l cap,
  represents s this b l cap → is_size_t cap →
  length l + length ops ≤ cap →
  runs s
    (λ caps s',
       caps = replicate (length ops) cap
       ∧ represents s' this b (l ++ ops.*2) cap
       ∧ vectors s' = <[this := MkVector (MkRawMemory b cap)
                                         (length l + length ops)]> (vectors s))
    (λ s', ∃ k, k < length ops
                ∧ vectors s' = <[this := MkVector (MkRawMemory b cap)
                                                  (length l + k)]> (vectors s))
    (append_all this ops s).
Proof.
  induction ops as [|[how x] ops IH]; intros s this b l cap Hrep Hsz Hlen;
    simpl in *.
  - split; [|done]. split_and!; [done|by rewrite app_nil_r|].
    rewrite Nat.add_0_r. symmetry. apply insert_id. by destruct Hrep.
  - eapply runs_seq; [eapply append_in_place_runs; [done..|lia]| |].
    { intros s' Hs'. exists 0. split; [lia|]. rewrite Hs', Nat.add_0_r.
      symmetry. apply insert_id. by destruct Hrep. }
    intros [] s1 [Hrep1 Hv1].
    eapply runs_Capacity; [by apply Hrep1|]. fields.
    apply runs_bind.
    eapply runs_mono; [eapply (IH s1 this b (l ++ [x]) cap Hrep1 Hsz)|..].
    + rewrite length_app. simpl. lia.
    + simpl. intros caps s2 (-> & Hrep2 & Hv2). split; [|done].
      split_and!; [done|by rewrite <-app_assoc in Hrep2|].
      rewrite Hv2, Hv1, insert_insert_eq, length_app. simpl.
      by replace (length l + 1 + length ops) with (length l + S (length ops))
        by lia.
    + simpl. intros s2 (k & Hk & Hv2). exists (S k). split; [lia|].
      rewrite Hv2, Hv1, insert_insert_eq, length_app. simpl.
      by replace (length l + 1 + k) with (length l + S k) by lia.
Qed.

End Growth.

Section Shrinking.
Context {T : Type} `{Element T} `{Library}.
#[local] Arguments destroy_n : simpl never.
#[local] Arguments CopyOrMove : simpl never.
Implicit Types (s : Machine T) (l : list T).

Lemma runs_put_vec_last this v s (Q : () → Machine T → Prop) E :
  Q () (MkMachine (mem s) (<[this := v]> (vectors s))) →
  runs s Q E (put_vec this v s).
Proof. intros HQ. by split. Qed.

Lemma PopBack_runs s this b l x cap :
  represents s this b (l ++ [x]) cap → is_size_t cap →
  runs s
    (λ _ s', represents s' this b l cap
             ∧ vectors s' = <[this := MkVector (MkRawMemory b cap) (length l)]>
                              (vectors s)
             ∧ ∃ a, b = Some a
                    ∧ heap (mem s')
                      = <[a := (Some <$> l) ++ replicate (cap - length l) None]>
                          (heap (mem s)))
    (λ _, False)
    (PopBack this s).
Proof.
  intros Hrep Hsz.
  destruct (represents_nonempty _ _ _ _ _ Hrep) as (a & -> & Hblk).
  { rewrite length_app. simpl. lia. }
  destruct Hrep as (Hv & Hle & Hcap & _).
  rewrite length_app in *. simpl in *.
  rewrite fmap_app, <-app_assoc in Hblk. simpl in Hblk.
  unfold PopBack.
  eapply runs_get_vec; [done|]. fields.
  eapply runs_plus_bind; [simpl; lia|]. fields.
  eapply runs_ptr_sub_bind; [lia|].
  eapply runs_lift_bind.
  { eapply (runs_destroy_n [x] _ a (Some <$> l)); [|done|exact Hblk].
    rewrite length_fmap. lia. }
  { done. }
  intros [] m1 Hm1. simpl in Hm1.
  rewrite size_sub_exact by (lia || size_t_solve).
  replace (length l + 1 - 1) with (length l) by lia.
  apply runs_put_vec_last.
  assert (heap m1 = <[a := (Some <$> l) ++ replicate (cap - length l) None]>
                      (heap (mem s))) as Hfinal.
  { rewrite Hm1. f_equal. f_equal.
    replace (cap - length l) with (S (cap - (length l + 1))) by lia. done. }
  split_and!; simpl.
  - eapply represents_intro; simpl;
      [apply lookup_insert_eq|done|lia|done
      |by rewrite Hfinal, lookup_insert_eq|done].
  - done.
  - by exists a.
Qed.

(** X4.  [PopBack] on a vector that is not empty destroys the last element:
    the others stay, in the same buffer, size is one less and the capacity
    is the same; it cannot throw.  On an empty vector its behaviour is
    undefined: [data_ + size_ - 1] is before the start of the buffer. *)
Theorem PopBack_removes_last s this b l cap :
  represents s this b l cap → is_size_t cap →
  (l = [] → PopBack this s = Undefined)
  ∧ ∀ l' x, l = l' ++ [x] →
      runs s
        (λ _ s', represents s' this b l' cap
                 ∧ ∀ k, k ≠ this → vectors s' !! k = vectors s !! k)
        (λ _, False)
        (PopBack this s).
Proof.
  intros Hrep Hsz. split.
  - intros ->. destruct Hrep as (Hv & _).
    unfold PopBack, RawMemory_plus, assert_, ptr_sub, mbind, prog_bind, get_vec.
    rewrite Hv. simpl. rewrite ?bool_decide_eq_true_2 by lia. done.
  - intros l' x ->.
    eapply runs_mono; [by apply (PopBack_runs s this b l' x cap)|..]; simpl;
      [|done].
    intros [] s' (? & Hv & _). split; [done|].
    intros k Hk. by rewrite Hv, lookup_insert_ne.
Qed.

(** X5.  An append followed by [PopBack] gives back the elements: the vector
    holds what it held, in a buffer that is the old one when there was room
    and a new one of twice the size when there was not. *)
Theorem append_then_PopBack s this b l cap how x :
  represents s this b l cap → is_size_t cap →
  (length l = cap → is_size_t (doubled (length l) * sizeof_T)) →
  runs s
    (λ _ s', ∃ b', represents s' this b' l
                     (if decide (length l = cap) then doubled (length l)
                      else cap)
                   ∧ (length l < cap → b' = b))
    (λ s', vectors s' = vectors s)
    ((append this how x;; PopBack this) s).
Proof.
  intros Hrep Hsz Hfit.
  eapply runs_seq; [by eapply append_runs_detail| |].
  { by intros s' [? _]. }
  intros [] s1 Hs1. destruct (decide (length l = cap)) as [Hfull|Hroom].
  - destruct Hs1 as (a' & _ & Hrep1 & _).
    eapply runs_mono;
      [eapply PopBack_runs; [done|by apply is_size_t_count, Hfit]|..];
      simpl; [|done].
    intros [] s2 (Hrep2 & _). exists (Some a'). split; [done|lia].
  - eapply runs_mono; [by eapply PopBack_runs|..]; simpl; [|done].
    intros [] s2 (Hrep2 & _). by exists b.
Qed.

End Shrinking.

Section Resizing.
Context {T : Type} `{Element T} `{Library}.
#[local] Arguments destroy_n : simpl never.
#[local] Arguments CopyOrMove : simpl never.
Implicit Types (s : Machine T) (l : list T).

(** The last steps of [Resize]: the elements are in place, the size is set. *)
Lemma Resize_commit (m : Mem T) vs this b l' cap n :
  n = length l' → length l' ≤ cap →
  match b with
  | None => cap = 0
  | Some a => 0 < cap
              ∧ heap m !! a
                = Some ((Some <$> l') ++ replicate (cap - length l') None)
  end →
  represents (MkMachine m (<[this := MkVector (MkRawMemory b cap) n]> vs))
             this b l' cap.
Proof. intros -> Hle Hb. split; [apply lookup_insert_eq|by split]. Qed.

(** X6.  [Resize(n)], for [n] whose size in bytes [n * sizeof(T)] is a
    [size_t], is defined and completes unless something throws.  It
    keeps the first [n] elements and, when [n] is above the size, appends
    value-initialised elements up to [n].  The buffer and the capacity stay
    when [n] is at most the capacity; otherwise the elements are in a fresh
    buffer of exactly [n] slots and the old one is released.  When it
    throws, the vector holds the elements it held, unless the type is
    move-only with a throwing move. *)
Theorem Resize_sets_size s this b l cap n :
  represents s this b l cap → is_size_t (n * sizeof_T) →
  runs s
    (λ _ s',
       if decide (cap < n) then
         ∃ a', heap (mem s) !! a' = None
               ∧ represents s' this (Some a')
                            (l ++ replicate (n - length l) dflt) n
               ∧ heap (mem s')
                 = <[a' := Some <$> l ++ replicate (n - length l) dflt]>
                     (released b (heap (mem s)))
       else represents s' this b
                       (take n l ++ replicate (n - length l) dflt) cap)
    (λ s', (∃ b' cap', represents s' this b' l cap')
           ∨ (nothrow_move_constructible = false ∧ copy_constructible = false))
    (Resize this n s).
Proof.
  intros Hrep Hfit. pose proof Hrep as (Hv & Hle & Hb).
  unfold Resize. eapply runs_get_vec; [done|]. fields.
  destruct (decide (length l = n)) as [Heq|Hne].
  { split; [|done]. rewrite decide_False by lia.
    rewrite take_ge by lia. replace (n - length l) with 0 by lia.
    by rewrite app_nil_r. }
  destruct (decide (n < length l)) as [Hshrink|Hgrow].
  - destruct b as [a|]; [|lia]. destruct Hb as [Hcap Hblk].
    rewrite <-(take_drop n l) in Hblk at 1.
    rewrite fmap_app, <-app_assoc in Hblk.
    rewrite bind_assoc.
    eapply runs_plus_bind; [simpl; lia|]. fields.
    eapply runs_lift_bind.
    { eapply (runs_destroy_n (drop n l) _ a (Some <$> take n l));
        [|by rewrite length_drop|exact Hblk].
      rewrite length_fmap, length_take. lia. }
    { done. }
    intros [] m1 Hm1. simpl in Hm1.
    eapply runs_get_vec; [done|]. fields.
    apply runs_put_vec_last. rewrite decide_False by lia.
    replace (n - length l) with 0 by lia. simpl. rewrite app_nil_r.
    assert (length (take n l) = n) as Hn by (rewrite length_take; lia).
    apply Resize_commit; simpl; [done|lia|].
    split; [done|]. rewrite Hm1, lookup_insert_eq. do 2 f_equal.
    rewrite <-replicate_add. f_equal. lia.
  - rewrite take_ge by lia. rewrite bind_assoc.
    eapply runs_seq; [by apply Reserve_runs| |].
    { intros s' [[? ?]|?]; [left|by right].
      exists b, cap. by apply (same_state_represents s). }
    intros [] s1 Hs1.
    assert (∃ b1 cap1,
              represents s1 this b1 l cap1 ∧ n ≤ cap1
              ∧ if decide (cap < n) then
                  ∃ a', b1 = Some a' ∧ cap1 = n ∧ heap (mem s) !! a' = None
                        ∧ heap (mem s1)
                          = <[a' := (Some <$> l)
                                    ++ replicate (n - length l) None]>
                              (released b (heap (mem s)))
                else b1 = b ∧ cap1 = cap) as (b1 & cap1 & Hrep1 & Hn1 & Hcase).
    { destruct (decide (cap < n)).
      - destruct Hs1 as (a' & ? & ? & _ & ?). exists (Some a'), n.
        split; [done|split; [lia|]]. by exists a'.
      - subst s1. exists b, cap. split; [done|split; [lia|done]]. }
    clear Hs1. pose proof Hrep1 as (Hv1 & Hle1 & Hb1).
    destruct b1 as [a1|]; [|lia]. destruct Hb1 as [Hcap1 Hblk1].
    replace (cap1 - length l)
      with ((n - length l) + (cap1 - n)) in Hblk1 by lia.
    rewrite replicate_add in Hblk1.
    rewrite bind_assoc.
    eapply runs_get_vec; [done|]. fields.
    rewrite bind_assoc.
    eapply runs_plus_bind; [simpl; lia|]. fields.
    eapply runs_lift_bind.
    { eapply (runs_uninitialized_value_construct_n _ _ a1 (Some <$> l));
        [by rewrite length_fmap|exact Hblk1]. }
    { simpl. intros m' Hm'. left. exists (Some a1), cap1.
      eapply represents_frame; [exact Hrep1|done|]. intros ? _. simpl.
      by rewrite Hm'. }
    intros [] m2 Hm2. simpl in Hm2.
    eapply runs_get_vec; [done|]. fields.
    apply runs_put_vec_last.
    assert (length (l ++ replicate (n - length l) dflt) = n) as Hn.
    { rewrite length_app, length_replicate. lia. }
    assert (represents
              (MkMachine m2
                 (<[this := MkVector (MkRawMemory (Some a1) cap1) n]>
                    (vectors s1)))
              this (Some a1) (l ++ replicate (n - length l) dflt) cap1)
      as Hfinal.
    { apply Resize_commit; simpl; [done|lia|].
      split; [done|]. rewrite Hm2, lookup_insert_eq. f_equal.
      rewrite fmap_app, fmap_replicate, <-app_assoc. do 3 f_equal. lia. }
    destruct (decide (cap < n)).
    + destruct Hcase as (a' & [= ->] & -> & Hfresh & Hh1). exists a'.
      split_and!; [done..|]. simpl. rewrite Hm2, Hh1, insert_insert_eq.
      f_equal. rewrite Nat.sub_diag. simpl.
      by rewrite fmap_app, fmap_replicate, app_nil_r.
    + by destruct Hcase as [<- ->].
Qed.

End Resizing.

Section Lifetime.
Context {T : Type} `{Element T} `{Library}.
#[local] Arguments destroy_n : simpl never.
#[local] Arguments CopyOrMove : simpl never.
Implicit Types (s : Machine T) (l : list T).

(** X7.  [Swap] of two vectors cannot fail and touches no memory: each ends
    with the buffer, the capacity and the elements of the other, every other
    vector is as it was, and a second [Swap] restores the state.  [Swap] of
    a vector with itself changes nothing. *)
Theorem Swap_exchanges s this other ba la capa bb lb capb :
  this ≠ other →
  represents s this ba la capa → represents s other bb lb capb →
  Swap this this s = Done () s
  ∧ ∃ s', Swap this other s = Done () s'
          ∧ mem s' = mem s
          ∧ represents s' this bb lb capb
          ∧ represents s' other ba la capa
          ∧ (∀ k, k ≠ this → k ≠ other → vectors s' !! k = vectors s !! k)
          ∧ Swap this other s' = Done () s.
Proof.
  intros Hne Hthis Hother.
  pose proof Hthis as (Hva & Hlea & Hba).
  pose proof Hother as (Hvb & Hleb & Hbb).
  split.
  { rewrite (Swap_self_eq s this _ Hva). destruct s as [m vs]. simpl in *.
    by rewrite insert_id. }
  eexists. split; [by apply Swap_eq|]. simpl. split; [done|].
  split_and!.
  - split; [simpl; by rewrite lookup_insert_ne, lookup_insert_eq by done|].
    by split.
  - split; [simpl; by rewrite lookup_insert_eq|]. by split.
  - intros k Hk1 Hk2. by rewrite !lookup_insert_ne by done.
  - erewrite Swap_eq; [| done |..]; simpl.
    + destruct s as [m vs]. simpl in *. f_equal. f_equal.
      apply map_eq. intros k.
      repeat (rewrite lookup_insert; case_decide; simplify_eq); done.
    + by rewrite lookup_insert_ne, lookup_insert_eq by done.
    + by rewrite lookup_insert_eq.
Qed.

(** X8.  The destructor cannot throw: it destroys the elements, releases the
    buffer and nothing else, and the object is gone. *)
Theorem Vector_dtor_releases s this b l cap :
  represents s this b l cap →
  runs s
    (λ _ s', vectors s' = delete this (vectors s)
             ∧ heap (mem s') = released b (heap (mem s)))
    (λ _, False)
    (Vector_dtor this s).
Proof. apply Vector_dtor_runs. Qed.

(** The copy constructor, with what is known of the new object. *)
Lemma Vector_copy_ctor_runs_detail s this other b l cap :
  this ≠ other →
  represents s other b l cap → is_size_t (length l * sizeof_T) →
  runs s
    (λ _ s', ∃ b',
       represents s' this b' l (length l)
       ∧ represents s' other b l cap
       ∧ vectors s' = <[this := MkVector (MkRawMemory b' (length l))
                                         (length l)]> (vectors s)
       ∧ match b' with
         | None => l = [] ∧ heap (mem s') = heap (mem s)
         | Some a' => b ≠ Some a' ∧ heap (mem s) !! a' = None
                      ∧ heap (mem s') = <[a' := Some <$> l]> (heap (mem s))
         end)
    (λ s', same_state s s')
    (Vector_copy_ctor this other s).
Proof.
  intros Hne Hrep Hfit. pose proof Hrep as (Hv & Hle & Hb).
  eapply runs_mono; [by eapply Vector_copy_ctor_runs|..]; simpl; [|done].
  intros [] s' (b' & Hv' & Hb'). exists b'.
  assert (represents s' other b l cap) as Hother.
  { eapply represents_frame; [done|by rewrite Hv', lookup_insert_ne|].
    intros a ->. destruct b' as [a'|].
    - destruct Hb' as (_ & Hfresh & ->). destruct Hb as [_ Hb].
      rewrite lookup_insert_ne; [done|]. congruence.
    - by destruct Hb' as [_ ->]. }
  split; [|split; [done|split; [done|]]].
  - split; [by rewrite Hv', lookup_insert_eq|split; [done|]].
    destruct b' as [a'|].
    + destruct Hb' as (Hpos & _ & ->). split; [done|].
      by rewrite lookup_insert_eq, Nat.sub_diag, app_nil_r.
    + by destruct Hb' as [-> _].
  - destruct b' as [a'|]; [|done]. destruct Hb' as (_ & Hfresh & ?).
    split; [|done]. intros ->. destruct Hb. congruence.
Qed.

(** X9.  The copy constructor is defined and completes unless something
    throws.  The new vector has the elements of the other one, in a buffer of
    its own whose capacity is the size, not the capacity, of the other; the
    other vector and every other block are as they were.  When it throws,
    the state is what it was. *)
Theorem Vector_copy_ctor_copies s this other b l cap :
  this ≠ other →
  represents s other b l cap → is_size_t (length l * sizeof_T) →
  runs s
    (λ _ s', ∃ b',
       represents s' this b' l (length l)
       ∧ represents s' other b l cap
       ∧ vectors s' = <[this := MkVector (MkRawMemory b' (length l))
                                         (length l)]> (vectors s)
       ∧ match b' with
         | None => l = [] ∧ heap (mem s') = heap (mem s)
         | Some a' => b ≠ Some a' ∧ heap (mem s) !! a' = None
                      ∧ heap (mem s') = <[a' := Some <$> l]> (heap (mem s))
         end)
    (λ s', same_state s s')
    (Vector_copy_ctor this other s).
Proof. apply Vector_copy_ctor_runs_detail. Qed.


(** X11.  After a move construction the source can be destroyed: its
    destructor releases nothing, and the new vector keeps the buffer and the
    elements.  Nothing is thrown and no memory is touched. *)
Theorem move_then_destroy_source s this other b l cap :
  this ≠ other → represents s other b l cap →
  ∃ s', (Vector_move_ctor this other;; Vector_dtor other) s = Done () s'
        ∧ heap (mem s') = heap (mem s)
        ∧ represents s' this b l cap
        ∧ vectors s' !! other = None.
Proof.
  intros Hne Hrep. pose proof Hrep as (Hv & Hle & Hb).
  erewrite bind_Done by (by apply Vector_move_ctor_eq).
  set (s1 := MkMachine (mem s)
               (<[other := MkVector (MkRawMemory None 0) 0]>
                  (<[this := MkVector (MkRawMemory b cap) (length l)]>
                     (vectors s)))).
  assert (represents s1 other None ([] : list T) 0) as Hemp.
  { split; [by simpl; rewrite lookup_insert_eq|by split]. }
  pose proof (Vector_dtor_runs s1 other None [] 0 Hemp) as Hr.
  destruct (Vector_dtor other s1) as [[] s2|s2|] eqn:Hd; [|by destruct Hr..].
  destruct Hr as [[Hv2 Hh2] _]. exists s2. split; [done|].
  simpl in Hv2, Hh2. split; [done|]. split.
  - split; [|split; [done|]].
    + rewrite Hv2, lookup_delete_ne by done.
      by rewrite lookup_insert_ne, lookup_insert_eq by done.
    + destruct b as [a|]; [|done]. destruct Hb. split; [done|].
      by rewrite Hh2.
  - by rewrite Hv2, lookup_delete_eq.
Qed.

End Lifetime.

Section Access.
Context {T : Type} `{Element T} `{Library}.
#[local] Arguments destroy_n : simpl never.
#[local] Arguments CopyOrMove : simpl never.
Implicit Types (s : Machine T) (l : list T).

(** Reading a slot of the vector's buffer. *)
Lemma load_element s this b l cap i x :
  represents s this b l cap → l !! i = Some x →
  deref (Ptr b i) s = Done x s.
Proof.
  intros (Hv & Hle & Hb) Hx. unfold deref, lift, load. simpl.
  destruct b as [a|].
  - destruct Hb as [_ ->].
    rewrite lookup_app_l by (rewrite length_fmap; by eapply lookup_lt_Some).
    rewrite list_lookup_fmap, Hx. simpl. by destruct s.
  - subst cap. apply lookup_lt_Some in Hx. lia.
Qed.

Lemma load_past_end s this b l cap :
  represents s this b l cap →
  deref (Ptr b (length l)) s = (Undefined : outcome (Machine T) T).
Proof.
  intros (Hv & Hle & Hb). unfold deref, lift, load. simpl.
  destruct b as [a|]; [|done]. destruct Hb as [_ ->].
  rewrite lookup_app_r by (by rewrite length_fmap).
  rewrite length_fmap, Nat.sub_diag.
  by destruct (cap - length l).
Qed.

Lemma Vector_index_eq s this b l cap i :
  represents s this b l cap → i < length l →
  Vector_index this i s = Done (Ptr b i) s.
Proof.
  intros (Hv & Hle & Hb) Hi. unfold Vector_index, get_vec, RawMemory_index.
  unfold mbind, prog_bind, assert_. rewrite Hv. simpl.
  rewrite bool_decide_eq_true_2 by done. simpl.
  by rewrite bool_decide_eq_true_2 by lia.
Qed.

(** X12.  [operator[]] with an index below [Size()] cannot fail and changes
    nothing: it yields a reference to the slot of that index in the buffer,
    and reading through it gives the element of that index.  With an index
    that is not below [Size()] the assertion fails. *)
Theorem Vector_index_reads s this b l cap i :
  represents s this b l cap →
  (∀ x, l !! i = Some x →
        Vector_index this i s = Done (Ptr b i) s
        ∧ read_index this i s = Done x s)
  ∧ (length l ≤ i →
     Vector_index this i s = Undefined ∧ read_index this i s = Undefined).
Proof.
  intros Hrep. split.
  - intros x Hx. pose proof (lookup_lt_Some _ _ _ Hx) as Hi.
    pose proof (Vector_index_eq _ _ _ _ _ _ Hrep Hi) as Hidx.
    split; [done|]. unfold read_index.
    erewrite bind_Done by exact Hidx. by eapply load_element.
  - intros Hi. destruct Hrep as (Hv & Hle & Hb).
    assert (Vector_index this i s = Undefined) as Hidx.
    { unfold Vector_index, get_vec, mbind, prog_bind, assert_.
      rewrite Hv. simpl. by rewrite bool_decide_eq_false_2 by lia. }
    split; [done|]. unfold read_index. by rewrite (bind_Undefined _ _ _ Hidx).
Qed.

(** X13.  [begin()] and [end()] cannot fail and change nothing.  They point
    into the vector's buffer, [Size()] apart; the iterator [begin() + i]
    reads the element of index [i], for every index below [Size()], and it
    is the reference [operator[]] gives; reading through [end()] is
    undefined. *)
Theorem iterators_span_elements s this b l cap :
  represents s this b l cap →
  begin_ this s = Done (Ptr b 0) s
  ∧ end_ this s = Done (Ptr b (length l)) s
  ∧ std_distance (Ptr b 0) (Ptr b (length l)) s = Done (length l) s
  ∧ (∀ i x, l !! i = Some x →
            deref (Ptr b 0 +ₚ i) s = Done x s
            ∧ Vector_index this i s = Done (Ptr b 0 +ₚ i) s)
  ∧ deref (Ptr b (length l)) s = Undefined.
Proof.
  intros Hrep. split; [by eapply represents_begin|].
  split; [by eapply represents_end|]. split.
  { unfold std_distance, ptr_le. simpl.
    rewrite !bool_decide_eq_true_2 by (done || lia). simpl.
    by rewrite Nat.sub_0_r. }
  split; [|by eapply load_past_end].
  intros i x Hx. unfold ptr_add. simpl. split; [by eapply load_element|].
  eapply Vector_index_eq; [done|by eapply lookup_lt_Some].
Qed.

(** X14.  The positions handed to [Emplace], [Insert] and [Erase] are
    checked: a pointer into another block, a position after [end()] for an
    insertion, and a position at or after [end()] for an erasure fail the
    assertion; nothing is done to the vector. *)
Theorem positions_are_checked s this b l cap pos x :
  represents s this b l cap →
  (base pos ≠ b ∨ length l < index pos →
   Emplace this pos x s = Undefined ∧ Insert this pos x s = Undefined)
  ∧ (base pos ≠ b ∨ length l ≤ index pos → Erase this pos s = Undefined).
Proof.
  intros Hrep.
  pose proof (represents_begin _ _ _ _ _ Hrep) as Hbeg.
  pose proof (represents_end _ _ _ _ _ Hrep) as Hend.
  split.
  - intros Hpos.
    assert (Emplace this pos x s = Undefined) as Hem; [|by split].
    unfold Emplace. erewrite bind_Done by exact Hbeg.
    erewrite bind_Done by exact Hend.
    apply bind_Undefined. unfold assert_, ptr_le. simpl.
    destruct Hpos as [Hb|Hi].
    + rewrite (bool_decide_eq_false_2 (b = base pos)) by congruence. done.
    + rewrite (bool_decide_eq_false_2 (index pos ≤ length l)) by lia.
      by rewrite andb_false_r, andb_false_r.
  - intros Hpos. unfold Erase. erewrite bind_Done by exact Hbeg.
    erewrite bind_Done by exact Hend.
    apply bind_Undefined. unfold assert_, ptr_le, ptr_lt. simpl.
    destruct Hpos as [Hb|Hi].
    + rewrite (bool_decide_eq_false_2 (b = base pos)) by congruence. done.
    + rewrite (bool_decide_eq_false_2 (index pos < length l)) by lia.
      by rewrite andb_false_r, andb_false_r.
Qed.

End Access.

Section Insertion.
Context {T : Type} `{Element T} `{Library}.
#[local] Arguments destroy_n : simpl never.
#[local] Arguments CopyOrMove : simpl never.
Implicit Types (s : Machine T) (l : list T).

Lemma lookup_inserted {A} (l : list A) p x :
  p ≤ length l → (take p l ++ x :: drop p l) !! p = Some x.
Proof.
  intros Hp. rewrite lookup_app_r by (rewrite length_take; lia).
  rewrite length_take, Nat.min_l, Nat.sub_diag by done. done.
Qed.

(** X15.  [Insert] before [end()] into a vector with spare capacity is
    defined and completes unless something throws.  The elements from the
    position on move one place to the right, the new element takes the
    position, the buffer and the capacity stay and the size grows by one; the
    iterator returned is the position, and reading through it gives the new
    element.  When something throws the vector objects are as they were. *)
Theorem Insert_in_place_shifts_right s this a l cap p x :
  represents s this (Some a) l cap → p < length l → length l < cap →
  is_size_t cap →
  runs s
    (λ r s',
       r = Ptr (Some a) p
       ∧ represents s' this (Some a) (take p l ++ x :: drop p l) cap
       ∧ (∀ i, i < p → (take p l ++ x :: drop p l) !! i = l !! i)
       ∧ (∀ i, p ≤ i → (take p l ++ x :: drop p l) !! S i = l !! i)
       ∧ deref r s' = Done x s'
       ∧ Size this s' = Done (length l + 1) s'
       ∧ Capacity this s' = Done cap s')
    (λ s', vectors s' = vectors s)
    (Insert this (Ptr (Some a) p) x s).
Proof.
  intros Hrep Hp Hlt Hsz. unfold Insert.
  eapply runs_mono; [by eapply Emplace_in_place_runs|..]; simpl; [|done].
  intros r s' (-> & Hrep' & _). split; [done|]. split; [done|].
  split_and!.
  - intros i Hi. rewrite lookup_app_l by (rewrite length_take; lia).
    by rewrite lookup_take_lt.
  - intros i Hi. rewrite lookup_app_r by (rewrite length_take; lia).
    rewrite length_take, Nat.min_l by lia.
    replace (S i - p) with (S (i - p)) by lia. simpl.
    rewrite lookup_drop. f_equal. lia.
  - eapply load_element; [done|]. apply lookup_inserted. lia.
  - erewrite represents_Size by done. do 2 f_equal.
    rewrite length_app, length_take. simpl. rewrite length_drop. lia.
  - by erewrite represents_Capacity.
Qed.

(** X16.  [Insert] at any position of a full vector, [end()] included, is
    defined and completes unless something throws.  The vector ends in a
    fresh buffer of twice the capacity with the new element at the position
    and the others in order around it, and the old buffer is released; the
    iterator returned points to the new element in the new buffer. *)
Theorem Insert_on_full_reallocates s this b l cap p x :
  represents s this b l cap → 0 < length l → length l = cap →
  p ≤ length l → is_size_t (2 * length l * sizeof_T) →
  runs s
    (λ r s', ∃ a',
       r = Ptr (Some a') p
       ∧ heap (mem s) !! a' = None
       ∧ represents s' this (Some a') (take p l ++ x :: drop p l) (2 * cap)
       ∧ deref r s' = Done x s'
       ∧ heap (mem s')
         = <[a' := (Some <$> take p l ++ x :: drop p l)
                   ++ replicate (cap - 1) None]>
             (released b (heap (mem s))))
    (λ s', (vectors s' = vectors s ∧ heap (mem s') = heap (mem s))
           ∨ (nothrow_move_constructible = false ∧ copy_constructible = false))
    (Insert this (Ptr b p) x s).
Proof.
  intros Hrep Hpos Hcap Hp Hfit. unfold Insert.
  assert (doubled (length l) = 2 * length l) as Hd.
  { unfold doubled. rewrite decide_False by lia. lia. }
  eapply runs_mono;
    [eapply (Emplace_realloc_runs s this b l cap p x Hrep Hp); [by left|by rewrite Hd]|..];
    simpl; [|done].
  intros r s' (a' & -> & Hfresh & Hrep' & _ & Hheap).
  rewrite Hd in Hrep', Hheap. rewrite <-Hcap. exists a'.
  split_and!; [done|done|done| |].
  - eapply load_element; [done|]. by apply lookup_inserted.
  - rewrite Hheap. do 3 f_equal. lia.
Qed.

(** X17.  [Insert] at a position before [end()], or at any position of a
    full vector, followed by [Erase] at the iterator it returned, is defined,
    completes unless something throws, and gives back the element sequence
    the vector had; the capacity is the one [Insert] left. *)
Theorem Insert_then_Erase_round_trip s this b l cap p x :
  represents s this b l cap → is_size_t cap → p ≤ length l →
  p < length l ∨ length l = cap →
  (length l = cap → is_size_t (doubled (length l) * sizeof_T)) →
  runs s
    (λ r s', ∃ b' cap',
       r = Ptr b' p
       ∧ represents s' this b' l cap'
       ∧ elements s' this = Some l
       ∧ cap' = (if decide (length l = cap) then doubled (length l) else cap))
    (λ _, True)
    ((it ← Insert this (Ptr b p) x; Erase this it) s).
Proof.
  intros Hrep Hsz Hp Hcase Hfit. unfold Insert.
  assert (delete p (take p l ++ x :: drop p l) = l) as Hdel.
  { rewrite <-(length_take_le l p) at 1 by done.
    rewrite delete_middle. apply take_drop. }
  assert (p < length (take p l ++ x :: drop p l)) as Hp'.
  { rewrite length_app, length_take. simpl. lia. }
  destruct (decide (length l = cap)) as [Hcap|Hroom].
  - specialize (Hfit Hcap).
    eapply runs_seq;
      [eapply Emplace_realloc_runs; [done|done|by left|done]|done|].
    intros r s1 (a' & -> & _ & Hrep1 & _).
    eapply runs_mono;
      [eapply Erase_runs; [done|by eapply is_size_t_count|done]|..];
      simpl; [|done].
    intros r s2 (-> & Hrep2 & _). rewrite Hdel in Hrep2.
    exists (Some a'), (doubled (length l)).
    split_and!; [done|done|by eapply represents_elements|done].
  - assert (p < length l ∧ length l < cap) as [Hp1 Hlt].
    { pose proof Hrep as (_ & ? & _). lia. }
    destruct (represents_nonempty s this b l cap Hrep ltac:(lia))
      as (a & -> & _).
    eapply runs_seq; [by eapply Emplace_in_place_runs|done|].
    intros r s1 (-> & Hrep1 & _).
    eapply runs_mono; [by eapply Erase_runs|..]; simpl; [|done].
    intros r s2 (-> & Hrep2 & _). rewrite Hdel in Hrep2.
    exists (Some a), cap.
    split_and!; [done|done|by eapply represents_elements|done].
Qed.

(** Appending to a vector whose buffer has no slot left although its
    capacity says otherwise. *)
Lemma PushBack_outside_buffer s this a cap n blk x :
  vectors s !! this = Some (MkVector (MkRawMemory (Some a) cap) n) →
  n ≠ cap → heap (mem s) !! a = Some blk → length blk ≤ n →
  calm (oracle (mem s)) →
  PushBack this x s = Undefined.
Proof.
  intros Hv Hn Hblk Hlen Hcalm.
  assert (get_vec this s = Done (MkVector (MkRawMemory (Some a) cap) n) s)
    as Hget by (unfold get_vec; by rewrite Hv).
  unfold PushBack. apply bind_Undefined.
  unfold PushBackU. erewrite bind_Done by exact Hget. simpl.
  apply bind_Undefined. rewrite decide_True by done.
  erewrite bind_Done by exact Hget. simpl.
  apply bind_Undefined. unfold lift, construct_at, mbind, prog_bind.
  destruct (tick_calm (mem s) Hcalm) as (o & -> & _).
  unfold store. simpl. rewrite Hblk.
  rewrite decide_False; [done|]. lia.
Qed.

(** X18.  [Reserve] does not check that the storage it asks for can be
    counted in bytes: the count [n * sizeof(T)] is taken as a [size_t].  When
    the storage obtained has room for the elements, [Reserve] completes
    unless something throws and the vector reports the capacity [n], but its
    buffer has only as many slots as the wrapped count of bytes pays for;
    when that is fewer than [n] and all of them are taken, the next
    [PushBack] constructs an element outside the buffer. *)
Theorem Reserve_unchecked_bytes s this b l cap n :
  represents s this b l cap → cap < n →
  length l ≤ size_mul n sizeof_T / sizeof_T →
  runs s
    (λ _ s', ∃ a',
       heap (mem s) !! a' = None
       ∧ vectors s' = <[this := MkVector (MkRawMemory (Some a') n)
                                         (length l)]> (vectors s)
       ∧ heap (mem s')
         = <[a' := (Some <$> l)
                   ++ replicate (size_mul n sizeof_T / sizeof_T - length l)
                                None]>
             (released b (heap (mem s)))
       ∧ Capacity this s' = Done n s'
       ∧ (length l = size_mul n sizeof_T / sizeof_T → length l < n →
          calm (oracle (mem s')) →
          ∀ x, PushBack this x s' = Undefined))
    (λ s', (vectors s' = vectors s ∧ heap (mem s') = heap (mem s))
           ∨ (nothrow_move_constructible = false ∧ copy_constructible = false))
    (Reserve this n s).
Proof.
  intros Hrep Hgrow Hroom. pose proof Hrep as (Hv & Hle & Hb).
  set (k := size_mul n sizeof_T / sizeof_T) in *.
  unfold Reserve. (eapply runs_Capacity; [done|]); fields.
  rewrite decide_True by done.
  eapply runs_lift_bind; [by apply runs_RawMemory_ctor_slots|by left|].
  intros [[a'|] n'] m1 [Hn' Hm1]; simpl in Hn', Hm1; [|lia].
  destruct Hm1 as (_ & Hfresh & Hm1). subst n'. fold k in Hm1.
  assert (b ≠ Some a') as Hne.
  { intros ->. destruct Hb. congruence. }
  assert (replicate k (None : option T)
          = replicate (length l) None ++ replicate (k - length l) None)
    as Hsplit by (rewrite <-replicate_add; f_equal; lia).
  rewrite Hsplit in Hm1.
  apply runs_bind. apply runs_unwind.
  eapply runs_mono;
    [eapply (CopySwap_runs _ this b l cap a' n); [|done|]|..].
  { split_and!; simpl; [done..|]. destruct b as [a|]; [|done].
    destruct Hb. split; [done|]. rewrite Hm1, lookup_insert_ne; [done|].
    congruence. }
  { simpl. by rewrite Hm1, lookup_insert_eq. }
  2: { simpl. intros s' [Hvs Hheap].
    eapply runs_lift_last; [eapply (runs_RawMemory_dtor _ (MkRawMemory _ _))|..];
      simpl.
    - destruct Hheap as [->|(_&_&a&sblk&_&->)].
      + by rewrite Hm1, lookup_insert_eq.
      + rewrite lookup_insert. case_decide; [done|].
        by rewrite Hm1, lookup_insert_eq.
    - done.
    - intros _ m'' Hm''. destruct Hheap as [Hh|(?&?&_)]; [left|by right].
      split; [done|].
      rewrite Hm'', Hh, Hm1, delete_insert_eq. by apply delete_id. }
  intros nd s3 (-> & Hv3 & Hh3). simpl in Hv3, Hh3.
  eapply runs_lift_last;
    [eapply (runs_RawMemory_dtor _ (MkRawMemory b cap))|done|].
  { simpl. destruct b as [a|]; [|done]. rewrite Hh3. simpl.
    rewrite lookup_insert_ne by congruence. by rewrite lookup_insert_eq. }
  intros [] m4 Hm4. simpl in Hm4.
  assert (heap m4 = <[a' := (Some <$> l) ++ replicate (k - length l) None]>
                      (released b (heap (mem s)))) as Hfinal.
  { rewrite Hm4, Hh3, Hm1. destruct b as [a|]; simpl; heap_eq. }
  exists a'. split_and!; simpl; [done|done|done|..].
  - unfold Capacity, get_vec, mbind, prog_bind. simpl.
    by rewrite Hv3, lookup_insert_eq.
  - intros Hk Hn Hcalm x.
    eapply (PushBack_outside_buffer _ this a' n (length l)); simpl;
      [by rewrite Hv3, lookup_insert_eq|lia
      |by rewrite Hfinal, lookup_insert_eq| |done].
    rewrite length_app, length_fmap, length_replicate. lia.
Qed.

End Insertion.

Section Ownership.
Context {T : Type} `{Element T} `{Library}.
#[local] Arguments destroy_n : simpl never.
#[local] Arguments CopyOrMove : simpl never.
Implicit Types (s : Machine T) (l : list T).

(** [PushBackU] once more, with the pointer it returns and with the whole of
    the free store afterwards: the vector's buffer is the only block that
    differs from the blocks there were, the old buffer apart. *)
Lemma PushBackU_runs_store s this b l cap x copy_move (res_of : ptr → ptr) :
  (∀ s v a blk,
     vectors s !! this = Some v →
     heap (mem s) !! a = Some blk →
     size_ v < length blk →
     runs s
       (λ r s', r = res_of (Ptr (Some a) (size_ v))
                ∧ vectors s' = vectors s
                ∧ heap (mem s')
                  = <[a := <[size_ v := Some x]> blk]> (heap (mem s)))
       (λ s', vectors s' = vectors s ∧ heap (mem s') = heap (mem s))
       (copy_move (Ptr (Some a) 0) s)) →
  represents s this b l cap →
  is_size_t cap →
  (length l = cap → is_size_t (doubled (length l) * sizeof_T)) →
  runs s
    (λ r s', ∃ a',
       r = res_of (Ptr (Some a') (length l))
       ∧ released b (heap (mem s)) !! a' = None
       ∧ represents s' this (Some a') (l ++ [x])
           (if decide (length l = cap) then doubled (length l) else cap)
       ∧ vectors s' = <[this := MkVector
                          (MkRawMemory (Some a')
                             (if decide (length l = cap)
                              then doubled (length l) else cap))
                          (length l + 1)]> (vectors s)
       ∧ heap (mem s')
         = <[a' := (Some <$> l ++ [x])
                   ++ replicate
                        ((if decide (length l = cap)
                          then doubled (length l) else cap) - length l - 1)
                        None]>
             (released b (heap (mem s))))
    (λ s', vectors s' = vectors s
           ∧ (heap (mem s') = heap (mem s)
              ∨ (nothrow_move_constructible = false
                 ∧ copy_constructible = false)))
    (PushBackU this copy_move s).
Proof.
  intros Hcm Hrep Hsz Hfit. pose proof Hrep as (Hv & Hle & Hb).
  destruct (decide (length l = cap)) as [Hcap|Hroom];
    unfold PushBackU, GetAddress;
    (eapply runs_get_vec; [done|]); fields.
  2: { rewrite decide_True by done.
    destruct b as [a|]; [|lia]. destruct Hb as [Hcap Hblk].
    replace (cap - length l) with (S (cap - length l - 1)) in Hblk by lia.
    eapply runs_seq; [eapply (Hcm s _ a _ Hv Hblk)| |].
    { rewrite length_app, length_fmap. simpl. lia. }
    { simpl. intros s' [? ?]. by split; [|left]. }
    intros res s1 (Hres & Hv1 & Hh1). fields in Hh1. fields in Hres.
    rewrite insert_at_raw in Hh1.
    eapply runs_get_vec; [by rewrite Hv1|]. fields.
    rewrite size_add_exact by size_t_solve.
    eapply runs_put_vec. split; [|done]. simpl. rewrite Hv1.
    exists a. split; [done|]. split; [by rewrite lookup_delete_eq|].
    split; [|split; [done|]].
    - eapply represents_intro; simpl;
        [apply lookup_insert_eq| |..|by rewrite Hh1, lookup_insert_eq|].
      + rewrite length_app. simpl. lia.
      + rewrite length_app. simpl. lia.
      + done.
      + rewrite length_app. simpl. do 2 f_equal. lia.
    - rewrite Hh1. by rewrite insert_delete_eq. }
  rewrite decide_False by (intros ?; done).
  apply runs_bind.
  specialize (Hfit Hcap). pose proof (is_size_t_count _ Hfit) as Hfd.
  rewrite (doubled_exact _ Hfd).
  pose proof (doubled_gt (length l)) as Hd1.
  eapply runs_lift_bind; [by apply runs_RawMemory_ctor|by split; [|left]|].
  intros [[a'|] n'] m1 [Hn' Hm1]; simpl in Hn', Hm1; [|lia].
  destruct Hm1 as (_ & Hfresh & Hm1). subst n'.
  assert (b ≠ Some a') as Hne.
  { intros ->. destruct Hb. congruence. }
  assert (replicate (doubled (length l)) (None : option T)
          = replicate (length l) None
            ++ None :: replicate (doubled (length l) - length l - 1) None)
    as Hsplit.
  { rewrite <-replicate_S, <-replicate_add. f_equal. lia. }
  apply runs_bind. apply runs_unwind. fields.
  eapply runs_seq;
    [eapply (Hcm (MkMachine m1 (vectors s)) _ a' _ Hv);
       [simpl; by rewrite Hm1, lookup_insert_eq|]| |].
  { rewrite length_replicate. simpl. lia. }
  { simpl. intros s' [Hv' Hh'].
    eapply runs_lift_last; [eapply (runs_RawMemory_dtor _ (MkRawMemory _ _))|..];
      simpl.
    - by rewrite Hh', Hm1, lookup_insert_eq.
    - done.
    - intros _ m'' ->. split; [done|left].
      rewrite Hh', Hm1, delete_insert_eq. by apply delete_id. }
  intros res s2 (Hres & Hv2 & Hh2). fields in Hv2. fields in Hh2.
  fields in Hres.
  rewrite Hm1, insert_insert_eq, Hsplit in Hh2.
  rewrite <-(length_replicate (length l) (None : option T)) in Hh2 at 1.
  rewrite insert_middle in Hh2.
  eapply runs_seq;
    [eapply (CopySwap_runs _ this b l cap a'); [|done|]| |].
  { split_and!; simpl; [by rewrite Hv2|done|]. destruct b; [|done].
    destruct Hb. split; [done|]. rewrite Hh2, lookup_insert_ne; [done|].
    congruence. }
  { simpl. by rewrite Hh2, lookup_insert_eq. }
  { simpl. intros s' [Hvs Hheap].
    eapply runs_lift_last; [eapply (runs_RawMemory_dtor _ (MkRawMemory _ _))|..];
      simpl.
    - destruct Hheap as [->|(_&_&a&sblk&_&->)].
      + by rewrite Hh2, lookup_insert_eq.
      + rewrite lookup_insert. case_decide; [done|].
        by rewrite Hh2, lookup_insert_eq.
    - done.
    - intros _ m'' Hm''. split; [by rewrite Hvs|].
      destruct Hheap as [Hh|(?&?&_)]; [left|by right].
      rewrite Hm'', Hh, Hh2, delete_insert_eq. by apply delete_id. }
  intros nd s3 (-> & Hv3 & Hh3). simpl in Hv3, Hh3. split; [|done]. fields.
  eapply runs_lift_bind;
    [eapply (runs_RawMemory_dtor _ (MkRawMemory b cap))|done|].
  { simpl. destruct b as [a|]; [|done]. rewrite Hh3. simpl.
    rewrite lookup_insert_ne by congruence. by rewrite lookup_insert_eq. }
  intros [] m4 Hm4. simpl in Hm4. split; [|done].
  eapply runs_get_vec; [simpl; by rewrite Hv3, lookup_insert_eq|]. fields.
  rewrite size_add_exact by size_t_solve.
  eapply runs_put_vec. split; [|done].
  assert (heap m4 = <[a' := (Some <$> l ++ [x])
                            ++ replicate (doubled (length l) - length l - 1) None]>
                      (released b (heap (mem s)))) as Hfinal.
  { rewrite fmap_app, <-app_assoc. simpl.
    destruct b as [a|]; simpl in *.
    - rewrite Hm4, Hh3, Hh2. heap_eq.
    - rewrite Hm4, Hh3, Hh2. heap_eq. }
  exists a'.
  split_and!; simpl;
    [done| | |by rewrite Hv3, Hv2, insert_insert_eq|done].
  { destruct b as [a|]; simpl; [|done].
    rewrite lookup_delete_ne; [done|]. congruence. }
  eapply represents_intro; simpl;
    [apply lookup_insert_eq| |..|by rewrite Hfinal, lookup_insert_eq|].
  - rewrite length_app. simpl. lia.
  - rewrite length_app. simpl. lia.
  - lia.
  - rewrite length_app. simpl. do 2 f_equal. lia.
Qed.

(** What the three ways of appending hand to [PushBackU]: the element is
    constructed at the end; [EmplaceBack] returns its address. *)
Lemma PushBack_constructs_store this (x : T) s v a blk :
  vectors s !! this = Some v →
  heap (mem s) !! a = Some blk →
  size_ v < length blk →
  runs s
    (λ r s', r = (λ _, nullptr) (Ptr (Some a) (size_ v))
             ∧ vectors s' = vectors s
             ∧ heap (mem s') = <[a := <[size_ v := Some x]> blk]> (heap (mem s)))
    (λ s', vectors s' = vectors s ∧ heap (mem s') = heap (mem s))
    ((λ dest, v ← get_vec this;
              lift (construct_at (dest +ₚ size_ v) x);;
              mret nullptr) (Ptr (Some a) 0) s).
Proof.
  intros Hv Hblk Hlt.
  eapply runs_get_vec; [done|]. fields.
  eapply runs_lift_bind; [by eapply runs_construct_at|done|].
  intros [] m1 Hm1. by split.
Qed.

Lemma PushBack_rv_constructs_store this (x : T) s v a blk :
  vectors s !! this = Some v →
  heap (mem s) !! a = Some blk →
  size_ v < length blk →
  runs s
    (λ r s', r = (λ _, nullptr) (Ptr (Some a) (size_ v))
             ∧ vectors s' = vectors s
             ∧ heap (mem s') = <[a := <[size_ v := Some x]> blk]> (heap (mem s)))
    (λ s', vectors s' = vectors s ∧ heap (mem s') = heap (mem s))
    ((λ dest, v ← get_vec this;
              lift (move_construct_from (dest +ₚ size_ v) x);;
              mret nullptr) (Ptr (Some a) 0) s).
Proof.
  intros Hv Hblk Hlt.
  eapply runs_get_vec; [done|]. fields.
  eapply runs_lift_bind; [by eapply runs_move_construct_from|done|].
  intros [] m1 Hm1. by split.
Qed.

Lemma EmplaceBack_constructs_store this (x : T) s v a blk :
  vectors s !! this = Some v →
  heap (mem s) !! a = Some blk →
  size_ v < length blk →
  runs s
    (λ r s', r = (λ p : ptr, p) (Ptr (Some a) (size_ v))
             ∧ vectors s' = vectors s
             ∧ heap (mem s') = <[a := <[size_ v := Some x]> blk]> (heap (mem s)))
    (λ s', vectors s' = vectors s ∧ heap (mem s') = heap (mem s))
    ((λ dest, v ← get_vec this;
              lift (construct_at (dest +ₚ size_ v) x);;
              mret (dest +ₚ size_ v)) (Ptr (Some a) 0) s).
Proof.
  intros Hv Hblk Hlt.
  eapply runs_get_vec; [done|]. fields.
  eapply runs_lift_bind; [by eapply runs_construct_at|done|].
  intros [] m1 Hm1. by split.
Qed.

(** X19.  [EmplaceBack] is defined and completes unless something throws;
    the reference it returns is to the new last element, in the buffer the
    vector has afterwards: reading through it gives the element, and it is
    the reference [operator[]] gives for the last index.  When it throws the
    vector objects are what they were. *)
Theorem EmplaceBack_returns_last s this b l cap x :
  represents s this b l cap → is_size_t cap →
  (length l = cap → is_size_t (doubled (length l) * sizeof_T)) →
  runs s
    (λ r s', ∃ b' cap',
       represents s' this b' (l ++ [x]) cap'
       ∧ r = Ptr b' (length l)
       ∧ deref r s' = Done x s'
       ∧ Vector_index this (length l) s' = Done r s')
    (λ s', vectors s' = vectors s)
    (EmplaceBack this x s).
Proof.
  intros Hrep Hsz Hfit. unfold EmplaceBack.
  eapply runs_mono;
    [eapply (PushBackU_runs_store s this b l cap x _ (λ p, p));
       [apply EmplaceBack_constructs_store|done..]|..]; simpl.
  - intros r s' (a' & -> & _ & Hrep' & _). eexists _, _.
    split; [exact Hrep'|]. split; [done|]. split.
    + eapply load_element; [done|]. by apply list_lookup_middle.
    + eapply Vector_index_eq; [done|]. rewrite length_app. simpl. lia.
  - by intros s' [? _].
Qed.

(** One append, with the whole of the free store afterwards. *)
Lemma append_runs_store s this b l cap how x :
  represents s this b l cap → is_size_t cap →
  (length l = cap → is_size_t (doubled (length l) * sizeof_T)) →
  runs s
    (λ _ s', ∃ a' blk,
       released b (heap (mem s)) !! a' = None
       ∧ represents s' this (Some a') (l ++ [x])
           (if decide (length l = cap) then doubled (length l) else cap)
       ∧ delete this (vectors s') = delete this (vectors s)
       ∧ heap (mem s') = <[a' := blk]> (released b (heap (mem s))))
    (λ s', vectors s' = vectors s
           ∧ (heap (mem s') = heap (mem s)
              ∨ (nothrow_move_constructible = false
                 ∧ copy_constructible = false)))
    (append this how x s).
Proof.
  intros Hrep Hsz Hfit.
  assert (∀ cm res_of,
            (∀ s v a blk,
               vectors s !! this = Some v →
               heap (mem s) !! a = Some blk →
               size_ v < length blk →
               runs s
                 (λ r s', r = res_of (Ptr (Some a) (size_ v))
                          ∧ vectors s' = vectors s
                          ∧ heap (mem s')
                            = <[a := <[size_ v := Some x]> blk]> (heap (mem s)))
                 (λ s', vectors s' = vectors s ∧ heap (mem s') = heap (mem s))
                 (cm (Ptr (Some a) 0) s)) →
            runs s
              (λ _ s', ∃ a' blk,
                 released b (heap (mem s)) !! a' = None
                 ∧ represents s' this (Some a') (l ++ [x])
                     (if decide (length l = cap) then doubled (length l)
                      else cap)
                 ∧ delete this (vectors s') = delete this (vectors s)
                 ∧ heap (mem s') = <[a' := blk]> (released b (heap (mem s))))
              (λ s', vectors s' = vectors s
                     ∧ (heap (mem s') = heap (mem s)
                        ∨ (nothrow_move_constructible = false
                           ∧ copy_constructible = false)))
              ((PushBackU this cm;; mret ()) s)) as Hgen.
  { intros cm res_of Hcm. apply runs_bind.
    eapply runs_mono; [by eapply PushBackU_runs_store|..]; simpl; [|done].
    intros _ s' (a' & _ & Hnew & Hrep' & Hv' & Hh'). split; [|done].
    eexists a', _. split; [done|]. split; [done|]. split; [|done].
    by rewrite Hv', delete_insert_eq. }
  destruct how; simpl.
  - apply (Hgen _ (λ _, nullptr)). intros.
    by apply PushBack_constructs_store.
  - apply (Hgen _ (λ _, nullptr)). intros.
    by apply PushBack_rv_constructs_store.
  - apply (Hgen _ (λ p, p)). intros.
    by apply EmplaceBack_constructs_store.
Qed.

(** Appends keep the vector the owner of one block: with its buffer taken
    away, the free store is what it was without the buffer it had.  When an
    append throws, the appends before it have been made. *)
Lemma append_all_owned ops : ∀ s this b l cap,
  represents s this b l cap →
  is_size_t ((cap `max` (2 * (length l + length ops))) * sizeof_T) →
  runs s
    (λ _ s', ∃ b' cap',
       represents s' this b' (l ++ ops.*2) cap'
       ∧ released b' (heap (mem s')) = released b (heap (mem s))
       ∧ delete this (vectors s') = delete this (vectors s))
    (λ s', (∃ b' k cap',
              k < length ops
              ∧ represents s' this b' (l ++ take k ops.*2) cap'
              ∧ delete this (vectors s') = delete this (vectors s))
           ∨ (nothrow_move_constructible = false
              ∧ copy_constructible = false))
    (append_all this ops s).
Proof.
  induction ops as [|[how x] ops IH]; intros s this b l cap Hrep Hfit; simpl.
  - split; [|done]. exists b, cap. by rewrite app_nil_r.
  - pose proof sizeof_T_pos as Hsp. simpl in Hfit.
    eapply runs_seq; [eapply append_runs_store; [done|..]| |].
    { eapply is_size_t_le; [|exact Hfit]. nia. }
    { intros _. eapply is_size_t_le; [|exact Hfit].
      unfold doubled. case_decide; nia. }
    { simpl. intros s' [Hv' [Hh'|?]]; [left|by right].
      exists b, 0, cap. split; [lia|]. rewrite app_nil_r.
      split; [|by rewrite Hv'].
      eapply represents_frame; [done|by rewrite Hv'|]. intros a _.
      by rewrite Hh'. }
    intros [] s1 (a1 & blk & Hnew & Hrep1 & Hv1 & Hh1).
    set (cap1 := if decide (length l = cap) then doubled (length l) else cap)
      in *.
    assert (released (Some a1) (heap (mem s1)) = released b (heap (mem s)))
      as Hrel.
    { simpl. rewrite Hh1, delete_insert_eq. by apply delete_id. }
    eapply runs_Capacity; [by apply Hrep1|]. fields.
    apply runs_bind.
    eapply runs_mono; [eapply (IH s1 this (Some a1) (l ++ [x]) cap1 Hrep1)|..].
    + rewrite length_app. simpl.
      eapply is_size_t_le; [|exact Hfit].
      apply Nat.mul_le_mono_r. unfold cap1, doubled.
      repeat case_decide; lia.
    + simpl. intros caps s2 (b2 & cap2 & Hrep2 & Hh2 & Hv2).
      split; [|done]. exists b2, cap2.
      rewrite <-app_assoc in Hrep2. simpl in Hrep2.
      split; [done|]. split; [by rewrite Hh2|by rewrite Hv2].
    + simpl. intros s2 [(b2 & k & cap2 & Hk & Hrep2 & Hv2)|?];
        [left|by right].
      exists b2, (S k), cap2. split; [lia|].
      rewrite <-app_assoc in Hrep2. simpl in Hrep2.
      split; [done|]. by rewrite Hv2.
Qed.

(** X20.  However a vector grows by appends, it owns one buffer, and its
    destructor gives back everything: after the appends and the destructor
    the free store is what it was without the buffer the vector had at the
    start, and the other vectors are untouched.  When an append throws, the
    vector holds the elements it had followed by the values appended before
    that append, and the other vectors are untouched, unless the type is
    move-only with a move constructor that may throw. *)
Theorem appends_then_destroy_release_all s this b l cap ops :
  represents s this b l cap →
  is_size_t ((cap `max` (2 * (length l + length ops))) * sizeof_T) →
  runs s
    (λ _ s', heap (mem s') = released b (heap (mem s))
             ∧ vectors s' = delete this (vectors s))
    (λ s', (∃ b' k cap',
              k < length ops
              ∧ represents s' this b' (l ++ take k ops.*2) cap'
              ∧ delete this (vectors s') = delete this (vectors s))
           ∨ (nothrow_move_constructible = false
              ∧ copy_constructible = false))
    ((append_all this ops;; Vector_dtor this) s).
Proof.
  intros Hrep Hfit.
  eapply runs_seq; [by eapply append_all_owned| |].
  { simpl. intros s' [(b' & k & cap' & Hk & Hrep' & Hv')|?];
      [left|by right].
    by exists b', k, cap'. }
  intros caps s1 (b1 & cap1 & Hrep1 & Hh1 & Hv1).
  eapply runs_mono; [by eapply Vector_dtor_runs|..]; simpl; [|done].
  intros [] s2 [Hv2 Hh2]. split; [by rewrite Hh2|by rewrite Hv2].
Qed.

End Ownership.

Section Storage.
Context {T : Type} `{Element T} `{Library}.
#[local] Arguments destroy_n : simpl never.
#[local] Arguments CopyOrMove : simpl never.
Implicit Types (s : Machine T) (l : list T).

(** X21.  [Erase] throws only when the move assignment of the element type
    may throw, and then the vector keeps its buffer, its capacity and its
    size, with every element still alive: only values may have changed. *)
Theorem Erase_throw_keeps_shape s this b l cap p s' :
  represents s this b l cap → is_size_t cap → p < length l →
  Erase this (Ptr b p) s = Thrown s' →
  nothrow_move_assignable = false
  ∧ ¬ calm (oracle (mem s))
  ∧ ∃ l', length l' = length l ∧ represents s' this b l' cap.
Proof.
  intros Hrep Hsz Hp Hthrow.
  pose proof (Erase_runs s this b l cap p Hrep Hsz Hp) as Hr.
  rewrite Hthrow in Hr. simpl in Hr.
  destruct Hr as ((Hn & Hl) & _ & Hc). done.
Qed.

(** X22.  Copy assignment from a vector that has more elements than the
    target has capacity ends with the target in a fresh buffer whose capacity
    is the number of elements copied; the target's old buffer is released and
    no other block changes, the source's included. *)
Theorem Vector_copy_assign_reallocates s this rhs b l cap br lr capr :
  this ≠ rhs →
  represents s this b l cap → represents s rhs br lr capr →
  (∀ a, b = Some a → br ≠ Some a) →
  is_size_t (length lr * sizeof_T) →
  cap < length lr →
  runs s
    (λ _ s', ∃ a',
       heap (mem s) !! a' = None
       ∧ represents s' this (Some a') lr (length lr)
       ∧ represents s' rhs br lr capr
       ∧ heap (mem s') = <[a' := Some <$> lr]> (released b (heap (mem s)))
       ∧ ∀ k, k ≠ this → vectors s' !! k = vectors s !! k)
    (λ s', same_state s s')
    (Vector_copy_assign this rhs s).
Proof.
  intros Hne Hthis Hrhs Hsep Hfit Hgrow.
  pose proof Hthis as (Hv & Hle & Hb). pose proof Hrhs as (Hvr & Hler & Hbr).
  eapply runs_mono; [by eapply Vector_copy_assign_runs|..]; simpl.
  - intros [] s'. rewrite decide_True by done.
    intros (a' & Hfresh & Hv' & Hh'). exists a'.
    split; [done|]. split; [|split; [|split; [done|]]].
    + split; [by rewrite Hv', lookup_insert_eq|]. split; [done|].
      split; [lia|].
      by rewrite Hh', lookup_insert_eq, Nat.sub_diag, app_nil_r.
    + split; [by rewrite Hv', lookup_insert_ne|]. split; [done|].
      destruct br as [ar|]; [|done]. destruct Hbr as [? Hblk].
      split; [done|]. rewrite Hh'.
      rewrite lookup_insert_ne by congruence.
      destruct b as [a|]; simpl; [|done].
      rewrite lookup_delete_ne; [done|]. intros ->. by eapply Hsep.
    + intros k Hk. by rewrite Hv', lookup_insert_ne.
  - intros s' [Hv' Hh']. split; [done|]. by apply Hh'.
Qed.

(** X23.  [RawMemory(n)] obtains no storage for [n = 0], and its buffer is
    then null; for any other [n] it obtains one fresh block.  Its destructor
    returns the block: construction followed by destruction leaves the free
    store as it was, also when the allocation throws. *)
Theorem RawMemory_ctor_then_dtor (m : Mem T) n :
  runs m
    (λ r m', capacity_ r = n
             ∧ (buffer_ r = None ↔ n = 0)
             ∧ heap m' = heap m)
    (λ m', heap m' = heap m)
    ((r ← RawMemory_ctor n; RawMemory_dtor r;; mret r) m).
Proof.
  eapply runs_seq; [apply runs_RawMemory_ctor_slots|done|].
  intros r m1 [Hcap Hbuf]. simpl in Hbuf. apply runs_bind.
  eapply runs_mono; [apply (runs_RawMemory_dtor m1 r)|..]; simpl; [| |done].
  - destruct (buffer_ r) as [a|]; [|done].
    destruct Hbuf as (_ & _ & ->). by rewrite lookup_insert_eq.
  - intros [] m2 Hm2. split; [|done]. split; [done|].
    destruct (buffer_ r) as [a|].
    + destruct Hbuf as (Hn & Hfresh & Hm1). split; [split; [done|lia]|].
      rewrite Hm2, Hm1, delete_insert_eq. by apply delete_id.
    + destruct Hbuf as [-> Hm1]. split; [done|]. by rewrite Hm2.
Qed.

(** X24.  [CopyOrMove] fills [n] raw slots with the values of [n] elements
    of another block.  It moves when the move constructor of the type cannot
    throw or the type cannot be copied, and then the sources are left in
    their moved-from state; otherwise it copies, the sources keep their
    values, and a copy that throws leaves memory as it was. *)
Theorem CopyOrMove_relocates vals (m : Mem T) sa da spre spost dpre dpost :
  sa ≠ da →
  heap m !! sa = Some (spre ++ (Some <$> vals) ++ spost) →
  heap m !! da = Some (dpre ++ replicate (length vals) None ++ dpost) →
  runs m
    (λ _ m',
       heap m'
       = <[da := dpre ++ (Some <$> vals) ++ dpost]>
           (<[sa := spre
                    ++ (Some <$> (if nothrow_move_constructible
                                     || negb copy_constructible
                                  then residue <$> vals else vals))
                    ++ spost]>
              (heap m)))
    (λ m', (nothrow_move_constructible = false ∧ copy_constructible = true
            ∧ heap m' = heap m)
           ∨ (nothrow_move_constructible = false
              ∧ copy_constructible = false
              ∧ ∃ sblk, heap m' = <[sa := sblk]> (heap m)))
    (CopyOrMove (Ptr (Some sa) (length spre)) (length vals)
                (Ptr (Some da) (length dpre)) m).
Proof.
  intros Hne Hs Hd.
  eapply runs_mono; [by eapply (runs_CopyOrMove vals)|..]; simpl; [done|].
  intros m' [[Hrel Hm']|?]; [left|by right].
  unfold relocation_moves in Hrel. apply orb_false_iff in Hrel.
  destruct Hrel as [? Hcc]. apply negb_false_iff in Hcc. done.
Qed.

End Storage.

(** A run with an oracle that never fails completes, and leaves such an
    oracle. *)
Lemma runs_calm_oracle {S A} `{HasOracle S} (s : S) (Q : A → S → Prop) E r :
  runs s Q E r → calm (oracle_of s) →
  ∃ a s', r = Done a s' ∧ Q a s' ∧ calm (oracle_of s').
Proof.
  destruct r as [a s'|s'|]; simpl.
  - intros [HQ [o Ho]] Hc. exists a, s'. split; [done|]. split; [done|].
    unfold calm in *. rewrite Ho in Hc. by apply Forall_app in Hc as [_ ?].
  - intros (_ & _ & Hn) Hc. by destruct Hn.
  - done.
Qed.

Section Int_examples.
#[local] Existing Instance int_element.
#[local] Existing Instance strict_library.

(** [v.Reserve(5)] for [v = {1, 2}] of capacity [2]. *)
Lemma Reserve_relocates_witness :
  ∃ s', Reserve 0 5 (single [] [1; 2] 2) = Done () s'
        ∧ elements s' 0 = Some [1; 2] ∧ Capacity 0 s' = Done 5 s'.
Proof.
  destruct (runs_calm_oracle _ _ _ _
              (Reserve_relocates (single [] [1; 2] 2) 0 (Some 0) [1; 2] 2 5
                 ltac:(concrete_represents) ltac:(concrete_size_t))
              ltac:(constructor)) as ([] & s' & He & HQ & _).
  destruct (decide (2 < 5)) as [_|Hn]; [|exfalso; apply Hn; lia].
  destruct HQ as (a' & _ & Hrep & _).
  exists s'. split; [exact He|].
  split; [exact (represents_elements _ _ _ _ _ Hrep)
         |exact (represents_Capacity _ _ _ _ _ Hrep)].
Defined.

(** [v.PushBack(3)] for a full [v = {1, 2}]. *)
Lemma append_adds_last_witness :
  ∃ s', append 0 ByCopy 3 (single [] [1; 2] 2) = Done () s'
        ∧ elements s' 0 = Some [1; 2; 3] ∧ Capacity 0 s' = Done 4 s'.
Proof.
  destruct (runs_calm_oracle _ _ _ _
              (append_adds_last (single [] [1; 2] 2) 0 (Some 0) [1; 2] 2
                 ByCopy 3
                 ltac:(concrete_represents) ltac:(concrete_size_t)
                 ltac:(intros _; concrete_size_t))
              ltac:(constructor)) as ([] & s' & He & HQ & _).
  destruct (decide (length [1; 2] = 2)) as [_|Hn];
    [|exfalso; apply Hn; reflexivity].
  destruct HQ as (a' & _ & Hrep & _).
  exists s'. split; [exact He|].
  split; [exact (represents_elements _ _ _ _ _ Hrep)
         |exact (represents_Capacity _ _ _ _ _ Hrep)].
Defined.

(** Two appends to [v = {1, 2}] of capacity [4]. *)
Lemma appends_within_capacity_witness :
  ∃ s', append_all 0 [(ByCopy, 3); (ByEmplace, 4)] (single [] [1; 2] 4)
        = Done [4; 4] s'
        ∧ elements s' 0 = Some [1; 2; 3; 4].
Proof.
  destruct (runs_calm_oracle _ _ _ _
              (appends_within_capacity [(ByCopy, 3); (ByEmplace, 4)]
                 (single [] [1; 2] 4) 0 (Some 0) [1; 2] 4
                 ltac:(concrete_represents) ltac:(concrete_size_t)
                 ltac:(simpl; lia))
              ltac:(constructor)) as (caps & s' & He & (Hcaps & Hrep & _) & _).
  exists s'. split; [rewrite He, Hcaps; reflexivity|].
  exact (represents_elements _ _ _ _ _ Hrep).
Defined.

(** [v.PopBack()] for [v = {1, 2}]. *)
Lemma PopBack_removes_last_witness :
  ∃ s', PopBack 0 (single [] [1; 2] 2) = Done () s'
        ∧ elements s' 0 = Some [1] ∧ Capacity 0 s' = Done 2 s'.
Proof.
  destruct (PopBack_removes_last (single [] [1; 2] 2) 0 (Some 0) [1; 2] 2
              ltac:(concrete_represents) ltac:(concrete_size_t))
    as [_ Hpop].
  destruct (runs_calm_oracle _ _ _ _ (Hpop [1] 2 eq_refl) ltac:(constructor))
    as ([] & s' & He & (Hrep & _) & _).
  exists s'. split; [exact He|].
  split; [exact (represents_elements _ _ _ _ _ Hrep)
         |exact (represents_Capacity _ _ _ _ _ Hrep)].
Defined.

(** [v.PushBack(3); v.PopBack();] for a full [v = {1, 2}]. *)
Lemma append_then_PopBack_witness :
  ∃ s', (append 0 ByMove 3;; PopBack 0) (single [] [1; 2] 2) = Done () s'
        ∧ elements s' 0 = Some [1; 2] ∧ Capacity 0 s' = Done 4 s'.
Proof.
  destruct (runs_calm_oracle _ _ _ _
              (append_then_PopBack (single [] [1; 2] 2) 0 (Some 0) [1; 2] 2
                 ByMove 3
                 ltac:(concrete_represents) ltac:(concrete_size_t)
                 ltac:(intros _; concrete_size_t))
              ltac:(constructor)) as ([] & s' & He & (b' & Hrep & _) & _).
  exists s'. split; [exact He|].
  split; [exact (represents_elements _ _ _ _ _ Hrep)
         |exact (represents_Capacity _ _ _ _ _ Hrep)].
Defined.

(** [v.Resize(4)] for [v = {1, 2}] of capacity [2]. *)
Lemma Resize_sets_size_witness :
  ∃ s', Resize 0 4 (single [] [1; 2] 2) = Done () s'
        ∧ elements s' 0 = Some [1; 2; 0; 0] ∧ Capacity 0 s' = Done 4 s'.
Proof.
  destruct (runs_calm_oracle _ _ _ _
              (Resize_sets_size (single [] [1; 2] 2) 0 (Some 0) [1; 2] 2 4
                 ltac:(concrete_represents) ltac:(concrete_size_t))
              ltac:(constructor)) as ([] & s' & He & HQ & _).
  destruct (decide (2 < 4)) as [_|Hn]; [|exfalso; apply Hn; lia].
  destruct HQ as (a' & _ & Hrep & _).
  exists s'. split; [exact He|].
  split; [exact (represents_elements _ _ _ _ _ Hrep)
         |exact (represents_Capacity _ _ _ _ _ Hrep)].
Defined.

(** Swapping [{1}] and [{2, 3}]. *)
Lemma Swap_exchanges_witness :
  ∃ s', Swap 0 1 (pair_of [] [1] 1 [2; 3] 2) = Done () s'
        ∧ represents s' 0 (Some 3) [2; 3] 2
        ∧ represents s' 1 (Some 2) [1] 1
        ∧ Swap 0 1 s' = Done () (pair_of [] [1] 1 [2; 3] 2).
Proof.
  destruct (Swap_exchanges (pair_of [] [1] 1 [2; 3] 2) 0 1
              (Some 2) [1] 1 (Some 3) [2; 3] 2
              ltac:(lia) ltac:(concrete_represents) ltac:(concrete_represents))
    as (_ & s' & He & _ & H0 & H1 & _ & Hback).
  exists s'. split; [exact He|]. split; [exact H0|].
  split; [exact H1|exact Hback].
Defined.

(** The destructor of [v = {1, 2}]. *)
Lemma Vector_dtor_releases_witness :
  ∃ s', Vector_dtor 0 (single [] [1; 2] 2) = Done () s'
        ∧ vectors s' !! 0 = None ∧ heap (mem s') !! 0 = None.
Proof.
  destruct (runs_calm_oracle _ _ _ _
              (Vector_dtor_releases (single [] [1; 2] 2) 0 (Some 0) [1; 2] 2
                 ltac:(concrete_represents))
              ltac:(constructor)) as ([] & s' & He & (Hv & Hh) & _).
  exists s'. split; [exact He|].
  split; [rewrite Hv; apply lookup_delete_eq
         |rewrite Hh; apply lookup_delete_eq].
Defined.

(** [Vector<int> w(v);] for [v = {1, 2}] of capacity [4]. *)
Lemma Vector_copy_ctor_copies_witness :
  ∃ s', Vector_copy_ctor 5 0 (single [] [1; 2] 4) = Done () s'
        ∧ elements s' 5 = Some [1; 2] ∧ Capacity 5 s' = Done 2 s'
        ∧ elements s' 0 = Some [1; 2].
Proof.
  destruct (runs_calm_oracle _ _ _ _
              (Vector_copy_ctor_copies (single [] [1; 2] 4) 5 0 (Some 0)
                 [1; 2] 4
                 ltac:(lia) ltac:(concrete_represents) ltac:(concrete_size_t))
              ltac:(constructor))
    as ([] & s' & He & (b' & Hnew & Hold & _) & _).
  exists s'. split; [exact He|].
  split; [exact (represents_elements _ _ _ _ _ Hnew)|].
  split; [exact (represents_Capacity _ _ _ _ _ Hnew)
         |exact (represents_elements _ _ _ _ _ Hold)].
Defined.


(** [Vector<int> w(std::move(v));] for [v = {2, 3}], and then the destructor
    of [v]. *)
Lemma move_then_destroy_source_witness :
  ∃ s', (Vector_move_ctor 5 1;; Vector_dtor 1) (pair_of [] [1] 1 [2; 3] 2)
        = Done () s'
        ∧ represents s' 5 (Some 3) [2; 3] 2.
Proof.
  destruct (move_then_destroy_source (pair_of [] [1] 1 [2; 3] 2) 5 1
              (Some 3) [2; 3] 2 ltac:(lia) ltac:(concrete_represents))
    as (s' & He & _ & Hrep & _).
  exists s'. split; [exact He|exact Hrep].
Defined.

(** [v[1]] and [v[2]] for [v = {5, 10}]. *)
Lemma Vector_index_reads_witness :
  read_index 0 1 (single [] [5; 10] 2) = Done 10 (single [] [5; 10] 2)
  ∧ Vector_index 0 2 (single [] [5; 10] 2) = Undefined.
Proof.
  destruct (Vector_index_reads (single [] [5; 10] 2) 0 (Some 0) [5; 10] 2 1
              ltac:(concrete_represents)) as [Hin _].
  destruct (Vector_index_reads (single [] [5; 10] 2) 0 (Some 0) [5; 10] 2 2
              ltac:(concrete_represents)) as [_ Hout].
  split; [exact (proj2 (Hin 10 eq_refl))|].
  apply Hout. simpl. lia.
Defined.

(** [*(v.begin() + 1)] and [v.end() - v.begin()] for [v = {5, 10}] of
    capacity [3]. *)
Lemma iterators_span_elements_witness :
  deref (Ptr (Some 0) 0 +ₚ 1) (single [] [5; 10] 3)
  = Done 10 (single [] [5; 10] 3)
  ∧ end_ 0 (single [] [5; 10] 3) = Done (Ptr (Some 0) 2) (single [] [5; 10] 3)
  ∧ deref (Ptr (Some 0) 2) (single [] [5; 10] 3) = Undefined.
Proof.
  destruct (iterators_span_elements (single [] [5; 10] 3) 0 (Some 0)
              [5; 10] 3 ltac:(concrete_represents))
    as (_ & Hend & _ & Hread & Hpast).
  split; [exact (proj1 (Hread 1 10 eq_refl))|].
  split; [exact Hend|exact Hpast].
Defined.

(** [v.Erase(v.end())] and [v.Insert(v.end() + 1, 7)] for [v = {1, 2}]. *)
Lemma positions_are_checked_witness :
  Erase 0 (Ptr (Some 0) 2) (single [] [1; 2] 2) = Undefined
  ∧ Insert 0 (Ptr (Some 0) 3) 7 (single [] [1; 2] 2) = Undefined.
Proof.
  destruct (positions_are_checked (single [] [1; 2] 2) 0 (Some 0) [1; 2] 2
              (Ptr (Some 0) 2) 7 ltac:(concrete_represents)) as [_ Herase].
  destruct (positions_are_checked (single [] [1; 2] 2) 0 (Some 0) [1; 2] 2
              (Ptr (Some 0) 3) 7 ltac:(concrete_represents)) as [Hins _].
  split; [apply Herase; right; simpl; lia|].
  apply Hins. right. simpl. lia.
Defined.

(** [v.Insert(v.begin() + 1, 99)] for [v = {5, 10, 15}] of capacity [4]. *)
Lemma Insert_in_place_shifts_right_witness :
  ∃ s', Insert 0 (Ptr (Some 0) 1) 99 (single [] [5; 10; 15] 4)
        = Done (Ptr (Some 0) 1) s'
        ∧ elements s' 0 = Some [5; 99; 10; 15]
        ∧ Capacity 0 s' = Done 4 s'.
Proof.
  destruct (runs_calm_oracle _ _ _ _
              (Insert_in_place_shifts_right (single [] [5; 10; 15] 4) 0 0
                 [5; 10; 15] 4 1 99
                 ltac:(concrete_represents) ltac:(simpl; lia)
                 ltac:(simpl; lia) ltac:(concrete_size_t))
              ltac:(constructor))
    as (r & s' & He & (Hr & Hrep & _ & _ & _ & _ & Hcap) & _).
  exists s'. split; [rewrite He, Hr; reflexivity|].
  split; [exact (represents_elements _ _ _ _ _ Hrep)|exact Hcap].
Defined.

(** [v.Insert(v.end(), 3)] for a full [v = {1, 2}]. *)
Lemma Insert_on_full_reallocates_witness :
  ∃ r s', Insert 0 (Ptr (Some 0) 2) 3 (single [] [1; 2] 2) = Done r s'
          ∧ elements s' 0 = Some [1; 2; 3]
          ∧ Capacity 0 s' = Done 4 s'
          ∧ deref r s' = Done 3 s'.
Proof.
  destruct (runs_calm_oracle _ _ _ _
              (Insert_on_full_reallocates (single [] [1; 2] 2) 0 (Some 0)
                 [1; 2] 2 2 3
                 ltac:(concrete_represents) ltac:(simpl; lia) eq_refl
                 ltac:(simpl; lia) ltac:(concrete_size_t))
              ltac:(constructor))
    as (r & s' & He & (a' & _ & _ & Hrep & Hread & _) & _).
  exists r, s'. split; [exact He|].
  split; [exact (represents_elements _ _ _ _ _ Hrep)|].
  split; [exact (represents_Capacity _ _ _ _ _ Hrep)|exact Hread].
Defined.

(** [v.Erase(v.Insert(v.begin() + 1, 9))] for a full [v = {1, 2}]. *)
Lemma Insert_then_Erase_round_trip_witness :
  ∃ r s', (it ← Insert 0 (Ptr (Some 0) 1) 9; Erase 0 it)
            (single [] [1; 2] 2) = Done r s'
          ∧ elements s' 0 = Some [1; 2].
Proof.
  destruct (runs_calm_oracle _ _ _ _
              (Insert_then_Erase_round_trip (single [] [1; 2] 2) 0 (Some 0)
                 [1; 2] 2 1 9
                 ltac:(concrete_represents) ltac:(concrete_size_t)
                 ltac:(simpl; lia) ltac:(left; simpl; lia)
                 ltac:(intros _; concrete_size_t))
              ltac:(constructor))
    as (r & s' & He & (b' & cap' & _ & _ & Hel & _) & _).
  exists r, s'. split; [exact He|exact Hel].
Defined.

(** [v.EmplaceBack(3)] for [v = {1, 2}] of capacity [4]. *)
Lemma EmplaceBack_returns_last_witness :
  ∃ r s', EmplaceBack 0 3 (single [] [1; 2] 4) = Done r s'
          ∧ elements s' 0 = Some [1; 2; 3]
          ∧ deref r s' = Done 3 s'.
Proof.
  destruct (runs_calm_oracle _ _ _ _
              (EmplaceBack_returns_last (single [] [1; 2] 4) 0 (Some 0)
                 [1; 2] 4 3
                 ltac:(concrete_represents) ltac:(concrete_size_t)
                 ltac:(intros Hfull; simpl in Hfull; lia))
              ltac:(constructor))
    as (r & s' & He & (b' & cap' & Hrep & _ & Hread & _) & _).
  exists r, s'. split; [exact He|].
  split; [exact (represents_elements _ _ _ _ _ Hrep)|exact Hread].
Defined.

(** [{ ...; v.PushBack(2); v.PushBack(3); }] for a full [v = {1}]. *)
Lemma appends_then_destroy_release_all_witness :
  ∃ s', (append_all 0 [(ByCopy, 2); (ByMove, 3)];; Vector_dtor 0)
          (single [] [1] 1) = Done () s'
        ∧ heap (mem s') = released (Some 0) (heap (mem (single [] [1] 1)))
        ∧ vectors s' !! 0 = None.
Proof.
  destruct (runs_calm_oracle _ _ _ _
              (appends_then_destroy_release_all (single [] [1] 1) 0 (Some 0)
                 [1] 1 [(ByCopy, 2); (ByMove, 3)]
                 ltac:(concrete_represents) ltac:(concrete_size_t))
              ltac:(constructor)) as ([] & s' & He & (Hh & Hv) & _).
  exists s'. split; [exact He|]. split; [exact Hh|].
  rewrite Hv. apply lookup_delete_eq.
Defined.

(** [a = b] for [a = {1}] of capacity [1] and [b = {7, 8}]. *)
Lemma Vector_copy_assign_reallocates_witness :
  ∃ s', Vector_copy_assign 0 1 (pair_of [] [1] 1 [7; 8] 2) = Done () s'
        ∧ elements s' 0 = Some [7; 8] ∧ Capacity 0 s' = Done 2 s'
        ∧ heap (mem s') !! 2 = None.
Proof.
  destruct (runs_calm_oracle _ _ _ _
              (Vector_copy_assign_reallocates (pair_of [] [1] 1 [7; 8] 2) 0 1
                 (Some 2) [1] 1 (Some 3) [7; 8] 2
                 ltac:(lia) ltac:(concrete_represents)
                 ltac:(concrete_represents)
                 ltac:(intros a Ha Hb; inversion Ha; subst a; inversion Hb)
                 ltac:(concrete_size_t) ltac:(simpl; lia))
              ltac:(constructor))
    as ([] & s' & He & (a' & Hfresh & Hrep & _ & Hh & _) & _).
  exists s'. split; [exact He|].
  split; [exact (represents_elements _ _ _ _ _ Hrep)|].
  split; [exact (represents_Capacity _ _ _ _ _ Hrep)|].
  rewrite Hh. rewrite lookup_insert_ne.
  - apply lookup_delete_eq.
  - intros ->. simpl in Hfresh. rewrite lookup_insert_eq in Hfresh.
    discriminate Hfresh.
Defined.

(** Relocating two [int]s into raw storage. *)
Lemma CopyOrMove_relocates_witness :
  ∃ m', CopyOrMove (Ptr (Some 0) 0) 2 (Ptr (Some 1) 0)
          (MkMem (<[0 := [Some 1; Some 2]]> {[1 := [None; None]]}) [])
        = Done () m'
        ∧ heap m' !! 1 = Some [Some 1; Some 2]
        ∧ heap m' !! 0 = Some [Some 1; Some 2].
Proof.
  destruct (runs_calm_oracle (S := Mem nat) _ _ _ _
              (CopyOrMove_relocates [1; 2]
                 (MkMem (<[0 := [Some 1; Some 2]]> {[1 := [None; None]]}) [])
                 0 1 [] [] [] []
                 ltac:(lia) eq_refl eq_refl)
              ltac:(constructor)) as ([] & m' & He & Hh & _).
  exists m'. split; [exact He|]. rewrite Hh.
  split; [apply lookup_insert_eq|].
  rewrite lookup_insert_ne by lia. apply lookup_insert_eq.
Defined.

(** [v.Reserve(size_t(1) << 62)] for an empty [Vector<int>], and then
    [v.PushBack(7)]. *)
Lemma Reserve_unchecked_bytes_witness :
  ∃ s', Reserve 0 (Z.to_nat (2 ^ 62))
          (MkMachine (MkMem ∅ []) {[ 0 := MkVector (MkRawMemory None 0) 0 ]})
        = Done () s'
        ∧ Capacity 0 s' = Done (Z.to_nat (2 ^ 62)) s'
        ∧ PushBack 0 7 s' = Undefined.
Proof.
  assert (size_mul (Z.to_nat (2 ^ 62)) sizeof_T = 0) as Hbytes.
  { unfold size_mul, to_size_t. rewrite Z2Nat.id by lia.
    vm_compute. reflexivity. }
  assert (size_mul (Z.to_nat (2 ^ 62)) sizeof_T / sizeof_T = 0) as Hslots.
  { rewrite Hbytes. reflexivity. }
  assert (0 < Z.to_nat (2 ^ 62)) as Hpos by lia.
  destruct (runs_calm_oracle _ _ _ _
              (Reserve_unchecked_bytes
                 (MkMachine (MkMem ∅ [])
                    {[ 0 := MkVector (MkRawMemory None 0) 0 ]})
                 0 None [] 0 (Z.to_nat (2 ^ 62))
                 ltac:(split; [reflexivity|split; [apply Nat.le_refl
                                                  |reflexivity]])
                 Hpos (Nat.le_0_l _))
              ltac:(constructor))
    as ([] & s' & He & (a' & _ & _ & _ & Hcap & Hpush) & Hcalm).
  exists s'. split; [exact He|]. split; [exact Hcap|].
  apply Hpush; [symmetry; exact Hslots|exact Hpos|exact Hcalm].
Defined.

End Int_examples.

Section Fragile_examples.
#[local] Existing Instance fragile_element.
#[local] Existing Instance strict_library.

(** Erasing the first of [1; 2; 3] when the second move assignment throws:
    the vector still has three elements. *)
Lemma Erase_throw_keeps_shape_witness :
  Erase 0 (Ptr (Some 0) 0) (single [true; false] [1; 2; 3] 3)
  = Thrown (single [] [2; 0; 3] 3)
  ∧ ∃ l', length l' = 3 ∧ represents (single [] [2; 0; 3] 3) 0 (Some 0) l' 3.
Proof.
  split; [vm_compute; reflexivity|].
  destruct (Erase_throw_keeps_shape (single [true; false] [1; 2; 3] 3) 0
              (Some 0) [1; 2; 3] 3 0 (single [] [2; 0; 3] 3)
              ltac:(concrete_represents) ltac:(concrete_size_t)
              ltac:(simpl; lia) ltac:(vm_compute; reflexivity))
    as (_ & _ & l' & Hlen & Hrep).
  exists l'. split; [exact Hlen|exact Hrep].
Defined.

End Fragile_examples.
